(** * go.crypto/ssh client core: a shallow embedding and its properties

    The development follows the Go sources:
      - the file of package ssh with the common definitions, src/unnamed/part_000
        (negotiation, Diffie-Hellman, MarshalPublicKey, window)
      - ssh/certs.go   (OpenSSH v01 certificates, name lists, tuple lists)
      - ssh/client.go  (channel table, inbound channel-open, demultiplexer)

    The other files of the package (messages.go, keys.go, channel.go,
    tcpip.go, cipher.go) are not at hand: what the code above needs of them
    is a parameter, or is modelled from the specification and marked so.

    Unsigned 32-bit and 64-bit integers are integers of [Z] with the
    wrap-around written out; byte slices are [list byte]; Go strings are
    [string]; mutation of the connection is explicit state passing. *)

From Stdlib Require Import ZArith Zpow_facts Lia List Bool.
From Stdlib Require Import Strings.String Strings.Ascii Strings.Byte.
From stdpp Require Import base option list strings gmap.

Open Scope Z_scope.

(** ** Machine integers *)

Definition u32 (z : Z) : Z := z mod 2 ^ 32.
Definition u64 (z : Z) : Z := z mod 2 ^ 64.

(** ** The send window ([window]) *)

Module Window.

(** [window] embeds a [*sync.Cond]; only the counter is state here.  The
    mutex makes each method atomic, so a method is one state transition. *)
Record window := Win { win : Z }.

(** func (w *window) add(win uint32) bool *)
Definition add (w : window) (n : Z) : bool * window :=
  if n =? 0 then (true, w)
  else if u32 (win w + n) <? n then (false, w)
  else (true, Win (u32 (win w + n))).

(** What a call of [reserve] comes to: it returns the granted amount, or
    the caller is parked in [w.Wait()] because the window is empty. *)
Inductive reserved :=
| Granted (n : Z) (w : window)
| Parked.

(** func (w *window) reserve(win uint32) uint32 *)
Definition reserve (w : window) (n : Z) : reserved :=
  if win w =? 0 then Parked
  else
    let n := if win w <? n then win w else n in
    Granted n (Win (u32 (win w - n))).

(** The counter is a uint32. *)
Definition wf (w : window) : Prop := 0 <= win w < 2 ^ 32.

End Window.

(** ** Algorithm negotiation *)

Module Kex.

(** The inner loop of [findCommonAlgorithm]: is [clientAlgo] equal to some
    entry of [serverAlgos]? *)
Fixpoint serverHas (clientAlgo : string) (serverAlgos : list string) : bool :=
  match serverAlgos with
  | [] => false
  | serverAlgo :: rest =>
      if String.eqb clientAlgo serverAlgo then true
      else serverHas clientAlgo rest
  end.

(** func findCommonAlgorithm(clientAlgos, serverAlgos []string)
      (commonAlgo string, ok bool) *)
Fixpoint findCommonAlgorithm (clientAlgos serverAlgos : list string)
  : string * bool :=
  match clientAlgos with
  | [] => (""%string, false)
  | clientAlgo :: rest =>
      if serverHas clientAlgo serverAlgos then (clientAlgo, true)
      else findCommonAlgorithm rest serverAlgos
  end.

(** The per-direction fields of the transport that negotiation assigns. *)
Record direction := Direction {
  cipherAlgo : string;
  macAlgo : string;
  compressionAlgo : string
}.

Record transport := Transport {
  reader : direction;
  writer : direction
}.

Definition set_cipherAlgo (d : direction) (a : string) : direction :=
  Direction a (macAlgo d) (compressionAlgo d).
Definition set_macAlgo (d : direction) (a : string) : direction :=
  Direction (cipherAlgo d) a (compressionAlgo d).
Definition set_compressionAlgo (d : direction) (a : string) : direction :=
  Direction (cipherAlgo d) (macAlgo d) a.
Definition set_writer (t : transport) (d : direction) : transport :=
  Transport (reader t) d.
Definition set_reader (t : transport) (d : direction) : transport :=
  Transport d (writer t).

(** The name lists of a KexInit message that negotiation reads. *)
Record kexInitMsg := KexInit {
  KexAlgos : list string;
  ServerHostKeyAlgos : list string;
  CiphersClientServer : list string;
  CiphersServerClient : list string;
  MACsClientServer : list string;
  MACsServerClient : list string;
  CompressionClientServer : list string;
  CompressionServerClient : list string;
  FirstKexFollows : bool
}.

Section Negotiation.

(** The cipher table of cipher.go, [cipherModes map[string]*cipherMode]:
    a lookup of a missing name yields nil. *)
Variable cipherMode : Type.
Variable cipherModes : gmap string cipherMode.

Definition hasCipherMode (name : string) : bool :=
  match cipherModes !! name with
  | Some _ => true
  | None => false
  end.

Fixpoint serverHasCipher (clientCipher : string)
  (serverCiphers : list string) : bool :=
  match serverCiphers with
  | [] => false
  | serverCipher :: rest =>
      if String.eqb clientCipher serverCipher && hasCipherMode clientCipher
      then true
      else serverHasCipher clientCipher rest
  end.

(** func findCommonCipher(clientCiphers, serverCiphers []string)
      (commonCipher string, ok bool) *)
Fixpoint findCommonCipher (clientCiphers serverCiphers : list string)
  : string * bool :=
  match clientCiphers with
  | [] => (""%string, false)
  | clientCipher :: rest =>
      if serverHasCipher clientCipher serverCiphers
      then (clientCipher, true)
      else findCommonCipher rest serverCiphers
  end.

(** The named results of [findAgreedAlgorithms]. *)
Record agreed := Agreed {
  kexAlgo : string;
  hostKeyAlgo : string;
  ok : bool
}.

(** func findAgreedAlgorithms(transport *transport,
      clientKexInit, serverKexInit *kexInitMsg)
      (kexAlgo, hostKeyAlgo string, ok bool)

    The transport is mutated in place, also by the assignment whose
    lookup fails; it is returned next to the named results. *)
Definition findAgreedAlgorithms (t : transport)
  (clientKexInit serverKexInit : kexInitMsg) : transport * agreed :=
  let '(kexAlgo, ok) :=
    findCommonAlgorithm (KexAlgos clientKexInit) (KexAlgos serverKexInit) in
  if negb ok then (t, Agreed kexAlgo "" ok) else
  let '(hostKeyAlgo, ok) :=
    findCommonAlgorithm (ServerHostKeyAlgos clientKexInit)
                        (ServerHostKeyAlgos serverKexInit) in
  if negb ok then (t, Agreed kexAlgo hostKeyAlgo ok) else
  let '(a, ok) :=
    findCommonCipher (CiphersClientServer clientKexInit)
                     (CiphersClientServer serverKexInit) in
  let t := set_writer t (set_cipherAlgo (writer t) a) in
  if negb ok then (t, Agreed kexAlgo hostKeyAlgo ok) else
  let '(a, ok) :=
    findCommonCipher (CiphersServerClient clientKexInit)
                     (CiphersServerClient serverKexInit) in
  let t := set_reader t (set_cipherAlgo (reader t) a) in
  if negb ok then (t, Agreed kexAlgo hostKeyAlgo ok) else
  let '(a, ok) :=
    findCommonAlgorithm (MACsClientServer clientKexInit)
                        (MACsClientServer serverKexInit) in
  let t := set_writer t (set_macAlgo (writer t) a) in
  if negb ok then (t, Agreed kexAlgo hostKeyAlgo ok) else
  let '(a, ok) :=
    findCommonAlgorithm (MACsServerClient clientKexInit)
                        (MACsServerClient serverKexInit) in
  let t := set_reader t (set_macAlgo (reader t) a) in
  if negb ok then (t, Agreed kexAlgo hostKeyAlgo ok) else
  let '(a, ok) :=
    findCommonAlgorithm (CompressionClientServer clientKexInit)
                        (CompressionClientServer serverKexInit) in
  let t := set_writer t (set_compressionAlgo (writer t) a) in
  if negb ok then (t, Agreed kexAlgo hostKeyAlgo ok) else
  let '(a, ok) :=
    findCommonAlgorithm (CompressionServerClient clientKexInit)
                        (CompressionServerClient serverKexInit) in
  let t := set_reader t (set_compressionAlgo (reader t) a) in
  if negb ok then (t, Agreed kexAlgo hostKeyAlgo ok) else
  (t, Agreed kexAlgo hostKeyAlgo true).

(** The step of [ClientConn.handshake] that follows the exchange of the
    KexInit messages (client.go, lines 118-121): either the handshake
    returns the error, or it goes on with the agreed algorithms. *)
Inductive negotiated :=
| HandshakeError (msg : string)
| GoOn (t : transport) (kexAlgo hostKeyAlgo : string).

Definition handshake_negotiate (t : transport)
  (clientKexInit serverKexInit : kexInitMsg) : negotiated :=
  let '(t, r) := findAgreedAlgorithms t clientKexInit serverKexInit in
  if negb (ok r) then HandshakeError "ssh: no common algorithms"
  else GoOn t (kexAlgo r) (hostKeyAlgo r).

End Negotiation.

Arguments hasCipherMode {cipherMode}.
Arguments serverHasCipher {cipherMode}.
Arguments findCommonCipher {cipherMode}.
Arguments findAgreedAlgorithms {cipherMode}.
Arguments handshake_negotiate {cipherMode}.

(** *** What the claims call "the first entry of the client's list that
    appears in the server's list" *)

Definition firstMatch (P : string -> Prop)
  (clientAlgos serverAlgos : list string) (a : string) : Prop :=
  exists pre post,
    clientAlgos = pre ++ a :: post /\
    In a serverAlgos /\ P a /\
    forall x, In x pre -> ~ (In x serverAlgos /\ P x).

Definition noMatch (P : string -> Prop)
  (clientAlgos serverAlgos : list string) : Prop :=
  forall x, In x clientAlgos -> ~ (In x serverAlgos /\ P x).

Definition anyAlgo (_ : string) : Prop := True.

Section Categories.

Variable cipherMode : Type.
Variable cipherModes : gmap string cipherMode.

(** A local cipher-mode table entry exists. *)
Definition inTable (name : string) : Prop := is_Some (cipherModes !! name).

(** Every category has its first match. *)
Definition allMatch (c s : kexInitMsg) (t : transport) (r : agreed) : Prop :=
  firstMatch anyAlgo (KexAlgos c) (KexAlgos s) (kexAlgo r) /\
  firstMatch anyAlgo (ServerHostKeyAlgos c) (ServerHostKeyAlgos s)
             (hostKeyAlgo r) /\
  firstMatch inTable (CiphersClientServer c) (CiphersClientServer s)
             (cipherAlgo (writer t)) /\
  firstMatch inTable (CiphersServerClient c) (CiphersServerClient s)
             (cipherAlgo (reader t)) /\
  firstMatch anyAlgo (MACsClientServer c) (MACsClientServer s)
             (macAlgo (writer t)) /\
  firstMatch anyAlgo (MACsServerClient c) (MACsServerClient s)
             (macAlgo (reader t)) /\
  firstMatch anyAlgo (CompressionClientServer c) (CompressionClientServer s)
             (compressionAlgo (writer t)) /\
  firstMatch anyAlgo (CompressionServerClient c) (CompressionServerClient s)
             (compressionAlgo (reader t)).

(** Some category has no match. *)
Definition someMiss (c s : kexInitMsg) : Prop :=
  noMatch anyAlgo (KexAlgos c) (KexAlgos s) \/
  noMatch anyAlgo (ServerHostKeyAlgos c) (ServerHostKeyAlgos s) \/
  noMatch inTable (CiphersClientServer c) (CiphersClientServer s) \/
  noMatch inTable (CiphersServerClient c) (CiphersServerClient s) \/
  noMatch anyAlgo (MACsClientServer c) (MACsClientServer s) \/
  noMatch anyAlgo (MACsServerClient c) (MACsServerClient s) \/
  noMatch anyAlgo (CompressionClientServer c) (CompressionClientServer s) \/
  noMatch anyAlgo (CompressionServerClient c) (CompressionServerClient s).

End Categories.

Arguments inTable {cipherMode}.
Arguments allMatch {cipherMode}.
Arguments someMiss {cipherMode}.

(** *** Diffie-Hellman ([dhGroup]) *)

Record dhGroup := DhGroup { g : Z; p : Z }.

(** math/big's [Exp(x, y, m)]: x**y mod |m|; a modulus of 0 means no
    reduction, and an exponent y <= 0 gives 1. *)
Definition bigExp (x y m : Z) : Z :=
  if y <=? 0 then 1
  else if m =? 0 then x ^ y
  else (x ^ y) mod (Z.abs m).

Inductive dhResult :=
| DhOk (k : Z)
| DhError (msg : string).

(** func (group *dhGroup) diffieHellman(theirPublic, myPrivate *big.Int)
      returning a big.Int and an error. *)
Definition diffieHellman (group : dhGroup) (theirPublic myPrivate : Z)
  : dhResult :=
  if (Z.sgn theirPublic <=? 0) || (p group <=? theirPublic)
  then DhError "ssh: DH parameter out of bounds"
  else DhOk (bigExp theirPublic myPrivate (p group)).

(** func initDHGroup1(): Oakley Group 2. *)
Definition dhGroup1 : dhGroup :=
  DhGroup 2
    0xFFFFFFFFFFFFFFFFC90FDAA22168C234C4C6628B80DC1CD129024E088A67CC74020BBEA63B139B22514A08798E3404DDEF9519B3CD3A431B302B0A6DF25F14374FE1356D6D51C245E485B576625E7EC6F44C42E9A637ED6B0BFF5CB6F406B7EDEE386BFB5A899FA5AE9F24117C4B1FE649286651ECE65381FFFFFFFFFFFFFFFF.

End Kex.

(** ** The wire codec (messages.go) *)

Module Wire.

Definition byte_of_Z (z : Z) : byte :=
  match Byte.of_N (Z.to_N (z mod 256)) with
  | Some b => b
  | None => x00
  end.

Definition Z_of_byte (b : byte) : Z := Z.of_N (Byte.to_N b).

(** A Go string is a sequence of bytes. *)
Definition bytes (s : string) : list byte := list_byte_of_string s.
Definition str (b : list byte) : string := string_of_list_byte b.

(** Big-endian integers: byte(n>>24), byte(n>>16), byte(n>>8), byte(n). *)
Definition be32 (n : Z) : list byte :=
  [byte_of_Z (Z.shiftr n 24); byte_of_Z (Z.shiftr n 16);
   byte_of_Z (Z.shiftr n 8); byte_of_Z n].

Definition be64 (n : Z) : list byte :=
  be32 (Z.shiftr n 32) ++ be32 n.

(** The value of a big-endian byte sequence. *)
Definition beZ (b : list byte) : Z :=
  fold_left (fun acc x => acc * 256 + Z_of_byte x) b 0.

(** A buffer that is being filled: [ret := make([]byte, length)] is
    [Slice [] zeros]; the slice [r] that a marshaller returns is the [room]
    left, and the bytes before it stay in [ret]. *)
Record slice := Slice {
  written : list byte;
  room : list byte
}.

Definition make (length : Z) : slice :=
  Slice [] (repeat x00 (Z.to_nat length)).

(** The whole buffer [ret]. *)
Definition whole (r : slice) : list byte := written r ++ room r.

(** Writing [b] at the front of the room left; [None] is the run-time panic
    of an index out of range. *)
Definition put (r : slice) (b : list byte) : option slice :=
  if (length b <=? length (room r))%nat
  then Some (Slice (written r ++ b) (skipn (length b) (room r)))
  else None.

(** Go's builtin [copy(r, b)]: copies min(len(r), len(b)) bytes. *)
Definition copy (r : slice) (b : list byte) : slice :=
  let n := Nat.min (length (room r)) (length b) in
  Slice (written r ++ firstn n b) (skipn n (room r)).

(** Modelled from the spec: messages.go is missing; "byte-string: 4-byte
    length N, then N bytes", "u8/u16/u32/u64: fixed-width", big-endian, and
    "typed marshallers that compute the exact encoded length and write into a
    pre-sized buffer". *)
Definition stringLength (n : Z) : Z := 4 + n.

Definition marshalUint32 (to : slice) (n : Z) : option slice :=
  put to (be32 n).

Definition marshalUint64 (to : slice) (n : Z) : option slice :=
  put to (be64 n).

Definition marshalString (to : slice) (s : list byte) : option slice :=
  put to (be32 (Z.of_nat (length s)) ++ s).

(** Modelled from the spec: messages.go is missing; "typed parsers that
    return the decoded value, the remaining input, and a success flag", and
    "any parser fails on truncation".  [None] is the failure, which in Go is
    the triple (nil, nil, false). *)
Definition parseUint32 (inp : list byte) : option (Z * list byte) :=
  if (length inp <? 4)%nat then None
  else Some (beZ (firstn 4 inp), skipn 4 inp).

Definition parseUint64 (inp : list byte) : option (Z * list byte) :=
  if (length inp <? 8)%nat then None
  else Some (beZ (firstn 8 inp), skipn 8 inp).

Definition parseString (inp : list byte) : option (list byte * list byte) :=
  match parseUint32 inp with
  | None => None
  | Some (n, rest) =>
      if (Z.of_nat (length rest) <? n) then None
      else Some (firstn (Z.to_nat n) rest, skipn (Z.to_nat n) rest)
  end.

(** Modelled from the spec: messages.go is missing; "mpint: 4-byte length N,
    then N bytes in two's-complement big-endian, minimally encoded with a
    leading 0x00 for positive numbers whose top bit is set". *)
Definition mpintBody (n : Z) : list byte :=
  if n =? 0 then []
  else
    let m := if n <? 0 then - n - 1 else n in
    let k := (Z.log2 m + 1) / 8 + 1 in
    map (fun i => byte_of_Z (Z.shiftr n (8 * (k - 1 - Z.of_nat i))))
        (seq 0 (Z.to_nat k)).

Definition parseInt (inp : list byte) : option (Z * list byte) :=
  match parseString inp with
  | None => None
  | Some (contents, rest) =>
      match contents with
      | b :: _ =>
          if 128 <=? Z_of_byte b
          then Some (beZ contents - 2 ^ (8 * Z.of_nat (length contents)), rest)
          else Some (beZ contents, rest)
      | [] => Some (0, rest)
      end
  end.

End Wire.

(** ** Public keys and OpenSSH v01 certificates (certs.go) *)

Module Certs.

Import Wire.

Definition len {A} (l : list A) : Z := Z.of_nat (length l).
Definition slen (s : string) : Z := Z.of_nat (String.length s).

(** Modelled from the spec: the key algorithm names of keys.go, which is
    missing, are those of the table of section 4.2. *)
Definition KeyAlgoRSA : string := "ssh-rsa".
Definition KeyAlgoDSA : string := "ssh-dss".
Definition KeyAlgoECDSA256 : string := "ecdsa-sha2-nistp256".
Definition KeyAlgoECDSA384 : string := "ecdsa-sha2-nistp384".
Definition KeyAlgoECDSA521 : string := "ecdsa-sha2-nistp521".

Definition CertAlgoRSAv01 : string := "ssh-rsa-cert-v01@openssh.com".
Definition CertAlgoDSAv01 : string := "ssh-dss-cert-v01@openssh.com".
Definition CertAlgoECDSA256v01 : string :=
  "ecdsa-sha2-nistp256-cert-v01@openssh.com".
Definition CertAlgoECDSA384v01 : string :=
  "ecdsa-sha2-nistp384-cert-v01@openssh.com".
Definition CertAlgoECDSA521v01 : string :=
  "ecdsa-sha2-nistp521-cert-v01@openssh.com".

Definition UserCert : Z := 1.
Definition HostCert : Z := 2.

Record signature := Sig {
  Format : string;
  Blob : list byte
}.

Record tuple := Tuple {
  Name : string;
  Data : string
}.

(** type OpenSSHCertV01 struct, over the type [PK] of its two keys.  A field
    of interface or pointer type is an [option]: [None] is Go's nil.  The two
    times are Unix seconds (int64). *)
Record certOf (PK : Type) := Cert {
  Nonce : list byte;
  Key : option PK;
  Serial : Z;
  CertType : Z;
  KeyId : string;
  ValidPrincipals : list string;
  ValidAfter : Z;
  ValidBefore : Z;
  CriticalOptions : list tuple;
  Extensions : list tuple;
  Reserved : list byte;
  SignatureKey : option PK;
  Signature : option signature
}.

Arguments Cert {PK}.
Arguments Nonce {PK}.
Arguments Key {PK}.
Arguments Serial {PK}.
Arguments CertType {PK}.
Arguments KeyId {PK}.
Arguments ValidPrincipals {PK}.
Arguments ValidAfter {PK}.
Arguments ValidBefore {PK}.
Arguments CriticalOptions {PK}.
Arguments Extensions {PK}.
Arguments Reserved {PK}.
Arguments SignatureKey {PK}.
Arguments Signature {PK}.

(** var certAlgoNames = map[string]string{...} *)
Definition certAlgoNames (algo : string) : option string :=
  match algo with
  | "ssh-rsa" => Some CertAlgoRSAv01
  | "ssh-dss" => Some CertAlgoDSAv01
  | "ecdsa-sha2-nistp256" => Some CertAlgoECDSA256v01
  | "ecdsa-sha2-nistp384" => Some CertAlgoECDSA384v01
  | "ecdsa-sha2-nistp521" => Some CertAlgoECDSA521v01
  | _ => None
  end%string.

(** func pubAlgoToPrivAlgo(pubAlgo string) string *)
Definition pubAlgoToPrivAlgo (pubAlgo : string) : string :=
  match pubAlgo with
  | "ssh-rsa-cert-v01@openssh.com" => KeyAlgoRSA
  | "ssh-dss-cert-v01@openssh.com" => KeyAlgoDSA
  | "ecdsa-sha2-nistp256-cert-v01@openssh.com" => KeyAlgoECDSA256
  | "ecdsa-sha2-nistp384-cert-v01@openssh.com" => KeyAlgoECDSA384
  | "ecdsa-sha2-nistp521-cert-v01@openssh.com" => KeyAlgoECDSA521
  | _ => pubAlgo
  end%string.

Definition isCertAlgo (algo : string) : bool :=
  match algo with
  | "ssh-rsa-cert-v01@openssh.com"
  | "ssh-dss-cert-v01@openssh.com"
  | "ecdsa-sha2-nistp256-cert-v01@openssh.com"
  | "ecdsa-sha2-nistp384-cert-v01@openssh.com"
  | "ecdsa-sha2-nistp521-cert-v01@openssh.com" => true
  | _ => false
  end%string.

(** *** Name lists, tuple lists and signatures (certs.go) *)

(** func lengthPrefixedNameListLength(namelist []string) int *)
Definition lengthPrefixedNameListLength (namelist : list string) : Z :=
  fold_left (fun length name => length + 4 + slen name) namelist 4.

Fixpoint marshalNames (to : slice) (namelist : list string) : option slice :=
  match namelist with
  | [] => Some to
  | name :: rest =>
      match marshalString to (bytes name) with
      | Some to => marshalNames to rest
      | None => None
      end
  end.

(** func marshalLengthPrefixedNameList(to []byte, namelist []string) []byte *)
Definition marshalLengthPrefixedNameList (to : slice) (namelist : list string)
  : option slice :=
  let length := u32 (lengthPrefixedNameListLength namelist - 4) in
  match marshalUint32 to length with
  | Some to => marshalNames to namelist
  | None => None
  end.

(** The loop of [parseLengthPrefixedNameList]; each turn consumes at least
    the four bytes of a length, so [fuel] = len(body) turns are enough. *)
Fixpoint parseNames (fuel : nat) (body : list byte) (out : list string)
  : option (list string) :=
  match body with
  | [] => Some out
  | _ :: _ =>
      match fuel with
      | O => None
      | S fuel =>
          match parseString body with
          | None => None
          | Some (next, body) => parseNames fuel body (out ++ [str next])
          end
      end
  end.

(** func parseLengthPrefixedNameList(in []byte)
      (out []string, rest []byte, ok bool); [None] is (nil, nil, false). *)
Definition parseLengthPrefixedNameList (inp : list byte)
  : option (list string * list byte) :=
  match parseString inp with
  | None => None
  | Some (body, rest) =>
      match parseNames (length body) body [] with
      | None => None
      | Some out => Some (out, rest)
      end
  end.

(** What the spec calls the payload of a name list: the names, each as a
    byte string with its own length prefix, one after the other. *)
Definition nameListPayload (namelist : list string) : list byte :=
  concat (map (fun name => be32 (slen name) ++ bytes name) namelist).

(** func tupleListLength(tupleList []tuple) int *)
Definition tupleListLength (tupleList : list tuple) : Z :=
  fold_left (fun length t => length + 4 + slen (Name t) + 4 + slen (Data t))
            tupleList 4.

Fixpoint marshalTuples (to : slice) (tuplelist : list tuple) : option slice :=
  match tuplelist with
  | [] => Some to
  | t :: rest =>
      match marshalString to (bytes (Name t)) with
      | Some to =>
          match marshalString to (bytes (Data t)) with
          | Some to => marshalTuples to rest
          | None => None
          end
      | None => None
      end
  end.

(** func marshalTupleList(to []byte, tuplelist []tuple) []byte *)
Definition marshalTupleList (to : slice) (tuplelist : list tuple)
  : option slice :=
  let length := u32 (tupleListLength tuplelist - 4) in
  match marshalUint32 to length with
  | Some to => marshalTuples to tuplelist
  | None => None
  end.

Fixpoint parseTuples (fuel : nat) (body : list byte) (out : list tuple)
  : option (list tuple) :=
  match body with
  | [] => Some out
  | _ :: _ =>
      match fuel with
      | O => None
      | S fuel =>
          match parseString body with
          | None => None
          | Some (name, body) =>
              match parseString body with
              | None => None
              | Some (data, body) =>
                  parseTuples fuel body (out ++ [Tuple (str name) (str data)])
              end
          end
      end
  end.

(** func parseTupleList(in []byte) (out []tuple, rest []byte, ok bool) *)
Definition parseTupleList (inp : list byte)
  : option (list tuple * list byte) :=
  match parseString inp with
  | None => None
  | Some (body, rest) =>
      match parseTuples (length body) body [] with
      | None => None
      | Some out => Some (out, rest)
      end
  end.

(** func signatureLength(sig *signature) int *)
Definition signatureLength (sig : signature) : Z :=
  4 + stringLength (slen (Format sig)) + stringLength (len (Blob sig)).

(** func marshalSignature(to []byte, sig *signature) []byte *)
Definition marshalSignature (to : slice) (sig : signature) : option slice :=
  let length := u32 (signatureLength sig - 4) in
  match marshalUint32 to length with
  | None => None
  | Some to =>
      match marshalString to (bytes (Format sig)) with
      | None => None
      | Some to => marshalString to (Blob sig)
      end
  end.

(** The three results of a Go parser, as the source names them. *)
Record triple (A : Type) := Triple {
  out : option A;
  rest : list byte;
  ok : bool
}.

Arguments Triple {A}.
Arguments out {A}.
Arguments rest {A}.
Arguments ok {A}.

(** func parseSignatureBody(in []byte) (out *signature, rest []byte, ok bool) *)
Definition parseSignatureBody (inp : list byte) : triple signature :=
  match parseString inp with
  | None => Triple None [] false
  | Some (format, inp) =>
      match parseString inp with
      | None => Triple (Some (Sig (str format) [])) [] false
      | Some (blob, inp) => Triple (Some (Sig (str format) blob)) inp true
      end
  end.

(** func parseSignature(in []byte) (out *signature, rest []byte, ok bool);
    the remainder after the signature is dropped, as the source notes. *)
Definition parseSignature (inp : list byte) : triple signature :=
  match parseString inp with
  | None => Triple None [] false
  | Some (sigBytes, _) => parseSignatureBody sigBytes
  end.

(** *** The PublicKey interface

    keys.go is missing: the plain key types (RSA, DSA, ECDSA) are a
    parameter, with their algorithm name (public and private name agree
    for them), their [Marshal] method and their blob parsers. *)
Class KeyFamily := {
  plainKey : Type;
  plainAlgo : plainKey -> string;
  plainMarshal : plainKey -> list byte;
  plainParse : string -> list byte -> option (plainKey * list byte)
}.

(** A parser that may also panic (a method call on nil), or, in this
    embedding, run out of recursion depth. *)
Inductive parsed (A : Type) :=
| Ret (r : triple A)
| Panic
| NoFuel.

Arguments Ret {A}.
Arguments Panic {A}.
Arguments NoFuel {A}.

(** The parser came to an end, a return or a panic, and the rest that it
    returned is not longer than [n]. *)
Definition returnsWithin {A} (n : nat) (res : parsed A) : Prop :=
  match res with
  | Ret t => (length (rest t) <= n)%nat
  | Panic => True
  | NoFuel => False
  end.

Section Keys.

Context {KF : KeyFamily}.

#[warnings="-register-all"]
Inductive PublicKey :=
| PlainKey (k : plainKey)
| CertKey (c : certOf PublicKey).

Definition OpenSSHCertV01 : Type := certOf PublicKey.

(** func (c *OpenSSHCertV01) PrivateKeyAlgo() string; [None] is the panic
    of a nil key. *)
Fixpoint PrivateKeyAlgo (key : PublicKey) : option string :=
  match key with
  | PlainKey k => Some (plainAlgo k)
  | CertKey c =>
      match Key c with
      | Some k => PrivateKeyAlgo k
      | None => None
      end
  end.

(** func (c *OpenSSHCertV01) PublicKeyAlgo() string; [None] is a panic
    (nil key, or "unknown cert key type"). *)
Fixpoint PublicKeyAlgo (key : PublicKey) : option string :=
  match key with
  | PlainKey k => Some (plainAlgo k)
  | CertKey c =>
      match Key c with
      | Some k =>
          match PublicKeyAlgo k with
          | Some algo => certAlgoNames algo
          | None => None
          end
      | None => None
      end
  end.

(** The body of [MarshalPublicKey] once the algorithm name and the blob are
    known. *)
Definition marshalNameAndBlob (algoname : string) (blob : list byte)
  : option (list byte) :=
  let length := stringLength (slen algoname) + len blob in
  let ret := make length in
  r ← marshalString ret (bytes algoname);
  Some (whole (copy r blob)).

(** func (cert *OpenSSHCertV01) Marshal() []byte, over the function that
    marshals its two keys; [None] is a panic. *)
Definition certMarshalWith (MarshalPublicKey : PublicKey -> option (list byte))
  (cert : OpenSSHCertV01) : option (list byte) :=
  pubKey ← Key cert ≫= MarshalPublicKey;
  sigKey ← SignatureKey cert ≫= MarshalPublicKey;
  sig ← Signature cert;
  let length :=
    stringLength (len (Nonce cert))
    + len pubKey
    + 8
    + 4
    + stringLength (slen (KeyId cert))
    + lengthPrefixedNameListLength (ValidPrincipals cert)
    + 8
    + 8
    + tupleListLength (CriticalOptions cert)
    + tupleListLength (Extensions cert)
    + stringLength (len (Reserved cert))
    + stringLength (len sigKey)
    + signatureLength sig in
  let ret := make length in
  r ← marshalString ret (Nonce cert);
  r ← put r pubKey;
  r ← marshalUint64 r (Serial cert);
  r ← marshalUint32 r (CertType cert);
  r ← marshalString r (bytes (KeyId cert));
  r ← marshalLengthPrefixedNameList r (ValidPrincipals cert);
  r ← marshalUint64 r (u64 (ValidAfter cert));
  r ← marshalUint64 r (u64 (ValidBefore cert));
  r ← marshalTupleList r (CriticalOptions cert);
  r ← marshalTupleList r (Extensions cert);
  r ← marshalString r (Reserved cert);
  r ← marshalString r sigKey;
  r ← marshalSignature r sig;
  if (0 <? List.length (room r))%nat then None
  else Some (whole r).

(** func MarshalPublicKey(key PublicKey) []byte:
      algoname := key.PrivateKeyAlgo(); blob := key.Marshal(); ... *)
Fixpoint MarshalPublicKey (key : PublicKey) : option (list byte) :=
  match key with
  | PlainKey k => marshalNameAndBlob (plainAlgo k) (plainMarshal k)
  | CertKey c =>
      algoname ← PrivateKeyAlgo (CertKey c);
      blob ← certMarshalWith MarshalPublicKey c;
      marshalNameAndBlob algoname blob
  end.

Definition certMarshal (cert : OpenSSHCertV01) : option (list byte) :=
  certMarshalWith MarshalPublicKey cert.

Definition int64 (z : Z) : Z := (z + 2 ^ 63) mod 2 ^ 64 - 2 ^ 63.

Definition failed {A} : parsed A := Ret (Triple None [] false).

(** func parseOpenSSHCertV01(in []byte, algo string)
      (out *OpenSSHCertV01, rest []byte, ok bool),
    over the parser [ParsePublicKey] that it calls for the two keys. *)
Definition parseOpenSSHCertV01With
  (ParsePublicKey : list byte -> parsed PublicKey)
  (inp : list byte) (algo : string) : parsed OpenSSHCertV01 :=
  match parseString inp with
  | None => failed
  | Some (nonce, inp) =>
  match ParsePublicKey inp with
  | Panic => Panic
  | NoFuel => NoFuel
  | Ret (Triple key inp ok) =>
  if negb ok then failed else
  match key ≫= PrivateKeyAlgo with
  | None => Panic
  | Some privAlgo =>
  if negb (String.eqb privAlgo algo) then failed else
  match parseUint64 inp with
  | None => failed
  | Some (serial, inp) =>
  match parseUint32 inp with
  | None => failed
  | Some (type, inp) =>
  if negb (type =? UserCert) && negb (type =? HostCert)
  then Ret (Triple None [] true) else
  match parseString inp with
  | None => failed
  | Some (keyId, inp) =>
  match parseLengthPrefixedNameList inp with
  | None => failed
  | Some (principals, inp) =>
  match parseUint64 inp with
  | None => failed
  | Some (va, inp) =>
  match parseUint64 inp with
  | None => failed
  | Some (vb, inp) =>
  match parseTupleList inp with
  | None => failed
  | Some (criticalOptions, inp) =>
  match parseTupleList inp with
  | None => failed
  | Some (extensions, inp) =>
  match parseString inp with
  | None => failed
  | Some (reserved, inp) =>
  match parseString inp with
  | None => failed
  | Some (sigKey, inp) =>
  match ParsePublicKey sigKey with
  | Panic => Panic
  | NoFuel => NoFuel
  | Ret (Triple signatureKey _ ok) =>
  if negb ok then failed else
  let '(Triple sig inp ok) := parseSignature inp in
  if negb ok then failed else
  Ret (Triple
         (Some (Cert nonce key serial type (str keyId) principals
                     (int64 va) (int64 vb) criticalOptions extensions
                     reserved signatureKey sig))
         inp true)
  end end end end end end end end end end end end end end.

(** Modelled from the spec: ParsePublicKey (keys.go) is missing.  "Serialization
    of a public key for the wire is: (length-prefixed algorithm name,
    key-specific blob)"; a certificate algorithm name selects the certificate
    parser, with the private algorithm of the table of section 4.2 as its algo
    context; every other name selects the plain key parser.  The results of
    the certificate parser are returned as they are. *)
Fixpoint ParsePublicKeyFuel (fuel : nat) (inp : list byte)
  : parsed PublicKey :=
  match fuel with
  | O => NoFuel
  | S fuel =>
      match parseString inp with
      | None => failed
      | Some (algo, inp) =>
          let algo := str algo in
          if isCertAlgo algo then
            match parseOpenSSHCertV01With (ParsePublicKeyFuel fuel) inp
                    (pubAlgoToPrivAlgo algo) with
            | Ret (Triple out rest ok) => Ret (Triple (CertKey <$> out) rest ok)
            | Panic => Panic
            | NoFuel => NoFuel
            end
          else
            match plainParse algo inp with
            | Some (k, rest) => Ret (Triple (Some (PlainKey k)) rest true)
            | None => failed
            end
      end
  end.

(** Every nested call is on a strictly shorter input, so the length of the
    input bounds the depth. *)
Definition ParsePublicKey (inp : list byte) : parsed PublicKey :=
  ParsePublicKeyFuel (S (length inp)) inp.

Definition parseOpenSSHCertV01 (inp : list byte) (algo : string)
  : parsed OpenSSHCertV01 :=
  parseOpenSSHCertV01With ParsePublicKey inp algo.

End Keys.

(** *** RSA and DSA keys

    Modelled from the spec: keys.go is missing.  "RSA (e, n), DSA (p, q, g,
    y)"; the key blob is the sequence of the key's numbers as mpints. *)
Inductive rsaDsaKey :=
| RSA (e n : Z)
| DSA (p q g y : Z).

Definition mpint (n : Z) : list byte :=
  be32 (len (mpintBody n)) ++ mpintBody n.

Definition rsaDsaAlgo (k : rsaDsaKey) : string :=
  match k with
  | RSA _ _ => KeyAlgoRSA
  | DSA _ _ _ _ => KeyAlgoDSA
  end.

Definition rsaDsaMarshal (k : rsaDsaKey) : list byte :=
  match k with
  | RSA e n => mpint e ++ mpint n
  | DSA p q g y => mpint p ++ mpint q ++ mpint g ++ mpint y
  end.

Definition parseRSA (inp : list byte) : option (rsaDsaKey * list byte) :=
  '(e, inp) ← parseInt inp;
  '(n, inp) ← parseInt inp;
  Some (RSA e n, inp).

Definition parseDSA (inp : list byte) : option (rsaDsaKey * list byte) :=
  '(p, inp) ← parseInt inp;
  '(q, inp) ← parseInt inp;
  '(g, inp) ← parseInt inp;
  '(y, inp) ← parseInt inp;
  Some (DSA p q g y, inp).

Definition rsaDsaParse (algo : string) (inp : list byte)
  : option (rsaDsaKey * list byte) :=
  if String.eqb algo KeyAlgoRSA then parseRSA inp
  else if String.eqb algo KeyAlgoDSA then parseDSA inp
  else None.

#[export] Instance rsaDsaKeys : KeyFamily := {
  plainKey := rsaDsaKey;
  plainAlgo := rsaDsaAlgo;
  plainMarshal := rsaDsaMarshal;
  plainParse := rsaDsaParse
}.

(** *** A certificate to run the code on: an RSA key, certified by an RSA
    authority, with the given value in its type field. *)
Definition userKey : PublicKey := PlainKey (RSA 65537 3233).
Definition authorityKey : PublicKey := PlainKey (RSA 65537 2773).

Definition exampleCert (type : Z) : OpenSSHCertV01 :=
  Cert [x01; x02] (Some userKey) 7 type "id" ["a"; "bc"]%string 0 10
       [] [Tuple "x" "y"] [] (Some authorityKey)
       (Some (Sig "ssh-rsa" [x05])).

(** The wire form of [exampleCert 3] as [Marshal] writes it: nonce, key,
    serial, type and the fields after it. *)
Definition badTypeBlob : list byte :=
  [x00; x00; x00; x02; x01; x02] ++
  be32 7 ++ bytes "ssh-rsa" ++ [x00; x00; x00; x03; x01; x00; x01] ++
  [x00; x00; x00; x02; x0c; xa1] ++
  be64 7 ++ be32 3 ++
  be32 2 ++ bytes "id" ++
  be32 11 ++ be32 1 ++ bytes "a" ++ be32 2 ++ bytes "bc" ++
  be64 0 ++ be64 10 ++
  be32 0 ++
  be32 10 ++ be32 1 ++ bytes "x" ++ be32 1 ++ bytes "y" ++
  be32 0 ++
  be32 24 ++ be32 7 ++ bytes "ssh-rsa"
    ++ [x00; x00; x00; x03; x01; x00; x01]
    ++ [x00; x00; x00; x02; x0a; xd5] ++
  be32 16 ++ be32 7 ++ bytes "ssh-rsa" ++ be32 1 ++ [x05].

End Certs.

(** ** The client connection (client.go) *)

Module Client.

Import Wire.
Import Window.

Definition len {A} (l : list A) : Z := Z.of_nat (length l).

(** net.TCPAddr; a net.IP is a byte slice. *)
Record TCPAddr := Addr {
  IP : list byte;
  Port : Z
}.

(** Modelled from the spec: channel.go is missing.  "Channel: local id (u32),
    remote id (u32, assigned by peer after open), send window, max packet
    size, inbound byte buffers (stdout and stderr)". *)
Record clientChan := ClientChan {
  localId : Z;
  remoteId : Z;
  remoteWin : window;
  maxPacket : Z;
  stdout : list byte;
  stderr : list byte
}.

(** Modelled from the spec: newClientChan (channel.go) is missing; a fresh
    channel has the given local id, an empty send window and empty buffers. *)
Definition newClientChan (localId : Z) : clientChan :=
  ClientChan localId 0 (Win 0) 0 [] [].

(** type chanList struct: [chans []*clientChan], indexed by local id; a nil
    entry is a free slot. *)
Definition chanList : Type := list (option clientChan).

(** The loop of [newChan]: the index of the first nil entry. *)
Fixpoint firstNil (chans : chanList) (i : nat) : option nat :=
  match chans with
  | [] => None
  | None :: _ => Some i
  | Some _ :: rest => firstNil rest (S i)
  end.

(** func (c *chanList) newChan(t *transport) *clientChan; the channel is
    returned as its index in the table. *)
Definition newChan (chans : chanList) : chanList * nat :=
  match firstNil chans 0 with
  | Some i =>
      let ch := newClientChan (u32 (Z.of_nat i)) in
      (<[i := Some ch]> chans, i)
  | None =>
      let i := length chans in
      let ch := newClientChan (u32 (Z.of_nat i)) in
      (chans ++ [Some ch], i)
  end.

(** func (c *chanList) getChan(id uint32), returning the channel pointer
    and ok. *)
Definition getChan (chans : chanList) (id : Z) : option clientChan * bool :=
  if u32 (len chans) <=? id then (None, false)
  else (mjoin (chans !! Z.to_nat id), true).

(** func (c *chanList) remove(id uint32); [None] is the panic of an index
    out of range. *)
Definition remove (chans : chanList) (id : Z) : option chanList :=
  if id <? len chans then Some (<[Z.to_nat id := None]> chans)
  else None.

(** Modelled from the spec: messages.go is missing; the two replies to a
    channel-open message and the reasons of a failure. *)
Inductive RejectionReason :=
| Prohibited
| ConnectionFailed
| UnknownChannelType
| ResourceShortage.

Inductive packet :=
| channelOpenFailureMsg (PeersId : Z) (Reason : RejectionReason)
    (Message Language : string)
| channelOpenConfirmMsg (PeersId MyId MyWindow MaxPacketSize : Z).

Record channelOpenMsg := ChannelOpen {
  ChanType : string;
  PeersId : Z;
  PeersWindow : Z;
  MaxPacketSize : Z;
  TypeSpecificData : list byte
}.

(** type forward struct: the accepted channel (by its local index) and the
    address of the originator. *)
Record forward := Forward {
  fchan : nat;
  raddr : TCPAddr
}.

(** Modelled from the spec: tcpip.go is missing.  "ForwardList: map from
    (IP, port) to a bounded delivery queue for accepted forwarded-TCP
    channels". *)
Record forwardEntry := Entry {
  laddr : TCPAddr;
  queue : list forward
}.

Definition forwardList : Type := list forwardEntry.

(** bytes.Equal *)
Fixpoint bytesEqual (a b : list byte) : bool :=
  match a, b with
  | [], [] => true
  | x :: a, y :: b => Byte.eqb x y && bytesEqual a b
  | _, _ => false
  end.

Definition sameAddr (a b : TCPAddr) : bool :=
  (Port a =? Port b) && bytesEqual (IP a) (IP b).

Fixpoint lookup (l : forwardList) (addr : TCPAddr) (i : nat) : option nat :=
  match l with
  | [] => None
  | f :: rest => if sameAddr addr (laddr f) then Some i else lookup rest addr (S i)
  end.

(** [l <- forward{ch, raddr}] on the queue of entry [i]. *)
Definition enqueue (l : forwardList) (i : nat) (f : forward) : forwardList :=
  match l !! i with
  | Some e => <[i := Entry (laddr e) (queue e ++ [f])]> l
  | None => l
  end.

(** The parts of a ClientConn that an inbound channel-open touches; [sent]
    are the packets handed to [writePacket], oldest first. *)
Record ClientConn := Conn {
  chans : chanList;
  forwards : forwardList;
  sent : list packet
}.

Definition writePacket (c : ClientConn) (m : packet) : ClientConn :=
  Conn (chans c) (forwards c) (sent c ++ [m]).

(** func (c *ClientConn) sendConnectionFailed(remoteId uint32) error *)
Definition sendConnectionFailed (c : ClientConn) (remoteId : Z) : ClientConn :=
  writePacket c
    (channelOpenFailureMsg remoteId ConnectionFailed "invalid request"
                           "en_US.UTF-8").

Section Inbound.

(** const minPacketLength (channel.go, missing) and net.ParseIP. *)
Variable minPacketLength : Z.
Variable ParseIP : string -> option (list byte).

(** func parseTCPAddr(b []byte), returning the address, the rest and ok;
    [None] is not ok. *)
Definition parseTCPAddr (b : list byte) : option (TCPAddr * list byte) :=
  match parseString b with
  | None => None
  | Some (addr, b) =>
      match parseUint32 b with
      | None => None
      | Some (port, b) =>
          match ParseIP (str addr) with
          | None => None
          | Some ip => Some (Addr ip port, b)
          end
      end
  end.

(** The assignments to the fields of the fresh channel [ch]. *)
Definition openedChan (ch : clientChan) (msg : channelOpenMsg) : clientChan :=
  ClientChan (localId ch) (PeersId msg)
             (snd (add (remoteWin ch) (PeersWindow msg)))
             (MaxPacketSize msg) (stdout ch) (stderr ch).

(** func (c *ClientConn) handleChanOpen(msg *channelOpenMsg) *)
Definition handleChanOpen (c : ClientConn) (msg : channelOpenMsg)
  : ClientConn :=
  let c :=
    if (MaxPacketSize msg <? minPacketLength)
       || (2 ^ 31 <? MaxPacketSize msg)
    then sendConnectionFailed c (PeersId msg)
    else c in
  if String.eqb (ChanType msg) "forwarded-tcpip" then
    match parseTCPAddr (TypeSpecificData msg) with
    | None => sendConnectionFailed c (PeersId msg)
    | Some (la, rest) =>
        match lookup (forwards c) la 0 with
        | None => sendConnectionFailed c (PeersId msg)
        | Some l =>
            match parseTCPAddr rest with
            | None => sendConnectionFailed c (PeersId msg)
            | Some (ra, rest) =>
                let '(chs, i) := newChan (chans c) in
                let chs := alter (fmap (fun ch => openedChan ch msg)) i chs in
                let c := Conn chs (forwards c) (sent c) in
                let c :=
                  writePacket c
                    (channelOpenConfirmMsg (PeersId msg) (u32 (Z.of_nat i))
                                           (2 ^ 14) (2 ^ 15)) in
                Conn (chans c) (enqueue (forwards c) l (Forward i ra)) (sent c)
            end
        end
    end
  else
    writePacket c
      (channelOpenFailureMsg (PeersId msg) UnknownChannelType
         ("unknown channel type: " ++ ChanType msg) "en_US.UTF-8").

End Inbound.

(** One turn of the loop of [mainLoop] on a channel-data packet (message
    type 94): the loop goes on, or the function returns, or the goroutine
    panics on a nil channel. *)
Inductive turn :=
| GoesOn (chans : chanList)
| Returns
| NilDereference.

Definition msgChannelData : byte := x5e.

Definition channelDataTurn (chans : chanList) (pkt : list byte) : turn :=
  if len pkt <? 9 then Returns
  else
    let remoteId := beZ (firstn 4 (skipn 1 pkt)) in
    let length := beZ (firstn 4 (skipn 5 pkt)) in
    let pkt := skipn 9 pkt in
    if negb (length =? u32 (len pkt)) then Returns
    else
      match getChan chans remoteId with
      | (_, false) => Returns
      | (None, true) => NilDereference
      | (Some ch, true) =>
          GoesOn (<[Z.to_nat remoteId :=
                     Some (ClientChan (localId ch) (Client.remoteId ch)
                                      (remoteWin ch) (maxPacket ch)
                                      (stdout ch ++ pkt) (stderr ch))]> chans)
      end.

(** *** An inbound open to run the code on: a forwarded-tcpip open for the
    listening address 10.0.0.1:8080, from 10.0.0.2:4242, with a maximum
    packet size of 0.  [tableParseIP] stands for net.ParseIP on these two
    addresses (the 16-byte form of an IPv4 address). *)
Definition ipv4 (a b c d : byte) : list byte :=
  [x00; x00; x00; x00; x00; x00; x00; x00; x00; x00; xff; xff; a; b; c; d].

Definition tableParseIP (s : string) : option (list byte) :=
  match s with
  | "10.0.0.1" => Some (ipv4 x0a x00 x00 x01)
  | "10.0.0.2" => Some (ipv4 x0a x00 x00 x02)
  | _ => None
  end%string.

Definition listening : ClientConn :=
  Conn [] [Entry (Addr (ipv4 x0a x00 x00 x01) 8080) []] [].

Definition smallPacketOpen : channelOpenMsg :=
  ChannelOpen "forwarded-tcpip" 7 1000 0
    (be32 8 ++ bytes "10.0.0.1" ++ be32 8080
     ++ be32 8 ++ bytes "10.0.0.2" ++ be32 4242).

End Client.

(** ** Signatures, signed data and strings (src/unnamed/part_000) *)

Module Common.

Import Wire.
Import Certs.

(** func serializeSignature(name string, sig []byte) []byte; [None] is a
    panic. *)
Definition serializeSignature (name : string) (sig : list byte)
  : option (list byte) :=
  let length := stringLength (slen name) + stringLength (len sig) in
  let ret := make length in
  r ← marshalString ret (bytes name);
  r ← marshalString r sig;
  Some (whole r).

(** The fields of a userAuthRequestMsg (messages.go, missing) that
    [buildDataSignedForAuth] reads. *)
Record userAuthRequestMsg := UserAuthRequest {
  User : string;
  Service : string;
  Method : string
}.

(** Modelled from the spec: the message number of messages.go, which is
    missing; "message byte 50 (userauth-request)". *)
Definition msgUserAuthRequest : byte := x32.

(** func buildDataSignedForAuth(sessionId []byte, req userAuthRequestMsg,
      algo, pubKey []byte) []byte *)
Definition buildDataSignedForAuth (sessionId : list byte)
  (req : userAuthRequestMsg) (algo pubKey : list byte)
  : option (list byte) :=
  let user := bytes (User req) in
  let service := bytes (Service req) in
  let method := bytes (Method req) in
  let length :=
    stringLength (len sessionId)
    + 1
    + stringLength (len user)
    + stringLength (len service)
    + stringLength (len method)
    + 1
    + stringLength (len algo)
    + stringLength (len pubKey) in
  let ret := make length in
  r ← marshalString ret sessionId;
  r ← put r [msgUserAuthRequest];
  r ← marshalString r user;
  r ← marshalString r service;
  r ← marshalString r method;
  r ← put r [x01];
  r ← marshalString r algo;
  r ← marshalString r pubKey;
  Some (whole r).

(** The test of the loop of [safeString] on one byte. *)
Definition safeByte (c : byte) : byte :=
  if (Z_of_byte c <? 32) && negb (Z_of_byte c =? 13)
     && negb (Z_of_byte c =? 10) && negb (Z_of_byte c =? 9)
  then x20
  else c.

(** func safeString(s string) string *)
Definition safeString (s : string) : string :=
  str (map safeByte (bytes s)).

(** A byte that may stay in a safe string: no control character, or a tab,
    a line feed or a carriage return. *)
Definition harmless (c : byte) : Prop :=
  32 <= Z_of_byte c \/ Z_of_byte c = 9 \/ Z_of_byte c = 10
  \/ Z_of_byte c = 13.

(** func appendU16(buf []byte, n uint16) []byte *)
Definition appendU16 (buf : list byte) (n : Z) : list byte :=
  buf ++ [byte_of_Z (Z.shiftr n 8); byte_of_Z n].

(** func appendU32(buf []byte, n uint32) []byte *)
Definition appendU32 (buf : list byte) (n : Z) : list byte :=
  buf ++ [byte_of_Z (Z.shiftr n 24); byte_of_Z (Z.shiftr n 16);
          byte_of_Z (Z.shiftr n 8); byte_of_Z n].

(** func appendInt(buf []byte, n int) []byte *)
Definition appendInt (buf : list byte) (n : Z) : list byte :=
  appendU32 buf (u32 n).

(** func appendString(buf []byte, s string) []byte *)
Definition appendString (buf : list byte) (s : string) : list byte :=
  let buf := appendU32 buf (u32 (slen s)) in
  buf ++ bytes s.

(** func appendBool(buf []byte, b bool) []byte *)
Definition appendBool (buf : list byte) (b : bool) : list byte :=
  if b then buf ++ [x01] else buf ++ [x00].

End Common.

(** ** The steps of the handshake after the KexInit messages (client.go) *)

Module Handshake.

Import Kex.
Import Wire.
Import Certs.

Definition kexAlgoDH1SHA1 : string := "diffie-hellman-group1-sha1".
Definition kexAlgoDH14SHA1 : string := "diffie-hellman-group14-sha1".
Definition kexAlgoECDH256 : string := "ecdh-sha2-nistp256".
Definition kexAlgoECDH384 : string := "ecdh-sha2-nistp384".
Definition kexAlgoECDH521 : string := "ecdh-sha2-nistp521".

(** var supportedKexAlgos *)
Definition supportedKexAlgos : list string :=
  [kexAlgoECDH256; kexAlgoECDH384; kexAlgoECDH521;
   kexAlgoDH14SHA1; kexAlgoDH1SHA1].

(** func initDHGroup14(): Oakley Group 14. *)
Definition dhGroup14 : dhGroup :=
  DhGroup 2
    0xFFFFFFFFFFFFFFFFC90FDAA22168C234C4C6628B80DC1CD129024E088A67CC74020BBEA63B139B22514A08798E3404DDEF9519B3CD3A431B302B0A6DF25F14374FE1356D6D51C245E485B576625E7EC6F44C42E9A637ED6B0BFF5CB6F406B7EDEE386BFB5A899FA5AE9F24117C4B1FE649286651ECE45B3DC2007CB8A163BF0598DA48361C55D39A69163FA8FD24CF5F83655D23DCA3AD961C62F356208552BB9ED529077096966D670C354E4ABC9804F1746C08CA18217C32905E462E36CE3BE39E772C180E86039B2783A2EC07A28FB5C55DF06F4C52C9DE2BCBF6955817183995497CEA956AE515D2261898FA051015728E5A8AACAA68FFFFFFFFFFFFFFFF.

(** The test of [handshake] on the guessed packet,
    [serverKexInit.FirstKexFollows && kexAlgo != serverKexInit.KexAlgos[0]];
    [None] is the panic of an index out of range. *)
Definition guessIsWrong (serverKexInit : kexInitMsg) (kexAlgo : string)
  : option bool :=
  if FirstKexFollows serverKexInit then
    match KexAlgos serverKexInit with
    | [] => None
    | first :: _ => Some (negb (String.eqb kexAlgo first))
    end
  else Some false.

(** The switch of [handshake] on the agreed key exchange: an elliptic
    curve (by its size), a Diffie-Hellman group, or the error of the default
    case. *)
Inductive kexChoice :=
| ECDH (bits : Z)
| DH (group : dhGroup)
| UnexpectedKex (msg : string).

Definition chooseKex (kexAlgo : string) : kexChoice :=
  if String.eqb kexAlgo kexAlgoECDH256 then ECDH 256
  else if String.eqb kexAlgo kexAlgoECDH384 then ECDH 384
  else if String.eqb kexAlgo kexAlgoECDH521 then ECDH 521
  else if String.eqb kexAlgo kexAlgoDH14SHA1 then DH dhGroup14
  else if String.eqb kexAlgo kexAlgoDH1SHA1 then DH dhGroup1
  else UnexpectedKex ("ssh: unexpected key exchange algorithm " ++ kexAlgo).

(** The public value of [kexDH]: X := new(big.Int).Exp(group.g, x, group.p). *)
Definition dhPublic (group : dhGroup) (x : Z) : Z :=
  bigExp (g group) x (p group).

Section HostKey.

Context {KF : KeyFamily}.

(** The [Verify] method of the plain keys (keys.go, missing). *)
Variable plainVerify : plainKey -> list byte -> list byte -> bool.

(** func (c *OpenSSHCertV01) Verify(data []byte, sig []byte) bool, which
    hands over to the key of the certificate; [None] is the panic of a nil
    key. *)
Fixpoint Verify (key : PublicKey) (data sig : list byte) : option bool :=
  match key with
  | PlainKey k => Some (plainVerify k data sig)
  | CertKey c =>
      match Key c with
      | Some k => Verify k data sig
      | None => None
      end
  end.

(** The errors of [verifyHostKeySignature]; the third carries the format of
    the signature that the message quotes. *)
Inductive hostKeyError :=
| CouldNotParseHostkey
| SignatureParseError
| UnexpectedSignatureType (format : string)
| HostKeySignatureError.

Inductive hostKeyVerdict :=
| Accepted
| Rejected (err : hostKeyError)
| Panics.

(** func verifyHostKeySignature(hostKeyAlgo string, hostKeyBytes []byte,
      data []byte, signature []byte) error *)
Definition verifyHostKeySignature (hostKeyAlgo : string)
  (hostKeyBytes data signature : list byte) : hostKeyVerdict :=
  match ParsePublicKey hostKeyBytes with
  | NoFuel => Panics
  | Panic => Panics
  | Ret (Triple hostKey rest ok) =>
      if (0 <? len rest) || negb ok then Rejected CouldNotParseHostkey
      else
        let '(Triple sig rest ok) := parseSignatureBody signature in
        if (0 <? len rest) || negb ok then Rejected SignatureParseError
        else
          match sig with
          | None => Panics
          | Some sig =>
              if negb (String.eqb (Format sig) hostKeyAlgo)
              then Rejected (UnexpectedSignatureType (Format sig))
              else
                match hostKey ≫= fun key => Verify key data (Blob sig) with
                | None => Panics
                | Some false => Rejected HostKeySignatureError
                | Some true => Accepted
                end
          end
  end.

End HostKey.

End Handshake.

(** ** The other turns of the demultiplexer loop (client.go, [mainLoop]) *)

Module Loop.

Import Wire.
Import Window.
Import Client.

Definition msgChannelExtendedData : byte := x5f.

(** The case msgChannelExtendedData of the loop. *)
Definition channelExtendedDataTurn (chans : chanList) (pkt : list byte)
  : turn :=
  if len pkt <? 13 then Returns
  else
    let remoteId := beZ (firstn 4 (skipn 1 pkt)) in
    let datatype := beZ (firstn 4 (skipn 5 pkt)) in
    let length := beZ (firstn 4 (skipn 9 pkt)) in
    let pkt := skipn 13 pkt in
    if negb (length =? u32 (len pkt)) then Returns
    else if datatype =? 1 then
      match getChan chans remoteId with
      | (_, false) => Returns
      | (None, true) => NilDereference
      | (Some ch, true) =>
          GoesOn (<[Z.to_nat remoteId :=
                     Some (ClientChan (localId ch) (Client.remoteId ch)
                                      (remoteWin ch) (maxPacket ch)
                                      (stdout ch) (stderr ch ++ pkt))]> chans)
      end
    else GoesOn chans.

(** The fields of a decoded windowAdjustMsg (messages.go, missing). *)
Record windowAdjustMsg := WindowAdjust {
  AdjustPeersId : Z;
  AdditionalBytes : Z
}.

(** The case *windowAdjustMsg of the loop. *)
Definition windowAdjustTurn (chans : chanList) (msg : windowAdjustMsg)
  : turn :=
  match getChan chans (AdjustPeersId msg) with
  | (_, false) => Returns
  | (None, true) => NilDereference
  | (Some ch, true) =>
      let '(ok, w) := add (remoteWin ch) (AdditionalBytes msg) in
      if negb ok then Returns
      else
        GoesOn (<[Z.to_nat (AdjustPeersId msg) :=
                   Some (ClientChan (localId ch) (Client.remoteId ch)
                                    w (maxPacket ch)
                                    (stdout ch) (stderr ch))]> chans)
  end.

(** Every channel of the table sits at the index that is its local id. *)
Definition indexed (chans : chanList) : Prop :=
  forall (i : nat) (ch : clientChan),
    chans !! i = Some (Some ch) -> localId ch = u32 (Z.of_nat i).

(** The size of an inbound open that [handleChanOpen] lets pass. *)
Definition sizeAllowed (minPacketLength : Z) (msg : channelOpenMsg) : Prop :=
  minPacketLength <= MaxPacketSize msg <= 2 ^ 31.

(** The inbound open [smallPacketOpen] with another channel type and another
    maximum packet size. *)
Definition openOf (chanType : string) (size : Z) : channelOpenMsg :=
  ChannelOpen chanType (PeersId smallPacketOpen)
              (PeersWindow smallPacketOpen) size
              (TypeSpecificData smallPacketOpen).

(** The packets that the two data cases of the loop take apart: the message
    type, the id of the channel, for extended data the data type, then the
    data as a byte string with its length. *)
Definition channelDataPacket (remoteId : Z) (data : list byte) : list byte :=
  msgChannelData :: be32 remoteId ++ be32 (len data) ++ data.

Definition channelExtendedDataPacket (remoteId datatype : Z)
  (data : list byte) : list byte :=
  msgChannelExtendedData
    :: be32 remoteId ++ be32 datatype ++ be32 (len data) ++ data.

(** What a turn of the loop leaves of a channel: its two ids and its maximum
    packet size. *)
Definition sameIds (ch ch' : clientChan) : Prop :=
  localId ch' = localId ch /\ Client.remoteId ch' = Client.remoteId ch
  /\ maxPacket ch' = maxPacket ch.

(** The table [chans'] has the channels of [chans], slot by slot, up to
    their buffers and windows. *)
Definition sameChannels (chans chans' : chanList) : Prop :=
  length chans' = length chans /\
  forall j : nat,
    match chans !! j, chans' !! j with
    | Some (Some ch), Some (Some ch') => sameIds ch ch'
    | Some None, Some None => True
    | None, None => True
    | _, _ => False
    end.

End Loop.

(** ** The wire forms that the marshallers of certs.go are compared with *)

Module Encoding.

Import Wire.
Import Certs.

(** A byte string: its length as a uint32, then its bytes. *)
Definition stringBytes (s : list byte) : list byte := be32 (len s) ++ s.

Definition tupleListPayload (tuplelist : list tuple) : list byte :=
  concat (map (fun t => stringBytes (bytes (Name t))
                        ++ stringBytes (bytes (Data t))) tuplelist).

(** A list with its payload: the length of the payload as a uint32, then
    the payload. *)
Definition prefixed (payload : list byte) : list byte :=
  be32 (u32 (len payload)) ++ payload.

Definition signatureBytes (sig : signature) : list byte :=
  prefixed (stringBytes (bytes (Format sig)) ++ stringBytes (Blob sig)).

(** The fields of a certificate in the order of [Marshal], with the wire
    forms [pubKey] and [sigKey] of its two keys. *)
Definition certBytes {PK} (c : certOf PK) (pubKey sigKey : list byte)
  (sig : signature) : list byte :=
  stringBytes (Nonce c) ++ pubKey
  ++ be64 (Serial c) ++ be32 (CertType c)
  ++ stringBytes (bytes (KeyId c))
  ++ prefixed (nameListPayload (ValidPrincipals c))
  ++ be64 (u64 (ValidAfter c)) ++ be64 (u64 (ValidBefore c))
  ++ prefixed (tupleListPayload (CriticalOptions c))
  ++ prefixed (tupleListPayload (Extensions c))
  ++ stringBytes (Reserved c)
  ++ stringBytes sigKey
  ++ signatureBytes sig.

(** The marshaller [m] writes the bytes [b], whatever is before and after
    them in the buffer. *)
Definition writes (m : slice -> option slice) (b : list byte) : Prop :=
  forall w r,
    m (Slice w (repeat x00 (length b) ++ r)) = Some (Slice (w ++ b) r).

(** The values that the wire form can hold: lengths below 2^32, a uint64
    serial, int64 times, a type that the parser lets pass. *)
Definition shortNames (namelist : list string) : Prop :=
  Forall (fun name => slen name < 2 ^ 32) namelist
  /\ len (nameListPayload namelist) < 2 ^ 32.

Definition shortTuples (tuplelist : list tuple) : Prop :=
  Forall (fun t => slen (Name t) < 2 ^ 32 /\ slen (Data t) < 2 ^ 32) tuplelist
  /\ len (tupleListPayload tuplelist) < 2 ^ 32.

Definition shortSignature (sig : signature) : Prop :=
  slen (Format sig) < 2 ^ 32 /\ len (Blob sig) < 2 ^ 32
  /\ 8 + slen (Format sig) + len (Blob sig) < 2 ^ 32.

Definition wireCert {PK} (c : certOf PK) : Prop :=
  len (Nonce c) < 2 ^ 32
  /\ 0 <= Serial c < 2 ^ 64
  /\ (CertType c = UserCert \/ CertType c = HostCert)
  /\ slen (KeyId c) < 2 ^ 32
  /\ shortNames (ValidPrincipals c)
  /\ - 2 ^ 63 <= ValidAfter c < 2 ^ 63
  /\ - 2 ^ 63 <= ValidBefore c < 2 ^ 63
  /\ shortTuples (CriticalOptions c)
  /\ shortTuples (Extensions c)
  /\ len (Reserved c) < 2 ^ 32.

End Encoding.

(** * Properties *)

(** ** The send window *)

Module WindowFacts.

Import Window.

Lemma u32_small z : 0 <= z < 2 ^ 32 -> u32 z = z.
Proof. intros H. unfold u32. apply Z.mod_small. exact H. Qed.

Lemma u32_wrapped z : 2 ^ 32 <= z < 2 ^ 33 -> u32 z = z - 2 ^ 32.
Proof.
  intros H. unfold u32.
  symmetry. apply (Z.mod_unique_pos z (2 ^ 32) 1 (z - 2 ^ 32)); lia.
Qed.

Lemma add_zero w : add w 0 = (true, w).
Proof. reflexivity. Qed.

Lemma add_wraps w delta :
  wf w -> 0 < delta < 2 ^ 32 -> 2 ^ 32 <= win w + delta ->
  add w delta = (false, w).
Proof.
  intros Hw Hd Hsum. unfold wf in Hw. unfold add.
  destruct (Z.eqb_spec delta 0) as [->|_]; [lia|].
  rewrite u32_wrapped by lia.
  destruct (Z.ltb_spec (win w + delta - 2 ^ 32) delta); [reflexivity|lia].
Qed.

Lemma add_fits w delta :
  wf w -> 0 < delta < 2 ^ 32 -> win w + delta < 2 ^ 32 ->
  add w delta = (true, Win (win w + delta)).
Proof.
  intros Hw Hd Hsum. unfold wf in Hw. unfold add.
  destruct (Z.eqb_spec delta 0) as [->|_]; [lia|].
  rewrite u32_small by lia.
  destruct (Z.ltb_spec (win w + delta) delta); [lia|reflexivity].
Qed.

(** The test of the source, [w.win+win < win] on uint32, is the test for
    a sum of 2^32 or more. *)
Lemma wraps_iff w delta :
  wf w -> 0 <= delta < 2 ^ 32 ->
  (win w + delta) mod 2 ^ 32 < delta <-> 2 ^ 32 <= win w + delta.
Proof.
  intros Hw Hd. unfold wf in Hw.
  destruct (Z_lt_le_dec (win w + delta) (2 ^ 32)) as [Hlt|Hge].
  - rewrite Z.mod_small by lia. lia.
  - fold (u32 (win w + delta)). rewrite u32_wrapped by lia. lia.
Qed.

(** C5. For the send window counter w (a uint32): add(0) succeeds and leaves
    w unchanged; for delta > 0, if w + delta modulo 2^32 is less than delta
    then add(delta) returns false and leaves w unchanged, and otherwise it
    returns true and the new value of w is w + delta, which then is below
    2^32.  With w = 2^32 - 5, add(10) fails and w stays 2^32 - 5, and
    add(0xFFFFFFFF) fails from every window other than 0. *)
Theorem add_detects_overflow (w : window) (delta : Z) :
  wf w -> 0 <= delta < 2 ^ 32 ->
  add w 0 = (true, w) /\
  (0 < delta -> (win w + delta) mod 2 ^ 32 < delta ->
   add w delta = (false, w)) /\
  (0 < delta -> ~ (win w + delta) mod 2 ^ 32 < delta ->
   add w delta = (true, Win (win w + delta)) /\ win w + delta < 2 ^ 32) /\
  add (Win (2 ^ 32 - 5)) 10 = (false, Win (2 ^ 32 - 5)) /\
  (win w <> 0 -> add w 0xFFFFFFFF = (false, w)).
Proof.
  intros Hw Hd. split; [apply add_zero|].
  split.
  { intros Hpos Hwrap. apply add_wraps; [assumption|lia|].
    apply wraps_iff; [assumption|lia|assumption]. }
  split.
  { intros Hpos Hno.
    assert (win w + delta < 2 ^ 32) as Hfit.
    { destruct (Z_lt_le_dec (win w + delta) (2 ^ 32)) as [H|H]; [exact H|].
      exfalso. apply Hno. apply wraps_iff; [assumption|lia|assumption]. }
    split; [apply add_fits; [assumption|lia|assumption]|exact Hfit]. }
  split; [reflexivity|].
  intros Hnz. unfold wf in Hw. apply add_wraps; [assumption|lia|lia].
Qed.

Lemma add_detects_overflow_witness :
  wf (Win 7) /\ 0 <= 3 < 2 ^ 32 /\
  add (Win 7) 0 = (true, Win 7) /\
  (0 < 3 -> (win (Win 7) + 3) mod 2 ^ 32 < 3 ->
   add (Win 7) 3 = (false, Win 7)) /\
  (0 < 3 -> ~ (win (Win 7) + 3) mod 2 ^ 32 < 3 ->
   add (Win 7) 3 = (true, Win (win (Win 7) + 3))
   /\ win (Win 7) + 3 < 2 ^ 32) /\
  add (Win (2 ^ 32 - 5)) 10 = (false, Win (2 ^ 32 - 5)) /\
  (win (Win 7) <> 0 -> add (Win 7) 0xFFFFFFFF = (false, Win 7)).
Proof.
  assert (wf (Win 7)) as Hw by (unfold wf; simpl; lia).
  assert (0 <= 3 < 2 ^ 32) as Hd by lia.
  split; [exact Hw|]. split; [exact Hd|].
  exact (add_detects_overflow (Win 7) 3 Hw Hd).
Defined.

Lemma reserve_nonempty w request :
  wf w -> 0 <= request < 2 ^ 32 -> win w <> 0 ->
  reserve w request
  = Granted (Z.min request (win w)) (Win (win w - Z.min request (win w))).
Proof.
  intros Hw Hr Hnz. unfold wf in Hw. unfold reserve.
  destruct (Z.eqb_spec (win w) 0) as [?|_]; [contradiction|].
  destruct (Z.ltb_spec (win w) request) as [Hlt|Hge].
  - rewrite Z.min_r by lia. rewrite WindowFacts.u32_small by lia. reflexivity.
  - rewrite Z.min_l by lia. rewrite WindowFacts.u32_small by lia. reflexivity.
Qed.

(** C6. Starting from a send window of 0, add(n) for n > 0 followed by
    reserve(m) returns min(n, m) and leaves the window at n - min(n, m).  In
    general reserve on a non-empty window w grants min(request, w), which is
    neither more than requested nor more than available, and leaves
    w - granted; on an empty window the caller waits. *)
Theorem add_then_reserve_grants_min (w : window) (n m request : Z) :
  wf w -> 0 < n < 2 ^ 32 -> 0 <= m < 2 ^ 32 -> 0 <= request < 2 ^ 32 ->
  (exists w1,
     add (Win 0) n = (true, w1) /\
     reserve w1 m = Granted (Z.min n m) (Win (n - Z.min n m))) /\
  (win w <> 0 ->
   exists granted,
     reserve w request = Granted granted (Win (win w - granted)) /\
     granted = Z.min request (win w) /\
     granted <= request /\ granted <= win w) /\
  (win w = 0 -> reserve w request = Parked).
Proof.
  intros Hw Hn Hm Hr. split; [|split].
  - exists (Win n). split.
    + rewrite add_fits; [reflexivity|unfold wf; simpl; lia|lia|simpl; lia].
    + rewrite reserve_nonempty; [|unfold wf; simpl; lia|lia|simpl; lia].
      simpl. rewrite (Z.min_comm m n). reflexivity.
  - intros Hnz. exists (Z.min request (win w)).
    split; [apply reserve_nonempty; assumption|].
    split; [reflexivity|]. split; lia.
  - intros Hz. unfold reserve. rewrite Hz. reflexivity.
Qed.

Lemma add_then_reserve_grants_min_witness :
  (exists w1,
     add (Win 0) 5 = (true, w1) /\
     reserve w1 8 = Granted (Z.min 5 8) (Win (5 - Z.min 5 8))) /\
  (win (Win 9) <> 0 ->
   exists granted,
     reserve (Win 9) 4 = Granted granted (Win (win (Win 9) - granted)) /\
     granted = Z.min 4 (win (Win 9)) /\
     granted <= 4 /\ granted <= win (Win 9)) /\
  (win (Win 9) = 0 -> reserve (Win 9) 4 = Parked).
Proof.
  apply (add_then_reserve_grants_min (Win 9) 5 8 4).
  - unfold wf. simpl. lia.
  - lia.
  - lia.
  - lia.
Defined.

End WindowFacts.

(** ** Negotiation and Diffie-Hellman *)

Module KexFacts.

Import Kex.

Lemma serverHas_In a serverAlgos :
  serverHas a serverAlgos = true <-> In a serverAlgos.
Proof.
  induction serverAlgos as [|b l IH]; simpl.
  - split; [discriminate|tauto].
  - destruct (String.eqb_spec a b) as [->|Hne].
    + split; auto.
    + rewrite IH. split; [auto|]. intros [Heq|Hin]; [congruence|exact Hin].
Qed.

Lemma firstMatch_cons_hit (P : string -> Prop) a client server :
  In a server -> P a -> firstMatch P (a :: client) server a.
Proof.
  intros Hin HP. exists [], client. simpl.
  split; [reflexivity|]. split; [exact Hin|]. split; [exact HP|].
  intros x [].
Qed.

Lemma firstMatch_cons_miss (P : string -> Prop) a b client server :
  ~ (In b server /\ P b) ->
  firstMatch P client server a -> firstMatch P (b :: client) server a.
Proof.
  intros Hmiss (pre & post & -> & Hin & HP & Hpre).
  exists (b :: pre), post. simpl.
  split; [reflexivity|]. split; [exact Hin|]. split; [exact HP|].
  intros x [<-|Hx]; [exact Hmiss|apply Hpre, Hx].
Qed.

Lemma noMatch_cons (P : string -> Prop) b client server :
  ~ (In b server /\ P b) ->
  noMatch P client server -> noMatch P (b :: client) server.
Proof.
  intros Hmiss Hno x [<-|Hx]; [exact Hmiss|apply Hno, Hx].
Qed.

Lemma firstMatch_not_noMatch (P : string -> Prop) client server a :
  firstMatch P client server a -> ~ noMatch P client server.
Proof.
  intros (pre & post & -> & Hin & HP & _) Hno.
  apply (Hno a); [apply in_or_app; right; left; reflexivity|].
  split; assumption.
Qed.

(** The first match is unique. *)
Lemma firstMatch_unique (P : string -> Prop) client server a b :
  firstMatch P client server a -> firstMatch P client server b -> a = b.
Proof.
  revert a b. induction client as [|x client IH]; intros a b Ha Hb.
  - destruct Ha as (pre & post & Heq & _). destruct pre; discriminate.
  - destruct Ha as (prea & posta & Heqa & Hina & HPa & Hprea).
    destruct Hb as (preb & postb & Heqb & Hinb & HPb & Hpreb).
    destruct prea as [|y prea], preb as [|z preb]; simpl in *.
    + congruence.
    + injection Heqa as Hx _. injection Heqb as Hz _.
      exfalso. apply (Hpreb z); [left; reflexivity|].
      rewrite <- Hz, Hx. split; assumption.
    + injection Heqa as Hy _. injection Heqb as Hx _.
      exfalso. apply (Hprea y); [left; reflexivity|].
      rewrite <- Hy, Hx. split; assumption.
    + injection Heqa as _ Heqa. injection Heqb as _ Heqb.
      apply IH.
      * exists prea, posta. repeat split; try assumption.
        intros u Hu. apply Hprea. right. exact Hu.
      * exists preb, postb. repeat split; try assumption.
        intros u Hu. apply Hpreb. right. exact Hu.
Qed.

(** [findCommonAlgorithm] returns the first match, or the zero values when
    there is none. *)
Lemma findCommonAlgorithm_cases client server :
  (exists a, findCommonAlgorithm client server = (a, true)
             /\ firstMatch anyAlgo client server a)
  \/ (findCommonAlgorithm client server = (""%string, false)
      /\ noMatch anyAlgo client server).
Proof.
  induction client as [|c client IH]; simpl.
  - right. split; [reflexivity|]. intros x [].
  - destruct (serverHas c server) eqn:Hc.
    + left. exists c. split; [reflexivity|].
      apply firstMatch_cons_hit; [apply serverHas_In, Hc|exact I].
    + assert (~ (In c server /\ anyAlgo c)) as Hmiss.
      { intros [Hin _]. apply serverHas_In in Hin. congruence. }
      destruct IH as [(a & Heq & Hfirst)|(Heq & Hno)].
      * left. exists a. split; [exact Heq|].
        apply firstMatch_cons_miss; assumption.
      * right. split; [exact Heq|]. apply noMatch_cons; assumption.
Qed.

Section Ciphers.

Variable cipherMode : Type.
Variable cipherModes : gmap string cipherMode.

Lemma hasCipherMode_inTable name :
  hasCipherMode cipherModes name = true <-> inTable cipherModes name.
Proof.
  unfold hasCipherMode, inTable.
  destruct (cipherModes !! name) as [m|].
  - split; [intros _; exists m; reflexivity|reflexivity].
  - split; [discriminate|]. intros [m Hm]. discriminate.
Qed.

Lemma serverHasCipher_In a serverCiphers :
  serverHasCipher cipherModes a serverCiphers = true
  <-> In a serverCiphers /\ inTable cipherModes a.
Proof.
  induction serverCiphers as [|b l IH]; simpl.
  - split; [discriminate|tauto].
  - destruct (String.eqb_spec a b) as [->|Hne]; simpl.
    + destruct (hasCipherMode cipherModes b) eqn:Hb.
      * apply hasCipherMode_inTable in Hb. split; auto.
      * rewrite IH. split; [intros [? ?]; auto|].
        intros [_ Htab]. apply hasCipherMode_inTable in Htab. congruence.
    + rewrite IH. split; [intros [? ?]; auto|].
      intros [[Heq|Hin] Htab]; [congruence|auto].
Qed.

Lemma findCommonCipher_cases client server :
  (exists a, findCommonCipher cipherModes client server = (a, true)
             /\ firstMatch (inTable cipherModes) client server a)
  \/ (findCommonCipher cipherModes client server = (""%string, false)
      /\ noMatch (inTable cipherModes) client server).
Proof.
  induction client as [|c client IH]; simpl.
  - right. split; [reflexivity|]. intros x [].
  - destruct (serverHasCipher cipherModes c server) eqn:Hc.
    + left. exists c. split; [reflexivity|].
      apply serverHasCipher_In in Hc. destruct Hc as [Hin Htab].
      apply firstMatch_cons_hit; assumption.
    + assert (~ (In c server /\ inTable cipherModes c)) as Hmiss.
      { intros Hin. apply serverHasCipher_In in Hin. congruence. }
      destruct IH as [(a & Heq & Hfirst)|(Heq & Hno)].
      * left. exists a. split; [exact Heq|].
        apply firstMatch_cons_miss; assumption.
      * right. split; [exact Heq|]. apply noMatch_cons; assumption.
Qed.

Lemma allMatch_not_someMiss c s t r : allMatch cipherModes c s t r -> ~ someMiss cipherModes c s.
Proof.
  intros (H1 & H2 & H3 & H4 & H5 & H6 & H7 & H8)
         [M|[M|[M|[M|[M|[M|[M|M]]]]]]].
  - exact (firstMatch_not_noMatch _ _ _ _ H1 M).
  - exact (firstMatch_not_noMatch _ _ _ _ H2 M).
  - exact (firstMatch_not_noMatch _ _ _ _ H3 M).
  - exact (firstMatch_not_noMatch _ _ _ _ H4 M).
  - exact (firstMatch_not_noMatch _ _ _ _ H5 M).
  - exact (firstMatch_not_noMatch _ _ _ _ H6 M).
  - exact (firstMatch_not_noMatch _ _ _ _ H7 M).
  - exact (firstMatch_not_noMatch _ _ _ _ H8 M).
Qed.

Lemma findAgreedAlgorithms_cases t c s :
  let '(t', r) := findAgreedAlgorithms cipherModes t c s in
  (ok r = true /\ allMatch cipherModes c s t' r) \/ (ok r = false /\ someMiss cipherModes c s).
Proof.
  unfold findAgreedAlgorithms.
  destruct (findCommonAlgorithm_cases (KexAlgos c) (KexAlgos s))
    as [(a1 & -> & H1)|(-> & H1)]; simpl;
    [|right; split; [reflexivity|unfold someMiss; tauto]].
  destruct (findCommonAlgorithm_cases (ServerHostKeyAlgos c)
              (ServerHostKeyAlgos s))
    as [(a2 & -> & H2)|(-> & H2)]; simpl;
    [|right; split; [reflexivity|unfold someMiss; tauto]].
  destruct (findCommonCipher_cases (CiphersClientServer c)
              (CiphersClientServer s))
    as [(a3 & -> & H3)|(-> & H3)]; simpl;
    [|right; split; [reflexivity|unfold someMiss; tauto]].
  destruct (findCommonCipher_cases (CiphersServerClient c)
              (CiphersServerClient s))
    as [(a4 & -> & H4)|(-> & H4)]; simpl;
    [|right; split; [reflexivity|unfold someMiss; tauto]].
  destruct (findCommonAlgorithm_cases (MACsClientServer c)
              (MACsClientServer s))
    as [(a5 & -> & H5)|(-> & H5)]; simpl;
    [|right; split; [reflexivity|unfold someMiss; tauto]].
  destruct (findCommonAlgorithm_cases (MACsServerClient c)
              (MACsServerClient s))
    as [(a6 & -> & H6)|(-> & H6)]; simpl;
    [|right; split; [reflexivity|unfold someMiss; tauto]].
  destruct (findCommonAlgorithm_cases (CompressionClientServer c)
              (CompressionClientServer s))
    as [(a7 & -> & H7)|(-> & H7)]; simpl;
    [|right; split; [reflexivity|unfold someMiss; tauto]].
  destruct (findCommonAlgorithm_cases (CompressionServerClient c)
              (CompressionServerClient s))
    as [(a8 & -> & H8)|(-> & H8)]; simpl;
    [|right; split; [reflexivity|unfold someMiss; tauto]].
  left. split; [reflexivity|]. unfold allMatch. simpl. tauto.
Qed.

(** C3. For every pair of KexInit messages, [findAgreedAlgorithms] succeeds
    exactly when each of the eight categories (key exchange, host key,
    ciphers and MACs and compression in both directions) has a first entry of
    the client's list that is in the server's list, a cipher counting only
    when the local cipher-mode table has an entry for it; the algorithms
    returned and assigned to the transport then are these first entries.  It
    fails exactly when some category has no such entry, and then the
    handshake returns the error "ssh: no common algorithms". *)
Theorem findAgreedAlgorithms_first_client_match
  (t : transport) (c s : kexInitMsg) :
  let res := findAgreedAlgorithms cipherModes t c s in
  (ok res.2 = true <-> allMatch cipherModes c s res.1 res.2) /\
  (ok res.2 = false <-> someMiss cipherModes c s) /\
  (ok res.2 = true ->
   handshake_negotiate cipherModes t c s
   = GoOn res.1 (kexAlgo res.2) (hostKeyAlgo res.2)) /\
  (someMiss cipherModes c s ->
   handshake_negotiate cipherModes t c s
   = HandshakeError "ssh: no common algorithms").
Proof.
  pose proof (findAgreedAlgorithms_cases t c s) as Hcases.
  unfold handshake_negotiate.
  destruct (findAgreedAlgorithms cipherModes t c s) as [t' r]. simpl.
  destruct Hcases as [[Hok Hall]|[Hok Hmiss]].
  - pose proof (allMatch_not_someMiss _ _ _ _ Hall) as Hnot.
    rewrite Hok. simpl.
    split; [tauto|]. split; [split; [discriminate|tauto]|].
    split; [reflexivity|tauto].
  - assert (~ allMatch cipherModes c s t' r) as Hnot.
    { intros Hall. exact (allMatch_not_someMiss _ _ _ _ Hall Hmiss). }
    rewrite Hok. simpl.
    split; [split; [discriminate|tauto]|]. split; [tauto|].
    split; [discriminate|reflexivity].
Qed.

End Ciphers.

Lemma findAgreedAlgorithms_first_client_match_witness :
  let cipherModes : gmap string unit := {[ "aes128-ctr"%string := tt ]} in
  let t := Transport (Direction "" "" "") (Direction "" "" "") in
  let c := KexInit ["k1"; "k2"]%string ["ssh-rsa"]%string
                   ["arcfour"; "aes128-ctr"]%string
                   ["arcfour"; "aes128-ctr"]%string
                   ["hmac-sha1"]%string ["hmac-sha1"]%string
                   ["none"]%string ["none"]%string false in
  let s := KexInit ["k2"; "k1"]%string ["ssh-rsa"]%string
                   ["aes128-ctr"; "arcfour"]%string
                   ["aes128-ctr"; "arcfour"]%string
                   ["hmac-sha1"]%string ["hmac-sha1"]%string
                   ["none"]%string ["none"]%string false in
  findAgreedAlgorithms cipherModes t c s
  = (Transport (Direction "aes128-ctr" "hmac-sha1" "none")
               (Direction "aes128-ctr" "hmac-sha1" "none"),
     Agreed "k1" "ssh-rsa" true)
  /\ handshake_negotiate cipherModes t c s
     = GoOn (Transport (Direction "aes128-ctr" "hmac-sha1" "none")
                       (Direction "aes128-ctr" "hmac-sha1" "none"))
            "k1" "ssh-rsa".
Proof.
  intros cipherModes t c s.
  assert (findAgreedAlgorithms cipherModes t c s
          = (Transport (Direction "aes128-ctr" "hmac-sha1" "none")
                       (Direction "aes128-ctr" "hmac-sha1" "none"),
             Agreed "k1" "ssh-rsa" true)) as Heq by (vm_compute; reflexivity).
  split; [exact Heq|].
  pose proof (findAgreedAlgorithms_first_client_match
                unit cipherModes t c s) as (_ & _ & Hgo & _).
  rewrite Heq in Hgo. simpl in Hgo. apply Hgo. reflexivity.
Defined.

(** C8, as the claim states it, fails: with the client list [a, b, c] and
    the server list [c, b, a] the negotiated algorithm is a, not b. *)
Lemma abc_against_cba_is_not_b :
  findCommonAlgorithm ["a"; "b"; "c"]%string ["c"; "b"; "a"]%string
  = ("a"%string, true)
  /\ findCommonAlgorithm ["a"; "b"; "c"]%string ["c"; "b"; "a"]%string
     <> ("b"%string, true).
Proof. split; [reflexivity|discriminate]. Qed.

(** C8, amended. Given the client list [a, b, c] and the server list
    [c, b, a], [findCommonAlgorithm] negotiates a, the first entry of the
    client's list; given two disjoint lists it reports no common algorithm
    (the empty name and ok = false). *)
Theorem findCommonAlgorithm_abc_cba (a b c : string)
  (client server : list string) :
  findCommonAlgorithm [a; b; c] [c; b; a] = (a, true) /\
  ((forall x, In x client -> ~ In x server) ->
   findCommonAlgorithm client server = (""%string, false)).
Proof.
  split.
  - simpl. destruct (String.eqb a c); [reflexivity|].
    destruct (String.eqb a b); [reflexivity|].
    rewrite String.eqb_refl. reflexivity.
  - intros Hdisj.
    destruct (findCommonAlgorithm_cases client server)
      as [(x & _ & pre & post & -> & Hin & _)|[Heq _]]; [|exact Heq].
    exfalso. apply (Hdisj x); [|exact Hin].
    apply in_or_app. right. left. reflexivity.
Qed.

Lemma findCommonAlgorithm_abc_cba_witness :
  findCommonAlgorithm ["a"; "b"; "c"]%string ["c"; "b"; "a"]%string
  = ("a"%string, true) /\
  findCommonAlgorithm ["x"; "y"]%string ["z"]%string = (""%string, false).
Proof.
  destruct (findCommonAlgorithm_abc_cba "a" "b" "c"
              ["x"; "y"]%string ["z"]%string) as [Habc Hdisj].
  split; [exact Habc|].
  apply Hdisj. intros x [<-|[<-|[]]] [Hz|[]]; discriminate.
Defined.

(** *** Diffie-Hellman *)

Lemma bigExp_pow Y x m : 0 <= x -> 0 < Y < m -> bigExp Y x m = Y ^ x mod m.
Proof.
  intros Hx HY. unfold bigExp.
  destruct (Z.leb_spec x 0) as [Hle|Hgt].
  - assert (x = 0) as -> by lia. rewrite Z.pow_0_r.
    symmetry. apply Z.mod_small. lia.
  - destruct (Z.eqb_spec m 0) as [->|_]; [lia|].
    rewrite Z.abs_eq by lia. reflexivity.
Qed.

(** C4, as the claim states it, fails: the value 1 is not strictly between
    1 and p, and [diffieHellman] accepts it. *)
Lemma diffieHellman_accepts_one :
  ~ (1 < 1 < p dhGroup1) /\
  diffieHellman dhGroup1 1 5 = DhOk 1.
Proof. split; [lia|reflexivity]. Qed.

(** C4, amended. [diffieHellman(Y, x)] validates that Y lies strictly
    between 0 and the group prime p: for every Y <= 0 and every Y >= p, in
    particular for 0 and for p, it fails with the error "ssh: DH parameter
    out of bounds", and for every Y with 0 < Y < p, the value 1 included, it
    succeeds and returns Y^x mod p (x a non-negative exponent). *)
Theorem diffieHellman_checks_range (group : dhGroup) (Y x : Z) :
  0 <= x ->
  (Y <= 0 \/ p group <= Y ->
   diffieHellman group Y x = DhError "ssh: DH parameter out of bounds") /\
  (0 < Y < p group -> diffieHellman group Y x = DhOk (Y ^ x mod p group)) /\
  diffieHellman group 0 x = DhError "ssh: DH parameter out of bounds" /\
  diffieHellman group (p group) x
  = DhError "ssh: DH parameter out of bounds".
Proof.
  intros Hx.
  assert (forall Z0, Z0 <= 0 \/ p group <= Z0 ->
            diffieHellman group Z0 x
            = DhError "ssh: DH parameter out of bounds") as Hout.
  { intros Z0 Hrange. unfold diffieHellman.
    destruct (Z.leb_spec (Z.sgn Z0) 0) as [Hs|Hs]; [reflexivity|].
    destruct (Z.leb_spec (p group) Z0) as [Hp|Hp]; [reflexivity|].
    exfalso. destruct Hrange as [Hle|Hge]; [|lia].
    pose proof (Z.sgn_nonpos Z0). lia. }
  split; [apply Hout|]. split.
  - intros HY. unfold diffieHellman.
    destruct (Z.leb_spec (Z.sgn Y) 0) as [Hs|Hs].
    { pose proof (Z.sgn_nonpos Y). lia. }
    destruct (Z.leb_spec (p group) Y) as [Hp|Hp]; [lia|].
    simpl. rewrite bigExp_pow by lia. reflexivity.
  - split; apply Hout; lia.
Qed.

Lemma diffieHellman_checks_range_witness :
  0 <= 5 /\
  (3 <= 0 \/ p (DhGroup 2 23) <= 3 ->
   diffieHellman (DhGroup 2 23) 3 5
   = DhError "ssh: DH parameter out of bounds") /\
  (0 < 3 < p (DhGroup 2 23) ->
   diffieHellman (DhGroup 2 23) 3 5 = DhOk (3 ^ 5 mod p (DhGroup 2 23))) /\
  diffieHellman (DhGroup 2 23) 0 5
  = DhError "ssh: DH parameter out of bounds" /\
  diffieHellman (DhGroup 2 23) (p (DhGroup 2 23)) 5
  = DhError "ssh: DH parameter out of bounds".
Proof.
  assert (0 <= 5) as Hx by lia.
  split; [exact Hx|].
  exact (diffieHellman_checks_range (DhGroup 2 23) 3 5 Hx).
Defined.

End KexFacts.

(** ** The wire codec *)

Module WireFacts.

Import Wire.

Lemma Z_of_byte_of_Z z : Z_of_byte (byte_of_Z z) = z mod 256.
Proof.
  unfold Z_of_byte, byte_of_Z.
  assert (0 <= z mod 256 < 256) as Hb by (apply Z.mod_pos_bound; lia).
  destruct (Byte.of_N (Z.to_N (z mod 256))) as [b|] eqn:E.
  - apply Byte.to_of_N in E. rewrite E. apply Z2N.id. lia.
  - apply Byte.of_N_None_iff in E. lia.
Qed.

Lemma Z_of_byte_range b : 0 <= Z_of_byte b < 256.
Proof.
  unfold Z_of_byte. pose proof (Byte.to_N_bounded b). lia.
Qed.

Lemma beZ_be32 n : 0 <= n < 2 ^ 32 -> beZ (be32 n) = n.
Proof.
  intros Hn. unfold beZ, be32. simpl fold_left.
  rewrite !Z_of_byte_of_Z, !Z.shiftr_div_pow2 by lia.
  change (2 ^ 24) with 16777216. change (2 ^ 16) with 65536.
  change (2 ^ 8) with 256. change (2 ^ 32) with 4294967296 in Hn.
  Z.div_mod_to_equations. lia.
Qed.

Lemma length_be32 n : length (be32 n) = 4%nat.
Proof. reflexivity. Qed.

Lemma parseUint32_be32 n rest :
  0 <= n < 2 ^ 32 -> parseUint32 (be32 n ++ rest) = Some (n, rest).
Proof.
  intros Hn. unfold parseUint32.
  replace (firstn 4 (be32 n ++ rest)) with (be32 n) by reflexivity.
  replace (skipn 4 (be32 n ++ rest)) with rest by reflexivity.
  rewrite length_app, length_be32, beZ_be32 by exact Hn. reflexivity.
Qed.

Lemma parseString_be32 s rest :
  Z.of_nat (length s) < 2 ^ 32 ->
  parseString (be32 (Z.of_nat (length s)) ++ s ++ rest) = Some (s, rest).
Proof.
  intros Hs. unfold parseString.
  rewrite parseUint32_be32 by lia.
  rewrite length_app.
  destruct (Z.ltb_spec (Z.of_nat (length s + length rest))
                       (Z.of_nat (length s))) as [Hlt|_]; [lia|].
  rewrite Nat2Z.id.
  rewrite take_app_length, drop_app_length. reflexivity.
Qed.

Lemma length_bytes s : length (bytes s) = String.length s.
Proof.
  unfold bytes, list_byte_of_string. rewrite length_map.
  induction s as [|a s IH]; simpl; [reflexivity|]. rewrite IH. reflexivity.
Qed.

Lemma str_bytes s : str (bytes s) = s.
Proof. apply string_of_list_byte_of_string. Qed.

(** A parser that succeeds has consumed what it returns. *)
Lemma parseUint32_length inp v r :
  parseUint32 inp = Some (v, r) -> length inp = (4 + length r)%nat.
Proof.
  unfold parseUint32.
  destruct (Nat.ltb_spec (length inp) 4) as [|Hge]; [discriminate|].
  intros [= <- <-]. rewrite length_drop. lia.
Qed.

Lemma parseUint64_length inp v r :
  parseUint64 inp = Some (v, r) -> length inp = (8 + length r)%nat.
Proof.
  unfold parseUint64.
  destruct (Nat.ltb_spec (length inp) 8) as [|Hge]; [discriminate|].
  intros [= <- <-]. rewrite length_drop. lia.
Qed.

Lemma parseString_length inp s r :
  parseString inp = Some (s, r) ->
  length inp = (4 + length s + length r)%nat.
Proof.
  unfold parseString.
  destruct (parseUint32 inp) as [[n rest1]|] eqn:E; [|discriminate].
  apply parseUint32_length in E.
  destruct (Z.ltb_spec (Z.of_nat (length rest1)) n) as [|Hge]; [discriminate|].
  intros [= <- <-]. rewrite length_take, length_drop. lia.
Qed.

(** Writing into a buffer with room enough. *)
Lemma put_fits w b r :
  put (Slice w (repeat x00 (length b) ++ r)) b = Some (Slice (w ++ b) r).
Proof.
  unfold put. simpl.
  rewrite length_app, repeat_length.
  destruct (Nat.leb_spec (length b) (length b + length r)) as [_|H]; [|lia].
  assert (forall n, skipn n (repeat x00 n ++ r) = r) as Hskip
    by (intros n; induction n; simpl; auto).
  rewrite Hskip. reflexivity.
Qed.

End WireFacts.

(** ** Public keys and certificates *)

Module CertsFacts.

Import Wire.
Import Certs.
Import WireFacts.

(** C9, as the claim states it, fails: the outer length prefix that
    [marshalLengthPrefixedNameList] writes for ["a", "bc"] is 11 (0x0b), the
    number of bytes that follow it, and not 13 (0x0d). *)
Lemma name_list_prefix_is_not_13 :
  marshalLengthPrefixedNameList
    (make (lengthPrefixedNameListLength ["a"; "bc"]%string))
    ["a"; "bc"]%string
  = Some (Slice [x00; x00; x00; x0b;
                 x00; x00; x00; x01; "a"%byte;
                 x00; x00; x00; x02; "b"%byte; "c"%byte] [])
  /\ [x00; x00; x00; x0b;
      x00; x00; x00; x01; "a"%byte;
      x00; x00; x00; x02; "b"%byte; "c"%byte]
     <> [x00; x00; x00; x0d;
         x00; x00; x00; x01; "a"%byte;
         x00; x00; x00; x02; "b"%byte; "c"%byte]
  /\ parseLengthPrefixedNameList
       [x00; x00; x00; x0d;
        x00; x00; x00; x01; "a"%byte;
        x00; x00; x00; x02; "b"%byte; "c"%byte]
     = None.
Proof.
  split; [vm_compute; reflexivity|].
  split; [discriminate|vm_compute; reflexivity].
Qed.

(** C9, amended. [marshalLengthPrefixedNameList] encodes the empty name
    list as exactly four zero bytes, and the list ["a", "bc"] as the bytes
    00 00 00 0b 00 00 00 01 'a' 00 00 00 02 'b' 'c', that is with an outer
    length prefix of 11 followed by the two length-prefixed names; both fill
    a buffer of [lengthPrefixedNameListLength] bytes exactly, and
    [parseLengthPrefixedNameList] reads the lists back. *)
Theorem marshalLengthPrefixedNameList_examples :
  marshalLengthPrefixedNameList (make (lengthPrefixedNameListLength [])) []
  = Some (Slice [x00; x00; x00; x00] []) /\
  marshalLengthPrefixedNameList
    (make (lengthPrefixedNameListLength ["a"; "bc"]%string))
    ["a"; "bc"]%string
  = Some (Slice [x00; x00; x00; x0b;
                 x00; x00; x00; x01; "a"%byte;
                 x00; x00; x00; x02; "b"%byte; "c"%byte] []) /\
  lengthPrefixedNameListLength ["a"; "bc"]%string = 15 /\
  parseLengthPrefixedNameList [x00; x00; x00; x00] = Some ([], []) /\
  parseLengthPrefixedNameList
    [x00; x00; x00; x0b;
     x00; x00; x00; x01; "a"%byte;
     x00; x00; x00; x02; "b"%byte; "c"%byte]
  = Some (["a"; "bc"]%string, []).
Proof. repeat split; vm_compute; reflexivity. Qed.

(** *** The name list in general *)

Lemma nameListPayload_cons (name : string) (rest : list string) :
  nameListPayload (name :: rest)
  = (be32 (slen name) ++ bytes name) ++ nameListPayload rest.
Proof. reflexivity. Qed.

Lemma marshalNames_fits (namelist : list string) (w r : list byte) :
  marshalNames
    (Slice w (repeat x00 (length (nameListPayload namelist)) ++ r)) namelist
  = Some (Slice (w ++ nameListPayload namelist) r).
Proof.
  revert w. induction namelist as [|name rest IH]; intros w.
  - simpl. rewrite app_nil_r. reflexivity.
  - rewrite nameListPayload_cons. cbn [marshalNames].
    unfold marshalString, slen. rewrite length_bytes.
    rewrite (length_app (be32 _ ++ bytes name)), repeat_app, <- app_assoc.
    rewrite put_fits, IH, <- app_assoc. reflexivity.
Qed.

Lemma lengthPrefixedNameListLength_payload (namelist : list string) :
  lengthPrefixedNameListLength namelist
  = 4 + Z.of_nat (length (nameListPayload namelist)).
Proof.
  unfold lengthPrefixedNameListLength.
  assert (forall acc,
            fold_left (fun length name => length + 4 + slen name) namelist acc
            = acc + Z.of_nat (length (nameListPayload namelist))) as Hacc.
  { induction namelist as [|name rest IH]; intros acc; cbn [fold_left].
    - simpl. lia.
    - rewrite IH, nameListPayload_cons.
      rewrite !length_app, length_be32, length_bytes. unfold slen. lia. }
  apply Hacc.
Qed.

(** In a buffer of [lengthPrefixedNameListLength] bytes the name list is
    written as the length of its payload (as a uint32) and the payload, and
    the buffer is full. *)
Lemma marshalLengthPrefixedNameList_bytes (namelist : list string) :
  marshalLengthPrefixedNameList
    (make (lengthPrefixedNameListLength namelist)) namelist
  = Some (Slice (be32 (u32 (Z.of_nat (length (nameListPayload namelist))))
                 ++ nameListPayload namelist) []).
Proof.
  unfold marshalLengthPrefixedNameList, marshalUint32, make.
  rewrite lengthPrefixedNameListLength_payload.
  replace (4 + Z.of_nat (length (nameListPayload namelist)) - 4)
    with (Z.of_nat (length (nameListPayload namelist))) by lia.
  replace (Z.to_nat (4 + Z.of_nat (length (nameListPayload namelist))))
    with (length (be32 (u32 (Z.of_nat (length (nameListPayload namelist)))))
          + length (nameListPayload namelist))%nat
    by (rewrite length_be32; lia).
  rewrite repeat_app, put_fits.
  rewrite <- (app_nil_r (repeat x00 (length (nameListPayload namelist)))).
  rewrite marshalNames_fits. reflexivity.
Qed.

(** The loops of the two list parsers never run out of turns. *)
Lemma parseNames_fuel (f1 f2 : nat) (body : list byte) (out : list string) :
  (length body <= f1)%nat -> (length body <= f2)%nat ->
  parseNames f1 body out = parseNames f2 body out.
Proof.
  revert f2 body out. induction f1 as [|f1 IH]; intros f2 body out H1 H2.
  - destruct body; [destruct f2; reflexivity|simpl in H1; lia].
  - destruct body as [|b body]; [destruct f2; reflexivity|].
    destruct f2 as [|f2]; [simpl in H2; lia|].
    simpl. destruct (parseString (b :: body)) as [[next rest]|] eqn:E;
      [|reflexivity].
    apply parseString_length in E. apply IH; simpl in *; lia.
Qed.

Lemma parseTuples_fuel (f1 f2 : nat) (body : list byte) (out : list tuple) :
  (length body <= f1)%nat -> (length body <= f2)%nat ->
  parseTuples f1 body out = parseTuples f2 body out.
Proof.
  revert f2 body out. induction f1 as [|f1 IH]; intros f2 body out H1 H2.
  - destruct body; [destruct f2; reflexivity|simpl in H1; lia].
  - destruct body as [|b body]; [destruct f2; reflexivity|].
    destruct f2 as [|f2]; [simpl in H2; lia|].
    simpl. destruct (parseString (b :: body)) as [[name rest]|] eqn:E;
      [|reflexivity].
    destruct (parseString rest) as [[data rest']|] eqn:E'; [|reflexivity].
    apply parseString_length in E. apply parseString_length in E'.
    apply IH; simpl in *; lia.
Qed.

Lemma parseLengthPrefixedNameList_length inp names r :
  parseLengthPrefixedNameList inp = Some (names, r) ->
  (length r <= length inp)%nat.
Proof.
  unfold parseLengthPrefixedNameList.
  destruct (parseString inp) as [[body rest]|] eqn:E; [|discriminate].
  apply parseString_length in E.
  destruct (parseNames (length body) body []); [|discriminate].
  intros [= _ <-]. lia.
Qed.

Lemma parseTupleList_length inp tuples r :
  parseTupleList inp = Some (tuples, r) -> (length r <= length inp)%nat.
Proof.
  unfold parseTupleList.
  destruct (parseString inp) as [[body rest]|] eqn:E; [|discriminate].
  apply parseString_length in E.
  destruct (parseTuples (length body) body []); [|discriminate].
  intros [= _ <-]. lia.
Qed.

Lemma parseSignature_length inp :
  (length (rest (parseSignature inp)) <= length inp)%nat.
Proof.
  unfold parseSignature, parseSignatureBody.
  destruct (parseString inp) as [[sigBytes r]|] eqn:E; [|simpl; lia].
  apply parseString_length in E.
  destruct (parseString sigBytes) as [[format r1]|] eqn:E1; [|simpl; lia].
  apply parseString_length in E1.
  destruct (parseString r1) as [[blob r2]|] eqn:E2; [|simpl; lia].
  apply parseString_length in E2. simpl. lia.
Qed.

(** One step through the body of the certificate parser: the parse of a
    field succeeds, with what it consumed, or the function returns. *)
Ltac parser_case :=
  match goal with
  | |- context [match parseString ?x with _ => _ end] =>
      let E := fresh "E" in
      destruct (parseString x) as [[? ?]|] eqn:E;
      [apply parseString_length in E|simpl; lia]
  | |- context [match parseUint64 ?x with _ => _ end] =>
      let E := fresh "E" in
      destruct (parseUint64 x) as [[? ?]|] eqn:E;
      [apply parseUint64_length in E|simpl; lia]
  | |- context [match parseUint32 ?x with _ => _ end] =>
      let E := fresh "E" in
      destruct (parseUint32 x) as [[? ?]|] eqn:E;
      [apply parseUint32_length in E|simpl; lia]
  | |- context [match parseLengthPrefixedNameList ?x with _ => _ end] =>
      let E := fresh "E" in
      destruct (parseLengthPrefixedNameList x) as [[? ?]|] eqn:E;
      [apply parseLengthPrefixedNameList_length in E|simpl; lia]
  | |- context [match parseTupleList ?x with _ => _ end] =>
      let E := fresh "E" in
      destruct (parseTupleList x) as [[? ?]|] eqn:E;
      [apply parseTupleList_length in E|simpl; lia]
  | |- context [if negb ?b then _ else _] =>
      destruct b; simpl negb; cbv iota; [|simpl; lia]
  end.

Section AnyKeys.

Context {KF : KeyFamily}.

(** The private algorithm of a key, also of a certificate, is the name of
    a plain key. *)
Lemma PrivateKeyAlgo_plain (key : PublicKey) (a : string) :
  PrivateKeyAlgo key = Some a -> exists k, a = plainAlgo k.
Proof.
  revert key a. fix IH 1. intros [k|c] a H.
  - simpl in H. injection H as <-. exists k. reflexivity.
  - destruct c as [nonce [inner|] serial type keyId principals va vb
                    crit ext reserved sigKey sig]; simpl in H.
    + exact (IH inner a H).
    + discriminate.
Qed.

(** C7, on the code. When the nonce, the inner key (of the private
    algorithm that the algo argument names), the serial and the type field
    are parsed and the type is neither 1 (user) nor 2 (host),
    [parseOpenSSHCertV01] returns no certificate and no rest, but ok = true:
    the type is tested after the parse of the field has set ok to true, and
    the return that follows leaves ok as it is. *)
Theorem parseOpenSSHCertV01_bad_type_is_ok
  (P : list byte -> parsed PublicKey) inp algo
  nonce in1 key in2 serial in3 type in4 :
  parseString inp = Some (nonce, in1) ->
  P in1 = Ret (Triple (Some key) in2 true) ->
  PrivateKeyAlgo key = Some algo ->
  parseUint64 in2 = Some (serial, in3) ->
  parseUint32 in3 = Some (type, in4) ->
  type <> UserCert -> type <> HostCert ->
  parseOpenSSHCertV01With P inp algo = Ret (Triple None [] true).
Proof.
  intros H1 H2 H3 H4 H5 Hu Hh. unfold parseOpenSSHCertV01With.
  rewrite H1, H2. simpl. rewrite H3, String.eqb_refl. simpl.
  rewrite H4, H5.
  destruct (Z.eqb_spec type UserCert) as [?|_]; [contradiction|].
  destruct (Z.eqb_spec type HostCert) as [?|_]; [contradiction|].
  reflexivity.
Qed.

(** A key of another algorithm than the algo argument is refused with
    ok = false and no certificate. *)
Lemma parseOpenSSHCertV01With_other_algo
  (P : list byte -> parsed PublicKey) inp algo nonce in1 key in2 a :
  parseString inp = Some (nonce, in1) ->
  P in1 = Ret (Triple (Some key) in2 true) ->
  PrivateKeyAlgo key = Some a ->
  a <> algo ->
  parseOpenSSHCertV01With P inp algo = Ret (Triple None [] false).
Proof.
  intros H1 H2 H3 Hne. unfold parseOpenSSHCertV01With.
  rewrite H1, H2. simpl. rewrite H3.
  destruct (String.eqb_spec a algo) as [?|_]; [contradiction|].
  reflexivity.
Qed.

Lemma marshalNameAndBlob_bytes algoname blob :
  marshalNameAndBlob algoname blob
  = Some (be32 (slen algoname) ++ bytes algoname ++ blob).
Proof.
  unfold marshalNameAndBlob, marshalString, make, stringLength, slen, len.
  rewrite length_bytes.
  replace (Z.to_nat (4 + Z.of_nat (String.length algoname)
                     + Z.of_nat (length blob)))
    with (length (be32 (Z.of_nat (String.length algoname))
                  ++ bytes algoname) + length blob)%nat
    by (rewrite length_app, length_be32, length_bytes; lia).
  rewrite repeat_app, put_fits. simpl.
  unfold copy, whole. simpl.
  rewrite repeat_length, Nat.min_id, firstn_all.
  assert (forall n, skipn n (repeat x00 n) = []) as Hskip
    by (intros n; induction n; simpl; auto).
  rewrite Hskip, app_nil_r. reflexivity.
Qed.

(** What [MarshalPublicKey] writes in front of a certificate is the private
    algorithm name, the name of the plain key inside. *)
Lemma MarshalPublicKey_cert_name (c : OpenSSHCertV01) (b : list byte) :
  MarshalPublicKey (CertKey c) = Some b ->
  exists k blob,
    b = be32 (slen (plainAlgo k)) ++ bytes (plainAlgo k) ++ blob.
Proof.
  intros H. simpl in H.
  destruct (PrivateKeyAlgo (CertKey c)) as [a|] eqn:Ha.
  2:{ simpl in Ha. rewrite Ha in H. discriminate. }
  destruct (PrivateKeyAlgo_plain _ _ Ha) as [k ->].
  simpl in Ha. rewrite Ha in H. simpl in H.
  destruct (certMarshalWith MarshalPublicKey c) as [blob|]; [|discriminate].
  simpl in H. rewrite marshalNameAndBlob_bytes in H. injection H as <-.
  exists k, blob. reflexivity.
Qed.

Lemma ParsePublicKeyFuel_S (fuel : nat) (inp : list byte) :
  ParsePublicKeyFuel (S fuel) inp
  = match parseString inp with
    | None => failed
    | Some (algo, inp) =>
        if isCertAlgo (str algo) then
          match parseOpenSSHCertV01With (ParsePublicKeyFuel fuel) inp
                  (pubAlgoToPrivAlgo (str algo)) with
          | Ret (Triple out rest ok) =>
              Ret (Triple (fmap (M:=option) CertKey out) rest ok)
          | Panic => Panic
          | NoFuel => NoFuel
          end
        else
          match plainParse (str algo) inp with
          | Some (k, rest) => Ret (Triple (Some (PlainKey k)) rest true)
          | None => failed
          end
    end.
Proof. reflexivity. Qed.

(** The certificate parser comes to an end when the key parser does on
    every input that is not longer. *)
Lemma parseOpenSSHCertV01With_total
  (P : list byte -> parsed PublicKey) (inp : list byte) (algo : string) :
  (forall x, (length x <= length inp)%nat -> returnsWithin (length x) (P x)) ->
  returnsWithin (length inp) (parseOpenSSHCertV01With P inp algo).
Proof.
  intros HP. unfold parseOpenSSHCertV01With, failed.
  parser_case.
  match goal with
  | |- context [match P ?x with _ => _ end] =>
      pose proof (HP x) as Hx;
      destruct (P x) as [[key in2 ok]| |];
      [simpl in Hx|exact I|apply Hx; lia]
  end.
  assert (length in2 <= length inp)%nat as Hin2 by lia. clear Hx.
  parser_case.
  destruct (key ≫= PrivateKeyAlgo) as [privAlgo|]; [|exact I].
  destruct (negb (String.eqb privAlgo algo)); [simpl; lia|].
  parser_case. parser_case.
  match goal with
  | |- context [if ?b then _ else _] => destruct b; [simpl; lia|]
  end.
  parser_case. parser_case. parser_case. parser_case. parser_case.
  parser_case. parser_case. parser_case.
  match goal with
  | |- context [match P ?x with _ => _ end] =>
      pose proof (HP x) as Hx;
      destruct (P x) as [[sk in3 ok']| |];
      [clear Hx|exact I|apply Hx; lia]
  end.
  destruct ok'; simpl negb; cbv iota; [|simpl; lia].
  match goal with
  | |- context [parseSignature ?x] =>
      pose proof (parseSignature_length x) as Hsig;
      destruct (parseSignature x) as [sig in4 []]; simpl in *; lia
  end.
Qed.

(** With more fuel than the input has bytes the key parser comes to an
    end, when the parsers of the plain keys return no more than they are
    given: [ParsePublicKey] is total. *)
Lemma ParsePublicKeyFuel_total (fuel : nat) (inp : list byte) :
  (forall algo x k r,
     plainParse algo x = Some (k, r) -> (length r <= length x)%nat) ->
  (length inp < fuel)%nat ->
  returnsWithin (length inp) (ParsePublicKeyFuel fuel inp).
Proof.
  intros Hplain. revert inp.
  induction fuel as [|fuel IH]; intros inp Hlen; [lia|].
  rewrite ParsePublicKeyFuel_S. unfold failed.
  destruct (parseString inp) as [[algo inp']|] eqn:E; [|simpl; lia].
  apply parseString_length in E.
  destruct (isCertAlgo (str algo)).
  - assert (forall x, (length x <= length inp')%nat ->
              returnsWithin (length x) (ParsePublicKeyFuel fuel x)) as HP
      by (intros x Hx; apply IH; lia).
    pose proof (parseOpenSSHCertV01With_total _ inp'
                  (pubAlgoToPrivAlgo (str algo)) HP) as Hcert.
    destruct (parseOpenSSHCertV01With (ParsePublicKeyFuel fuel) inp'
                (pubAlgoToPrivAlgo (str algo))) as [[o r k]| |];
      simpl in *; [lia|exact I|contradiction].
  - destruct (plainParse (str algo) inp') as [[k r]|] eqn:Ek; [|simpl; lia].
    apply Hplain in Ek. simpl. lia.
Qed.

Lemma ParsePublicKey_total (inp : list byte) :
  (forall algo x k r,
     plainParse algo x = Some (k, r) -> (length r <= length x)%nat) ->
  ParsePublicKey inp <> NoFuel.
Proof.
  intros Hplain Hno.
  pose proof (ParsePublicKeyFuel_total (S (length inp)) inp Hplain) as H.
  unfold ParsePublicKey in Hno. rewrite Hno in H. apply H. lia.
Qed.

(** C2, on the code. [MarshalPublicKey] writes the private algorithm name
    in front of a certificate, which is the name of the plain key inside; so,
    for every family of plain keys whose names are no certificate names, the
    parser never reads a certificate out of what [MarshalPublicKey] wrote for
    a certificate: certificate in, never certificate out. *)
Theorem MarshalPublicKey_cert_never_parsed_as_cert
  (c c' : OpenSSHCertV01) (b rest : list byte) (ok : bool) (fuel : nat) :
  (forall k, isCertAlgo (plainAlgo k) = false) ->
  (forall k, slen (plainAlgo k) < 2 ^ 32) ->
  MarshalPublicKey (CertKey c) = Some b ->
  ParsePublicKeyFuel fuel b <> Ret (Triple (Some (CertKey c')) rest ok).
Proof.
  intros Hplain Hshort Hb.
  destruct (MarshalPublicKey_cert_name c b Hb) as (k & blob & ->).
  destruct fuel as [|fuel]; [discriminate|].
  rewrite ParsePublicKeyFuel_S.
  unfold slen. rewrite <- length_bytes.
  rewrite parseString_be32
    by (rewrite length_bytes; apply (Hshort k)).
  rewrite str_bytes, Hplain.
  destruct (plainParse (plainAlgo k) blob) as [[k' rest']|];
    [|unfold failed]; discriminate.
Qed.

(** A plain key does come back from what [MarshalPublicKey] writes, when
    the codec of its family is a round trip. *)
Lemma ParsePublicKey_MarshalPublicKey_plain (k : plainKey) :
  isCertAlgo (plainAlgo k) = false ->
  slen (plainAlgo k) < 2 ^ 32 ->
  plainParse (plainAlgo k) (plainMarshal k) = Some (k, []) ->
  exists b,
    MarshalPublicKey (PlainKey k) = Some b /\
    ParsePublicKey b = Ret (Triple (Some (PlainKey k)) [] true).
Proof.
  intros Hplain Hshort Hcodec.
  exists (be32 (slen (plainAlgo k)) ++ bytes (plainAlgo k) ++ plainMarshal k).
  split; [apply marshalNameAndBlob_bytes|].
  unfold ParsePublicKey. rewrite ParsePublicKeyFuel_S.
  unfold slen. rewrite <- length_bytes.
  rewrite parseString_be32 by (rewrite length_bytes; exact Hshort).
  rewrite str_bytes, Hplain, Hcodec. reflexivity.
Qed.

End AnyKeys.

(** *** On RSA keys *)

Lemma rsaDsa_names_are_plain (k : rsaDsaKey) :
  isCertAlgo (plainAlgo k) = false /\ slen (plainAlgo k) < 2 ^ 32.
Proof. destruct k; split; reflexivity. Qed.

Lemma parseInt_length inp v r :
  parseInt inp = Some (v, r) -> (length r <= length inp)%nat.
Proof.
  unfold parseInt.
  destruct (parseString inp) as [[contents rest]|] eqn:E; [|discriminate].
  apply parseString_length in E.
  destruct contents as [|b contents];
    [|destruct (128 <=? Z_of_byte b)]; intros [= _ <-]; lia.
Qed.

Lemma rsaDsaParse_length algo inp k r :
  rsaDsaParse algo inp = Some (k, r) -> (length r <= length inp)%nat.
Proof.
  unfold rsaDsaParse, parseRSA, parseDSA.
  destruct (String.eqb algo KeyAlgoRSA).
  - destruct (parseInt inp) as [[e r1]|] eqn:E1; simpl; [|discriminate].
    destruct (parseInt r1) as [[n r2]|] eqn:E2; simpl; [|discriminate].
    apply parseInt_length in E1. apply parseInt_length in E2.
    simpl. intros [= _ <-]. lia.
  - destruct (String.eqb algo KeyAlgoDSA); [|discriminate].
    destruct (parseInt inp) as [[p r1]|] eqn:E1; simpl; [|discriminate].
    destruct (parseInt r1) as [[q r2]|] eqn:E2; simpl; [|discriminate].
    destruct (parseInt r2) as [[g r3]|] eqn:E3; simpl; [|discriminate].
    destruct (parseInt r3) as [[y r4]|] eqn:E4; simpl; [|discriminate].
    apply parseInt_length in E1. apply parseInt_length in E2.
    apply parseInt_length in E3. apply parseInt_length in E4.
    simpl. intros [= _ <-]. lia.
Qed.

(** On RSA and DSA keys [ParsePublicKey] returns or panics on every
    input. *)
Lemma ParsePublicKey_rsaDsa_total (inp : list byte) :
  ParsePublicKey inp <> NoFuel.
Proof. apply ParsePublicKey_total. apply rsaDsaParse_length. Qed.

(** A plain key comes back from its wire form. *)
Lemma ParsePublicKey_MarshalPublicKey_userKey :
  exists b,
    MarshalPublicKey userKey = Some b /\
    ParsePublicKey b = Ret (Triple (Some userKey) [] true).
Proof.
  let v := eval vm_compute in (MarshalPublicKey userKey) in
  match v with Some ?b => exists b end.
  split; reflexivity.
Qed.

(** A well-formed certificate, user or host, comes back from what
    [Marshal] writes, with nothing left. *)
Lemma parseOpenSSHCertV01_certMarshal_example :
  exists b1 b2,
    certMarshal (exampleCert UserCert) = Some b1 /\
    parseOpenSSHCertV01 b1 KeyAlgoRSA
    = Ret (Triple (Some (exampleCert UserCert)) [] true) /\
    certMarshal (exampleCert HostCert) = Some b2 /\
    parseOpenSSHCertV01 b2 KeyAlgoRSA
    = Ret (Triple (Some (exampleCert HostCert)) [] true).
Proof.
  let v := eval vm_compute in (certMarshal (exampleCert UserCert)) in
  match v with Some ?b => exists b end.
  let v := eval vm_compute in (certMarshal (exampleCert HostCert)) in
  match v with Some ?b => exists b end.
  repeat split; reflexivity.
Qed.

(** [badTypeBlob] is the wire form of the example certificate with 3 in
    its type field; with another algo argument than the private algorithm of
    its inner key it is refused with ok = false. *)
Lemma badTypeBlob_is_marshalled :
  certMarshal (exampleCert 3) = Some badTypeBlob /\
  parseOpenSSHCertV01 badTypeBlob KeyAlgoDSA = Ret (Triple None [] false).
Proof. split; reflexivity. Qed.

Lemma parseOpenSSHCertV01_bad_type_is_ok_witness :
  parseString badTypeBlob = Some ([x01; x02], skipn 6 badTypeBlob) /\
  ParsePublicKey (skipn 6 badTypeBlob)
  = Ret (Triple (Some userKey) (skipn 30 badTypeBlob) true) /\
  PrivateKeyAlgo userKey = Some KeyAlgoRSA /\
  parseUint64 (skipn 30 badTypeBlob) = Some (7, skipn 38 badTypeBlob) /\
  parseUint32 (skipn 38 badTypeBlob) = Some (3, skipn 42 badTypeBlob) /\
  3 <> UserCert /\ 3 <> HostCert /\
  parseOpenSSHCertV01 badTypeBlob KeyAlgoRSA = Ret (Triple None [] true).
Proof.
  assert (parseString badTypeBlob = Some ([x01; x02], skipn 6 badTypeBlob))
    as H1 by reflexivity.
  assert (ParsePublicKey (skipn 6 badTypeBlob)
          = Ret (Triple (Some userKey) (skipn 30 badTypeBlob) true))
    as H2 by reflexivity.
  assert (PrivateKeyAlgo userKey = Some KeyAlgoRSA) as H3 by reflexivity.
  assert (parseUint64 (skipn 30 badTypeBlob) = Some (7, skipn 38 badTypeBlob))
    as H4 by reflexivity.
  assert (parseUint32 (skipn 38 badTypeBlob) = Some (3, skipn 42 badTypeBlob))
    as H5 by reflexivity.
  assert (3 <> UserCert) as H6 by discriminate.
  assert (3 <> HostCert) as H7 by discriminate.
  split; [exact H1|]. split; [exact H2|]. split; [exact H3|].
  split; [exact H4|]. split; [exact H5|]. split; [exact H6|].
  split; [exact H7|].
  exact (parseOpenSSHCertV01_bad_type_is_ok ParsePublicKey badTypeBlob
           KeyAlgoRSA _ _ _ _ _ _ _ _ H1 H2 H3 H4 H5 H6 H7).
Defined.

Lemma MarshalPublicKey_cert_never_parsed_as_cert_witness :
  (forall k : rsaDsaKey, isCertAlgo (plainAlgo k) = false) /\
  (forall k : rsaDsaKey, slen (plainAlgo k) < 2 ^ 32) /\
  exists b,
    MarshalPublicKey (CertKey (exampleCert UserCert)) = Some b /\
    ParsePublicKey b
    <> Ret (Triple (Some (CertKey (exampleCert UserCert))) [] true).
Proof.
  assert (forall k : rsaDsaKey, isCertAlgo (plainAlgo k) = false) as H1
    by (intros k; apply rsaDsa_names_are_plain).
  assert (forall k : rsaDsaKey, slen (plainAlgo k) < 2 ^ 32) as H2
    by (intros k; apply rsaDsa_names_are_plain).
  split; [exact H1|]. split; [exact H2|].
  let v := eval vm_compute in
             (MarshalPublicKey (CertKey (exampleCert UserCert))) in
  match v with Some ?b => exists b end.
  match goal with
  | |- ?m = Some ?b /\ _ => assert (m = Some b) as Hb by reflexivity
  end.
  split; [exact Hb|].
  exact (MarshalPublicKey_cert_never_parsed_as_cert
           (exampleCert UserCert) (exampleCert UserCert) _ [] true
           _ H1 H2 Hb).
Defined.

(** On the example: [MarshalPublicKey] writes the private algorithm name
    "ssh-rsa" in front of a certificate for an RSA key, although the public
    algorithm name of the certificate is "ssh-rsa-cert-v01@openssh.com"; the
    parser then reads the bytes as a plain RSA key and leaves a rest, and does
    not return the certificate.  Under the public algorithm name the same blob
    is parsed to the certificate, with nothing left. *)
Lemma MarshalPublicKey_cert_comes_back_as_rsa :
  exists b blob k rest,
    MarshalPublicKey (CertKey (exampleCert UserCert)) = Some b /\
    certMarshal (exampleCert UserCert) = Some blob /\
    b = be32 (slen KeyAlgoRSA) ++ bytes KeyAlgoRSA ++ blob /\
    PublicKeyAlgo (CertKey (exampleCert UserCert)) = Some CertAlgoRSAv01 /\
    ParsePublicKey b = Ret (Triple (Some (PlainKey k)) rest true) /\
    rest <> [] /\
    ParsePublicKey b
    <> Ret (Triple (Some (CertKey (exampleCert UserCert))) [] true) /\
    ParsePublicKey (be32 (slen CertAlgoRSAv01) ++ bytes CertAlgoRSAv01 ++ blob)
    = Ret (Triple (Some (CertKey (exampleCert UserCert))) [] true).
Proof.
  let v := eval vm_compute in
             (MarshalPublicKey (CertKey (exampleCert UserCert))) in
  match v with Some ?b => exists b end.
  let v := eval vm_compute in (certMarshal (exampleCert UserCert)) in
  match v with Some ?b => exists b end.
  match goal with
  | |- exists k rest, _ /\ _ /\ _ /\ _ /\ ParsePublicKey ?b = _ /\ _ =>
      let v := eval vm_compute in (ParsePublicKey b) in
      match v with
      | Ret (Triple (Some (PlainKey ?k)) ?rest true) => exists k, rest
      end
  end.
  split; [reflexivity|].
  split; [reflexivity|].
  split; [reflexivity|].
  split; [reflexivity|].
  match goal with
  | |- ?parse = ?res /\ _ => assert (parse = res) as Hparse by reflexivity
  end.
  split; [exact Hparse|].
  split; [discriminate|].
  split; [rewrite Hparse; discriminate|].
  reflexivity.
Qed.

End CertsFacts.

(** ** The channel table and inbound channel-open *)

Module ClientFacts.

Import Wire.
Import Window.
Import Client.
Import WireFacts.

Lemma firstNil_bounds (chans : chanList) (k i : nat) :
  firstNil chans k = Some i -> (k <= i < k + length chans)%nat.
Proof.
  revert k. induction chans as [|[ch|] chans IH]; intros k H; simpl in *.
  - discriminate.
  - apply IH in H. lia.
  - injection H as <-. lia.
Qed.

(** The channel that [newChan] returns sits in the table at its index. *)
Lemma newChan_lookup (chans : chanList) :
  (newChan chans).1 !! (newChan chans).2
  = Some (Some (newClientChan (u32 (Z.of_nat (newChan chans).2)))).
Proof.
  unfold newChan. destruct (firstNil chans 0) as [i|] eqn:E; simpl.
  - apply firstNil_bounds in E. apply list_lookup_insert_eq. lia.
  - apply list_lookup_middle. reflexivity.
Qed.

Section Inbound.

Variable minPacketLength : Z.
Variable ParseIP : string -> option (list byte).

(** C1, on the code. An inbound forwarded-tcpip open whose max_packet_size
    is below the minimum, or above 2^31, is answered with the failure
    ConnectionFailed, and then processed all the same: when its addresses
    parse and the listening address is in the forward list, a channel is
    allocated, the confirmation is sent after the failure, and the channel is
    put on the queue of the forward. *)
Theorem handleChanOpen_goes_on_after_failure
  (c : ClientConn) (msg : channelOpenMsg)
  (la ra : TCPAddr) (rest rest' : list byte) (l : nat) :
  MaxPacketSize msg < minPacketLength \/ 2 ^ 31 < MaxPacketSize msg ->
  ChanType msg = "forwarded-tcpip"%string ->
  parseTCPAddr ParseIP (TypeSpecificData msg) = Some (la, rest) ->
  lookup (forwards c) la 0 = Some l ->
  parseTCPAddr ParseIP rest = Some (ra, rest') ->
  let c' := handleChanOpen minPacketLength ParseIP c msg in
  let i := (newChan (chans c)).2 in
  sent c'
  = sent c ++
    [channelOpenFailureMsg (PeersId msg) ConnectionFailed "invalid request"
                           "en_US.UTF-8";
     channelOpenConfirmMsg (PeersId msg) (u32 (Z.of_nat i))
                           (2 ^ 14) (2 ^ 15)] /\
  chans c' !! i
  = Some (Some (openedChan (newClientChan (u32 (Z.of_nat i))) msg)) /\
  forwards c' = enqueue (forwards c) l (Forward i ra).
Proof.
  intros Hsize Htype Hla Hl Hra. unfold handleChanOpen.
  assert ((MaxPacketSize msg <? minPacketLength)
          || (2 ^ 31 <? MaxPacketSize msg) = true) as ->.
  { apply orb_true_iff.
    destruct Hsize as [H|H]; [left|right]; apply Z.ltb_lt; exact H. }
  rewrite Htype, String.eqb_refl. simpl.
  rewrite Hla, Hl, Hra.
  pose proof (newChan_lookup (chans c)) as Hnew.
  destruct (newChan (chans c)) as [chs i]. simpl in *.
  split; [rewrite <- app_assoc; reflexivity|].
  split; [|reflexivity].
  unfold chanList in *. rewrite list_lookup_alter_eq, Hnew. reflexivity.
Qed.

(** At a max_packet_size of exactly 2^31 no failure is sent at all. *)
Lemma handleChanOpen_two_to_31 (c : ClientConn) (msg : channelOpenMsg) :
  minPacketLength <= 2 ^ 31 ->
  MaxPacketSize msg = 2 ^ 31 ->
  ChanType msg = "session"%string ->
  sent (handleChanOpen minPacketLength ParseIP c msg)
  = sent c ++
    [channelOpenFailureMsg (PeersId msg) UnknownChannelType
                           "unknown channel type: session" "en_US.UTF-8"].
Proof.
  intros Hmin Hsize Htype. unfold handleChanOpen.
  rewrite Hsize, Htype.
  destruct (Z.ltb_spec (2 ^ 31) minPacketLength) as [H|_]; [lia|].
  reflexivity.
Qed.

End Inbound.

Lemma handleChanOpen_goes_on_after_failure_witness :
  let c' := handleChanOpen 9 tableParseIP listening smallPacketOpen in
  let i := (newChan (chans listening)).2 in
  (MaxPacketSize smallPacketOpen < 9
   \/ 2 ^ 31 < MaxPacketSize smallPacketOpen) /\
  sent c'
  = sent listening ++
    [channelOpenFailureMsg (PeersId smallPacketOpen) ConnectionFailed
                           "invalid request" "en_US.UTF-8";
     channelOpenConfirmMsg (PeersId smallPacketOpen) (u32 (Z.of_nat i))
                           (2 ^ 14) (2 ^ 15)] /\
  chans c' !! i
  = Some (Some (openedChan (newClientChan (u32 (Z.of_nat i)))
                           smallPacketOpen)) /\
  forwards c'
  = enqueue (forwards listening) 0
            (Forward i (Addr (ipv4 x0a x00 x00 x02) 4242)).
Proof.
  assert (MaxPacketSize smallPacketOpen < 9
          \/ 2 ^ 31 < MaxPacketSize smallPacketOpen) as H1
    by (left; simpl; lia).
  split; [exact H1|].
  exact (handleChanOpen_goes_on_after_failure 9 tableParseIP
           listening smallPacketOpen
           (Addr (ipv4 x0a x00 x00 x01) 8080)
           (Addr (ipv4 x0a x00 x00 x02) 4242)
           (be32 8 ++ bytes "10.0.0.2" ++ be32 4242) [] 0%nat
           H1 eq_refl eq_refl eq_refl eq_refl).
Defined.

(** The whole connection after the open of the example: the failure and
    the confirmation are both sent, channel 0 is allocated and queued. *)
Lemma handleChanOpen_small_packet_run :
  handleChanOpen 9 tableParseIP listening smallPacketOpen
  = Conn [Some (ClientChan 0 7 (Win 1000) 0 [] [])]
         [Entry (Addr (ipv4 x0a x00 x00 x01) 8080)
                [Forward 0 (Addr (ipv4 x0a x00 x00 x02) 4242)]]
         [channelOpenFailureMsg 7 ConnectionFailed "invalid request"
                                "en_US.UTF-8";
          channelOpenConfirmMsg 7 0 16384 32768].
Proof. vm_compute. reflexivity. Qed.

(** C10. For every id below the length of the channel table [getChan]
    returns ok = true, also after [remove] has freed the slot: it then
    returns the nil channel with ok = true, and the turn of the demultiplexer
    loop on a channel-data packet for that id dereferences nil. *)
Theorem getChan_ok_on_freed_slot
  (chans : chanList) (id : Z) (payload : list byte) :
  len chans < 2 ^ 32 -> 0 <= id < len chans -> len payload < 2 ^ 32 ->
  (getChan chans id).2 = true /\
  exists chans',
    remove chans id = Some chans' /\
    len chans' = len chans /\
    getChan chans' id = (None, true) /\
    channelDataTurn chans'
      (msgChannelData :: be32 id ++ be32 (len payload) ++ payload)
    = NilDereference.
Proof.
  intros Hlen Hid Hpay. unfold len in *.
  assert (forall l : chanList, length l = length chans ->
            (u32 (Z.of_nat (length l)) <=? id) = false) as Hin.
  { intros l ->. unfold u32. rewrite Z.mod_small by lia.
    apply Z.leb_gt. lia. }
  split.
  { unfold getChan, Client.len. rewrite Hin by reflexivity. reflexivity. }
  exists (<[Z.to_nat id := None]> chans).
  assert (getChan (<[Z.to_nat id := None]> chans) id = (None, true)) as Hget.
  { unfold getChan, Client.len. rewrite Hin by apply length_insert.
    unfold chanList in *.
    rewrite list_lookup_insert_eq by lia. reflexivity. }
  split.
  { unfold remove, Client.len.
    destruct (Z.ltb_spec id (Z.of_nat (length chans))); [reflexivity|lia]. }
  split; [unfold Client.len, chanList; rewrite length_insert; reflexivity|].
  split; [exact Hget|].
  unfold channelDataTurn, Client.len.
  replace (skipn 9 (msgChannelData :: be32 id
                      ++ be32 (Z.of_nat (length payload)) ++ payload))
    with payload by reflexivity.
  replace (firstn 4 (skipn 1 (msgChannelData :: be32 id
                      ++ be32 (Z.of_nat (length payload)) ++ payload)))
    with (be32 id) by reflexivity.
  replace (firstn 4 (skipn 5 (msgChannelData :: be32 id
                      ++ be32 (Z.of_nat (length payload)) ++ payload)))
    with (be32 (Z.of_nat (length payload))) by reflexivity.
  rewrite !beZ_be32 by lia.
  destruct (Z.ltb_spec
              (Z.of_nat (length (msgChannelData :: be32 id
                 ++ be32 (Z.of_nat (length payload)) ++ payload))) 9)
    as [Hshort|_].
  { simpl in Hshort. lia. }
  unfold u32. rewrite Z.mod_small by lia. rewrite Z.eqb_refl. simpl.
  unfold Client.len in Hget. rewrite Hget. reflexivity.
Qed.

Lemma getChan_ok_on_freed_slot_witness :
  (getChan [Some (newClientChan 0); Some (newClientChan 1)] 1).2 = true /\
  exists chans',
    remove [Some (newClientChan 0); Some (newClientChan 1)] 1 = Some chans' /\
    len chans' = len [Some (newClientChan 0); Some (newClientChan 1)] /\
    getChan chans' 1 = (None, true) /\
    channelDataTurn chans'
      (msgChannelData :: be32 1 ++ be32 (len [x68; x69]) ++ [x68; x69])
    = NilDereference.
Proof.
  apply (getChan_ok_on_freed_slot
           [Some (newClientChan 0); Some (newClientChan 1)] 1 [x68; x69]).
  - vm_compute. reflexivity.
  - split; [lia|vm_compute; reflexivity].
  - vm_compute. reflexivity.
Defined.

End ClientFacts.

(** ** Marshallers as writers of bytes *)

Module EncodingFacts.

Import Wire.
Import Certs.
Import Encoding.
Import WireFacts.

Lemma writes_put (b : list byte) : writes (fun to => put to b) b.
Proof. intros w r. apply put_fits. Qed.

Lemma writes_marshalUint32 (n : Z) :
  writes (fun to => marshalUint32 to n) (be32 n).
Proof. apply writes_put. Qed.

Lemma writes_marshalUint64 (n : Z) :
  writes (fun to => marshalUint64 to n) (be64 n).
Proof. apply writes_put. Qed.

Lemma writes_marshalString (s : list byte) :
  writes (fun to => marshalString to s) (stringBytes s).
Proof. apply writes_put. Qed.

(** One marshaller after the other writes the bytes of the first and then
    those of the second. *)
Lemma writes_then (m1 m2 : slice -> option slice) (b1 b2 : list byte) :
  writes m1 b1 -> writes m2 b2 ->
  writes (fun to => m1 to ≫= m2) (b1 ++ b2).
Proof.
  intros H1 H2 w r.
  rewrite length_app, repeat_app, <- app_assoc, H1. simpl.
  rewrite H2, <- app_assoc. reflexivity.
Qed.

(** A buffer made for the bytes of a marshaller is full after it. *)
Lemma make_writes (m : slice -> option slice) (b : list byte) (length : Z) :
  writes m b -> Z.to_nat length = List.length b ->
  m (make length) = Some (Slice b []).
Proof.
  intros Hm Hlen. unfold make. rewrite Hlen.
  rewrite <- (app_nil_r (repeat x00 (List.length b))).
  apply (Hm [] []).
Qed.

Lemma length_stringBytes (s : list byte) :
  length (stringBytes s) = (4 + length s)%nat.
Proof. unfold stringBytes. rewrite length_app, length_be32. reflexivity. Qed.

Lemma length_be64 (n : Z) : length (be64 n) = 8%nat.
Proof. reflexivity. Qed.

Lemma parseString_stringBytes (s rest : list byte) :
  len s < 2 ^ 32 -> parseString (stringBytes s ++ rest) = Some (s, rest).
Proof.
  intros Hs. unfold stringBytes, len. rewrite <- app_assoc.
  apply parseString_be32. exact Hs.
Qed.

(** The value of big-endian bytes, piece by piece. *)
Lemma beZ_app (a b : list byte) :
  beZ (a ++ b) = beZ a * 256 ^ Z.of_nat (length b) + beZ b.
Proof.
  unfold beZ. rewrite fold_left_app. generalize (fold_left
    (fun acc x => acc * 256 + Z_of_byte x) a 0) as v.
  induction b as [|x b IH] using rev_ind; intros v.
  - simpl. lia.
  - rewrite !fold_left_app. simpl. rewrite IH.
    rewrite length_app. simpl length.
    rewrite Nat2Z.inj_add, Z.pow_add_r by lia. simpl (Z.of_nat 1).
    assert (fold_left (fun acc x0 => acc * 256 + Z_of_byte x0) b 0
            = beZ b) as -> by reflexivity.
    lia.
Qed.

Lemma beZ_range (b : list byte) : 0 <= beZ b < 256 ^ Z.of_nat (length b).
Proof.
  induction b as [|x b IH] using rev_ind.
  - simpl. unfold beZ. simpl. lia.
  - rewrite beZ_app, length_app. simpl length.
    rewrite Nat2Z.inj_add, Z.pow_add_r by lia.
    assert (beZ [x] = Z_of_byte x) as -> by (unfold beZ; simpl; lia).
    pose proof (Z_of_byte_range x). simpl (Z.of_nat 1).
    change (256 ^ 1) with 256. nia.
Qed.

Lemma beZ_be32_mod (n : Z) : beZ (be32 n) = n mod 2 ^ 32.
Proof.
  unfold beZ, be32. simpl fold_left.
  rewrite !Z_of_byte_of_Z, !Z.shiftr_div_pow2 by lia.
  change (2 ^ 24) with 16777216. change (2 ^ 16) with 65536.
  change (2 ^ 8) with 256. change (2 ^ 32) with 4294967296.
  Z.div_mod_to_equations. lia.
Qed.

Lemma beZ_be64 (n : Z) : 0 <= n < 2 ^ 64 -> beZ (be64 n) = n.
Proof.
  intros Hn. unfold be64. rewrite beZ_app, !beZ_be32_mod, length_be32.
  rewrite Z.shiftr_div_pow2 by lia.
  change (256 ^ Z.of_nat 4) with (2 ^ 32).
  change (2 ^ 64) with (2 ^ 32 * 2 ^ 32) in Hn.
  rewrite (Z.mod_small (n / 2 ^ 32)).
  2:{ split; [apply Z.div_pos; lia|apply Z.div_lt_upper_bound; lia]. }
  pose proof (Z.div_mod n (2 ^ 32)). lia.
Qed.

Lemma parseUint64_be64 (n : Z) (rest : list byte) :
  0 <= n < 2 ^ 64 -> parseUint64 (be64 n ++ rest) = Some (n, rest).
Proof.
  intros Hn. unfold parseUint64.
  replace (firstn 8 (be64 n ++ rest)) with (be64 n) by reflexivity.
  replace (skipn 8 (be64 n ++ rest)) with rest by reflexivity.
  rewrite length_app, length_be64, beZ_be64 by exact Hn. reflexivity.
Qed.

End EncodingFacts.

(** ** More on the window, the negotiation and the key exchange *)

Module HandshakeFacts.

Import Window.
Import Kex.
Import Handshake.
Import WindowFacts.
Import KexFacts.

(** X1. Giving back what [reserve] granted restores the window: on a
    non-empty window, reserve(request) followed by add(granted) succeeds and
    leaves the counter where it was. *)
Theorem reserve_then_add_restores (w : window) (request : Z) :
  wf w -> 0 <= request < 2 ^ 32 -> win w <> 0 ->
  exists granted w',
    reserve w request = Granted granted w' /\
    add w' granted = (true, w).
Proof.
  intros Hw Hr Hnz. unfold wf in Hw.
  exists (Z.min request (win w)), (Win (win w - Z.min request (win w))).
  split; [apply reserve_nonempty; assumption|].
  destruct (Z.eq_dec (Z.min request (win w)) 0) as [Hz|Hpos].
  - rewrite Hz, Z.sub_0_r. destruct w. reflexivity.
  - rewrite add_fits; [|unfold wf; simpl; lia|lia|simpl; lia].
    simpl. replace (win w - Z.min request (win w) + Z.min request (win w))
      with (win w) by lia.
    destruct w. reflexivity.
Qed.

Lemma reserve_then_add_restores_witness :
  exists granted w',
    reserve (Win 9) 4 = Granted granted w' /\
    add w' granted = (true, Win 9).
Proof.
  apply (reserve_then_add_restores (Win 9) 4).
  - unfold wf. simpl. lia.
  - lia.
  - simpl. lia.
Defined.

Section CipherTable.

Variable cipherMode : Type.
Variable cipherModes : gmap string cipherMode.

Lemma serverHasCipher_serverHas (a : string) (serverCiphers : list string) :
  serverHasCipher cipherModes a serverCiphers
  = serverHas a serverCiphers && hasCipherMode cipherModes a.
Proof.
  induction serverCiphers as [|b l IH]; simpl; [reflexivity|].
  destruct (String.eqb a b); simpl.
  - destruct (hasCipherMode cipherModes a); [reflexivity|].
    rewrite IH. apply andb_false_r.
  - exact IH.
Qed.

(** X2. Negotiating a cipher is negotiating an algorithm among the
    client's ciphers that the local cipher-mode table knows:
    [findCommonCipher] gives what [findCommonAlgorithm] gives on the
    client's list without the ciphers that have no table entry. *)
Theorem findCommonCipher_filters_client (clientCiphers serverCiphers : list string) :
  findCommonCipher cipherModes clientCiphers serverCiphers
  = findCommonAlgorithm
      (List.filter (hasCipherMode cipherModes) clientCiphers) serverCiphers.
Proof.
  induction clientCiphers as [|c l IH]; simpl; [reflexivity|].
  rewrite serverHasCipher_serverHas.
  destruct (hasCipherMode cipherModes c); simpl.
  - rewrite andb_true_r. destruct (serverHas c serverCiphers);
      [reflexivity|exact IH].
  - rewrite andb_false_r. exact IH.
Qed.

(** X3. After a successful negotiation the test on the guessed key
    exchange packet cannot panic: the server's list of key exchanges has a
    first entry, and a packet is discarded exactly when the server announced a
    guess and that first entry is not the agreed algorithm. *)
Theorem guessIsWrong_after_negotiation
  (t : transport) (c s : kexInitMsg) :
  let res := findAgreedAlgorithms cipherModes t c s in
  ok res.2 = true ->
  exists first rest,
    KexAlgos s = first :: rest /\
    guessIsWrong s (kexAlgo res.2)
    = Some (FirstKexFollows s && negb (String.eqb (kexAlgo res.2) first)).
Proof.
  intros res Hok. subst res.
  pose proof (findAgreedAlgorithms_cases cipherMode cipherModes t c s)
    as Hcases.
  destruct (findAgreedAlgorithms cipherModes t c s) as [t' r]. simpl in *.
  destruct Hcases as [[_ Hall]|[Hno _]]; [|congruence].
  destruct Hall as ((pre & post & _ & Hin & _) & _).
  destruct (KexAlgos s) as [|first rest] eqn:Hs; [destruct Hin|].
  exists first, rest. split; [reflexivity|].
  unfold guessIsWrong. rewrite Hs.
  destruct (FirstKexFollows s); reflexivity.
Qed.

Lemma chooseKex_supported (a : string) :
  In a supportedKexAlgos ->
  exists choice,
    chooseKex a = choice /\
    match choice with UnexpectedKex _ => False | _ => True end.
Proof.
  intros [<-|[<-|[<-|[<-|[<-|[]]]]]]; eexists; split;
    try reflexivity; exact I.
Qed.

(** X4. When the client offers only the supported key exchanges, a
    successful negotiation never ends in the default case of the switch of
    the handshake ("unexpected key exchange algorithm"): the agreed algorithm
    selects an elliptic curve or a Diffie-Hellman group. *)
Theorem chooseKex_after_negotiation
  (t : transport) (c s : kexInitMsg) :
  (forall a, In a (KexAlgos c) -> In a supportedKexAlgos) ->
  let res := findAgreedAlgorithms cipherModes t c s in
  ok res.2 = true ->
  (exists bits, chooseKex (kexAlgo res.2) = ECDH bits)
  \/ (exists group, chooseKex (kexAlgo res.2) = DH group).
Proof.
  intros Hsup res Hok. subst res.
  pose proof (findAgreedAlgorithms_cases cipherMode cipherModes t c s)
    as Hcases.
  destruct (findAgreedAlgorithms cipherModes t c s) as [t' r]. simpl in *.
  destruct Hcases as [[_ Hall]|[Hno _]]; [|congruence].
  destruct Hall as ((pre & post & Hc & _) & _).
  assert (In (kexAlgo r) supportedKexAlgos) as Hin.
  { apply Hsup. rewrite Hc. apply in_or_app. right. left. reflexivity. }
  destruct (chooseKex_supported _ Hin) as (choice & Heq & Hgood).
  rewrite Heq. destruct choice as [bits|group|msg];
    [left; eauto|right; eauto|destruct Hgood].
Qed.

End CipherTable.

Lemma guessIsWrong_after_negotiation_witness :
  let cipherModes : gmap string unit := {[ "aes128-ctr"%string := tt ]} in
  let t := Transport (Direction "" "" "") (Direction "" "" "") in
  let c := KexInit [kexAlgoECDH256; kexAlgoDH14SHA1] ["ssh-rsa"]%string
                   ["aes128-ctr"]%string ["aes128-ctr"]%string
                   ["hmac-sha1"]%string ["hmac-sha1"]%string
                   ["none"]%string ["none"]%string false in
  let s := KexInit [kexAlgoDH14SHA1; kexAlgoECDH256] ["ssh-rsa"]%string
                   ["aes128-ctr"]%string ["aes128-ctr"]%string
                   ["hmac-sha1"]%string ["hmac-sha1"]%string
                   ["none"]%string ["none"]%string true in
  exists first rest,
    KexAlgos s = first :: rest /\
    guessIsWrong s (kexAlgo (findAgreedAlgorithms cipherModes t c s).2)
    = Some (FirstKexFollows s
            && negb (String.eqb
                       (kexAlgo (findAgreedAlgorithms cipherModes t c s).2)
                       first)).
Proof.
  intros cipherModes t c s.
  apply (guessIsWrong_after_negotiation unit cipherModes t c s).
  vm_compute. reflexivity.
Defined.

Lemma chooseKex_after_negotiation_witness :
  let cipherModes : gmap string unit := {[ "aes128-ctr"%string := tt ]} in
  let t := Transport (Direction "" "" "") (Direction "" "" "") in
  let c := KexInit [kexAlgoECDH256; kexAlgoDH14SHA1] ["ssh-rsa"]%string
                   ["aes128-ctr"]%string ["aes128-ctr"]%string
                   ["hmac-sha1"]%string ["hmac-sha1"]%string
                   ["none"]%string ["none"]%string false in
  let s := KexInit [kexAlgoDH14SHA1; kexAlgoECDH256] ["ssh-rsa"]%string
                   ["aes128-ctr"]%string ["aes128-ctr"]%string
                   ["hmac-sha1"]%string ["hmac-sha1"]%string
                   ["none"]%string ["none"]%string true in
  (exists bits,
     chooseKex (kexAlgo (findAgreedAlgorithms cipherModes t c s).2)
     = ECDH bits)
  \/ (exists group,
        chooseKex (kexAlgo (findAgreedAlgorithms cipherModes t c s).2)
        = DH group).
Proof.
  intros cipherModes t c s.
  apply (chooseKex_after_negotiation unit cipherModes t c s).
  - intros a [<-|[<-|[]]]; vm_compute; tauto.
  - vm_compute. reflexivity.
Defined.

(** The public value of the key exchange is g^x mod p. *)
Lemma dhPublic_pow (group : dhGroup) (x : Z) :
  0 <= x -> 1 < p group ->
  dhPublic group x = g group ^ x mod p group.
Proof.
  intros Hx Hp. unfold dhPublic, bigExp.
  destruct (Z.leb_spec x 0) as [Hle|Hgt].
  - assert (x = 0) as -> by lia. rewrite Z.pow_0_r.
    symmetry. apply Z.mod_small. lia.
  - destruct (Z.eqb_spec (p group) 0) as [H0|_]; [lia|].
    rewrite Z.abs_eq by lia. reflexivity.
Qed.

(** X5. Diffie-Hellman agreement: when each side runs [diffieHellman] on
    the public value that the other side computed as in [kexDH], with its own
    secret exponent, and both calls succeed, the two sides hold the same
    shared secret. *)
Theorem diffieHellman_agrees (group : dhGroup) (x y k1 k2 : Z) :
  0 <= x -> 0 <= y ->
  diffieHellman group (dhPublic group y) x = DhOk k1 ->
  diffieHellman group (dhPublic group x) y = DhOk k2 ->
  k1 = k2.
Proof.
  intros Hx Hy H1 H2. unfold diffieHellman in H1, H2.
  destruct (Z.leb_spec (Z.sgn (dhPublic group y)) 0) as [|Hs1];
    [discriminate|].
  destruct (Z.leb_spec (p group) (dhPublic group y)) as [|Hp1];
    [discriminate|].
  destruct (Z.leb_spec (Z.sgn (dhPublic group x)) 0) as [|Hs2];
    [discriminate|].
  destruct (Z.leb_spec (p group) (dhPublic group x)) as [|Hp2];
    [discriminate|].
  simpl in H1, H2. injection H1 as <-. injection H2 as <-.
  assert (0 < dhPublic group y) as Hy0
    by (pose proof (Z.sgn_pos_iff (dhPublic group y)); lia).
  assert (0 < dhPublic group x) as Hx0
    by (pose proof (Z.sgn_pos_iff (dhPublic group x)); lia).
  assert (1 < p group) as Hp by lia.
  rewrite !bigExp_pow by lia.
  rewrite !dhPublic_pow by lia.
  rewrite <- !Zpower_mod by lia.
  rewrite <- !Z.pow_mul_r by lia.
  rewrite (Z.mul_comm y x). reflexivity.
Qed.

Lemma diffieHellman_agrees_witness :
  0 <= 5 /\ 0 <= 7 /\
  diffieHellman (DhGroup 2 23) (dhPublic (DhGroup 2 23) 7) 5 = DhOk 4 /\
  diffieHellman (DhGroup 2 23) (dhPublic (DhGroup 2 23) 5) 7 = DhOk 4 /\
  4 = 4.
Proof.
  assert (0 <= 5) as Hx by lia.
  assert (0 <= 7) as Hy by lia.
  assert (diffieHellman (DhGroup 2 23) (dhPublic (DhGroup 2 23) 7) 5
          = DhOk 4) as H1 by reflexivity.
  assert (diffieHellman (DhGroup 2 23) (dhPublic (DhGroup 2 23) 5) 7
          = DhOk 4) as H2 by reflexivity.
  split; [exact Hx|]. split; [exact Hy|].
  split; [exact H1|]. split; [exact H2|].
  exact (diffieHellman_agrees (DhGroup 2 23) 5 7 4 4 Hx Hy H1 H2).
Defined.

End HandshakeFacts.

(** ** Signatures, signed data and strings *)

Module CommonFacts.

Import Wire.
Import Certs.
Import Encoding.
Import Common.
Import WireFacts.
Import EncodingFacts.

Lemma bytes_str (b : list byte) : bytes (str b) = b.
Proof. apply list_byte_of_string_of_list_byte. Qed.

Lemma safeByte_harmless (c : byte) : harmless (safeByte c).
Proof.
  unfold safeByte, harmless.
  destruct (Z.ltb_spec (Z_of_byte c) 32) as [Hlt|Hge]; simpl; [|lia].
  destruct (Z.eqb_spec (Z_of_byte c) 13); simpl; [lia|].
  destruct (Z.eqb_spec (Z_of_byte c) 10); simpl; [lia|].
  destruct (Z.eqb_spec (Z_of_byte c) 9); simpl; [lia|].
  left. vm_compute. discriminate.
Qed.

Lemma safeByte_keeps (c : byte) : harmless c -> safeByte c = c.
Proof.
  unfold safeByte, harmless. intros H.
  destruct (Z.ltb_spec (Z_of_byte c) 32) as [Hlt|Hge]; simpl;
    [|reflexivity].
  destruct (Z.eqb_spec (Z_of_byte c) 13); simpl; [reflexivity|].
  destruct (Z.eqb_spec (Z_of_byte c) 10); simpl; [reflexivity|].
  destruct (Z.eqb_spec (Z_of_byte c) 9); simpl; [reflexivity|].
  lia.
Qed.

(** X6. [safeString] keeps the length of the string and every byte that
    is no control character or is a tab, a line feed or a carriage return;
    its result holds no other byte, and sanitising twice is sanitising once. *)
Theorem safeString_sanitises (s : string) :
  String.length (safeString s) = String.length s /\
  Forall harmless (bytes (safeString s)) /\
  (Forall harmless (bytes s) -> safeString s = s) /\
  safeString (safeString s) = safeString s.
Proof.
  unfold safeString.
  assert (forall l, Forall harmless l -> map safeByte l = l) as Hkeep.
  { intros l Hl. induction Hl as [|c l Hc _ IH]; simpl; [reflexivity|].
    rewrite safeByte_keeps, IH by exact Hc. reflexivity. }
  assert (forall l, Forall harmless (map safeByte l)) as Hall.
  { intros l. induction l as [|c l IH]; simpl; constructor;
      [apply safeByte_harmless|exact IH]. }
  split.
  { rewrite <- !length_bytes, bytes_str, length_map. reflexivity. }
  split; [rewrite bytes_str; apply Hall|].
  split.
  { intros Hs. rewrite Hkeep by exact Hs. apply str_bytes. }
  rewrite bytes_str, (Hkeep _ (Hall _)). reflexivity.
Qed.

Lemma safeString_sanitises_witness :
  String.length (safeString "ab") = String.length "ab" /\
  Forall harmless (bytes (safeString "ab")) /\
  (Forall harmless (bytes "ab") -> safeString "ab" = "ab"%string) /\
  safeString (safeString "ab") = safeString "ab".
Proof. exact (safeString_sanitises "ab"). Defined.

(** [serializeSignature] fills its buffer with the two byte strings. *)
Lemma serializeSignature_bytes (name : string) (sig : list byte) :
  serializeSignature name sig
  = Some (stringBytes (bytes name) ++ stringBytes sig).
Proof.
  unfold serializeSignature.
  pose proof (make_writes _ _
                (stringLength (slen name) + stringLength (len sig))
                (writes_then _ _ _ _ (writes_marshalString (bytes name))
                                     (writes_marshalString sig))) as H.
  simpl in H.
  destruct (marshalString (make (stringLength (slen name)
                                 + stringLength (len sig))) (bytes name))
    as [r|] eqn:E1; simpl in *.
  - rewrite H; [unfold whole; simpl; rewrite app_nil_r; reflexivity|].
    rewrite length_app, !length_stringBytes, length_bytes.
    unfold stringLength, slen, len. lia.
  - exfalso. assert (None = Some (Slice (stringBytes (bytes name)
                                          ++ stringBytes sig) [])) as Habs.
    { apply H. rewrite length_app, !length_stringBytes, length_bytes.
      unfold stringLength, slen, len. lia. }
    discriminate.
Qed.

(** X7. What [serializeSignature] writes for a format name and a blob
    (each shorter than 2^32 bytes), [parseSignatureBody] reads back as that
    signature, with nothing left and ok = true. *)
Theorem parseSignatureBody_serializeSignature (name : string)
  (sig : list byte) :
  slen name < 2 ^ 32 -> len sig < 2 ^ 32 ->
  exists b,
    serializeSignature name sig = Some b /\
    parseSignatureBody b = Triple (Some (Sig name sig)) [] true.
Proof.
  intros Hname Hsig.
  exists (stringBytes (bytes name) ++ stringBytes sig).
  split; [apply serializeSignature_bytes|].
  unfold parseSignatureBody.
  rewrite parseString_stringBytes
    by (unfold len; rewrite length_bytes; exact Hname).
  rewrite <- (app_nil_r (stringBytes sig)).
  rewrite parseString_stringBytes by exact Hsig.
  rewrite str_bytes. reflexivity.
Qed.

Lemma parseSignatureBody_serializeSignature_witness :
  slen "ssh-rsa" < 2 ^ 32 /\ len [x05; x06] < 2 ^ 32 /\
  exists b,
    serializeSignature "ssh-rsa" [x05; x06] = Some b /\
    parseSignatureBody b = Triple (Some (Sig "ssh-rsa" [x05; x06])) [] true.
Proof.
  assert (slen "ssh-rsa" < 2 ^ 32) as H1 by reflexivity.
  assert (len [x05; x06] < 2 ^ 32) as H2 by reflexivity.
  split; [exact H1|]. split; [exact H2|].
  exact (parseSignatureBody_serializeSignature "ssh-rsa" [x05; x06] H1 H2).
Defined.

(** X8. [buildDataSignedForAuth] never runs over or short of the buffer
    that it sizes beforehand, and the data to sign are, in this order: the
    session id, the byte 50, the user, the service and the method, the byte
    1, the algorithm and the public key, each but the two bytes as a byte
    string with its length. *)
Theorem buildDataSignedForAuth_layout (sessionId : list byte)
  (req : userAuthRequestMsg) (algo pubKey : list byte) :
  buildDataSignedForAuth sessionId req algo pubKey
  = Some (stringBytes sessionId ++ [msgUserAuthRequest]
          ++ stringBytes (bytes (User req))
          ++ stringBytes (bytes (Service req))
          ++ stringBytes (bytes (Method req))
          ++ [x01]
          ++ stringBytes algo ++ stringBytes pubKey).
Proof.
  unfold buildDataSignedForAuth.
  set (length := stringLength (len sessionId) + 1
                 + stringLength (len (bytes (User req)))
                 + stringLength (len (bytes (Service req)))
                 + stringLength (len (bytes (Method req))) + 1
                 + stringLength (len algo) + stringLength (len pubKey)).
  pose proof
    (make_writes _ _ length
       (writes_then _ _ _ _ (writes_marshalString sessionId)
       (writes_then _ _ _ _ (writes_put [msgUserAuthRequest])
       (writes_then _ _ _ _ (writes_marshalString (bytes (User req)))
       (writes_then _ _ _ _ (writes_marshalString (bytes (Service req)))
       (writes_then _ _ _ _ (writes_marshalString (bytes (Method req)))
       (writes_then _ _ _ _ (writes_put [x01])
       (writes_then _ _ _ _ (writes_marshalString algo)
                            (writes_marshalString pubKey))))))))) as H.
  assert (Z.to_nat length
          = List.length
              (stringBytes sessionId ++ [msgUserAuthRequest]
               ++ stringBytes (bytes (User req))
               ++ stringBytes (bytes (Service req))
               ++ stringBytes (bytes (Method req))
               ++ [x01] ++ stringBytes algo ++ stringBytes pubKey)) as Hlen.
  { rewrite !length_app, !length_stringBytes. simpl List.length.
    unfold length, stringLength, len. lia. }
  specialize (H Hlen). cbv beta in H.
  destruct (marshalString (make length) sessionId) as [r1|];
    [|discriminate]. simpl in *.
  destruct (put r1 [msgUserAuthRequest]) as [r2|]; [|discriminate].
  simpl in *.
  destruct (marshalString r2 (bytes (User req))) as [r3|]; [|discriminate].
  simpl in *.
  destruct (marshalString r3 (bytes (Service req))) as [r4|];
    [|discriminate]. simpl in *.
  destruct (marshalString r4 (bytes (Method req))) as [r5|];
    [|discriminate]. simpl in *.
  destruct (put r5 [x01]) as [r6|]; [|discriminate]. simpl in *.
  destruct (marshalString r6 algo) as [r7|]; [|discriminate]. simpl in *.
  rewrite H. unfold whole. simpl. rewrite app_nil_r. reflexivity.
Qed.

(** X9. What the append functions add to a buffer is read back by the
    parsers: after [appendU32] comes the number (a uint32), after
    [appendInt] the number modulo 2^32, after [appendString] the string
    (shorter than 2^32 bytes), each followed by the rest. *)
Theorem append_then_parse (buf rest : list byte) (n : Z) (s : string) :
  0 <= n < 2 ^ 32 -> slen s < 2 ^ 32 ->
  parseUint32 (skipn (length buf) (appendU32 buf n) ++ rest)
  = Some (n, rest) /\
  (forall i : Z,
     parseUint32 (skipn (length buf) (appendInt buf i) ++ rest)
     = Some (i mod 2 ^ 32, rest)) /\
  parseString (skipn (length buf) (appendString buf s) ++ rest)
  = Some (bytes s, rest).
Proof.
  intros Hn Hs.
  assert (forall m, appendU32 buf m = buf ++ be32 m) as Hu32
    by reflexivity.
  split; [|split].
  - rewrite Hu32, drop_app_length. apply parseUint32_be32. exact Hn.
  - intros i. unfold appendInt. rewrite Hu32, drop_app_length.
    apply parseUint32_be32. unfold u32. apply Z.mod_pos_bound. lia.
  - unfold appendString. rewrite Hu32, <- app_assoc, drop_app_length.
    unfold u32. rewrite Z.mod_small by (unfold slen in *; lia).
    unfold slen. rewrite <- length_bytes, <- app_assoc.
    apply parseString_be32. rewrite length_bytes. exact Hs.
Qed.

Lemma append_then_parse_witness :
  0 <= 300 < 2 ^ 32 /\ slen "none" < 2 ^ 32 /\
  parseUint32 (skipn (length [x07]) (appendU32 [x07] 300) ++ [x09])
  = Some (300, [x09]) /\
  (forall i : Z,
     parseUint32 (skipn (length [x07]) (appendInt [x07] i) ++ [x09])
     = Some (i mod 2 ^ 32, [x09])) /\
  parseString (skipn (length [x07]) (appendString [x07] "none") ++ [x09])
  = Some (bytes "none", [x09]).
Proof.
  assert (0 <= 300 < 2 ^ 32) as H1 by lia.
  assert (slen "none" < 2 ^ 32) as H2 by reflexivity.
  split; [exact H1|]. split; [exact H2|].
  exact (append_then_parse [x07] [x09] 300 "none" H1 H2).
Defined.

End CommonFacts.

(** ** The codec of certs.go in general *)

Module CertCodecFacts.

Import Wire.
Import Certs.
Import Encoding.
Import WireFacts.
Import EncodingFacts.
Import CertsFacts.

Lemma u32_below (z : Z) : 0 <= z < 2 ^ 32 -> u32 z = z.
Proof. intros H. unfold u32. apply Z.mod_small. exact H. Qed.

Lemma len_nonneg {A} (l : list A) : 0 <= len l.
Proof. unfold len. lia. Qed.

(** *** Name lists *)

Lemma writes_marshalNames (namelist : list string) :
  writes (fun to => marshalNames to namelist) (nameListPayload namelist).
Proof. intros w r. apply marshalNames_fits. Qed.

Lemma writes_nameList (namelist : list string) :
  writes (fun to => marshalLengthPrefixedNameList to namelist)
         (prefixed (nameListPayload namelist)).
Proof.
  intros w r. unfold marshalLengthPrefixedNameList.
  rewrite lengthPrefixedNameListLength_payload.
  replace (4 + Z.of_nat (length (nameListPayload namelist)) - 4)
    with (len (nameListPayload namelist)) by (unfold len; lia).
  pose proof (writes_then _ _ _ _
                (writes_marshalUint32 (u32 (len (nameListPayload namelist))))
                (writes_marshalNames namelist) w r) as H.
  cbv beta in H. unfold prefixed.
  destruct (marshalUint32 _ _) as [to|]; simpl in H; [exact H|discriminate].
Qed.

Lemma parseNames_step (fuel : nat) (body : list byte) (out : list string) :
  body <> [] ->
  parseNames (S fuel) body out
  = match parseString body with
    | None => None
    | Some (next, body) => parseNames fuel body (out ++ [str next])
    end.
Proof. destruct body; [congruence|reflexivity]. Qed.

Lemma parseNames_payload (namelist out : list string) (fuel : nat) :
  Forall (fun name => slen name < 2 ^ 32) namelist ->
  (length (nameListPayload namelist) <= fuel)%nat ->
  parseNames fuel (nameListPayload namelist) out = Some (out ++ namelist).
Proof.
  intros Hshort. revert out fuel.
  induction Hshort as [|name rest Hname _ IH]; intros out fuel Hfuel.
  - destruct fuel; simpl; rewrite app_nil_r; reflexivity.
  - rewrite nameListPayload_cons in *.
    rewrite !length_app, length_be32 in Hfuel.
    destruct fuel as [|fuel]; [lia|].
    rewrite parseNames_step.
    2:{ intros Habs. apply (f_equal (@length byte)) in Habs.
        rewrite !length_app, length_be32 in Habs. simpl in Habs. lia. }
    unfold slen in *. rewrite <- length_bytes, <- app_assoc.
    rewrite parseString_be32 by (rewrite length_bytes; exact Hname).
    rewrite str_bytes, IH by lia. rewrite <- app_assoc. reflexivity.
Qed.

Lemma parseNameList_prefixed (namelist : list string) (rest : list byte) :
  shortNames namelist ->
  parseLengthPrefixedNameList (prefixed (nameListPayload namelist) ++ rest)
  = Some (namelist, rest).
Proof.
  intros [Hshort Hlen]. unfold parseLengthPrefixedNameList, prefixed.
  rewrite u32_below by (split; [apply len_nonneg|exact Hlen]).
  fold (stringBytes (nameListPayload namelist)).
  rewrite parseString_stringBytes by exact Hlen.
  rewrite parseNames_payload by (assumption || lia). reflexivity.
Qed.

(** X10. A name list comes back from its wire form: in a buffer of
    [lengthPrefixedNameListLength] bytes [marshalLengthPrefixedNameList]
    writes, without a byte to spare, what [parseLengthPrefixedNameList]
    reads as the same names in the same order, followed by whatever comes
    after (every name and the whole list shorter than 2^32 bytes). *)
Theorem parseLengthPrefixedNameList_marshal (namelist : list string)
  (rest : list byte) :
  shortNames namelist ->
  exists b,
    marshalLengthPrefixedNameList
      (make (lengthPrefixedNameListLength namelist)) namelist
    = Some (Slice b []) /\
    parseLengthPrefixedNameList (b ++ rest) = Some (namelist, rest).
Proof.
  intros Hshort. exists (prefixed (nameListPayload namelist)).
  split; [|apply parseNameList_prefixed; exact Hshort].
  apply (make_writes _ _ _ (writes_nameList namelist)).
  rewrite lengthPrefixedNameListLength_payload.
  unfold prefixed. rewrite length_app, length_be32. lia.
Qed.

Lemma parseLengthPrefixedNameList_marshal_witness :
  shortNames ["root"; ""; "ops"]%string /\
  exists b,
    marshalLengthPrefixedNameList
      (make (lengthPrefixedNameListLength ["root"; ""; "ops"]%string))
      ["root"; ""; "ops"]%string
    = Some (Slice b []) /\
    parseLengthPrefixedNameList (b ++ [x07])
    = Some (["root"; ""; "ops"]%string, [x07]).
Proof.
  assert (shortNames ["root"; ""; "ops"]%string) as H.
  { split; [repeat constructor|reflexivity]. }
  split; [exact H|].
  exact (parseLengthPrefixedNameList_marshal
           ["root"; ""; "ops"]%string [x07] H).
Defined.

(** A byte string cut short is refused. *)
Lemma parseString_truncated (s : list byte) (k : nat) :
  len s < 2 ^ 32 -> (k < length (stringBytes s))%nat ->
  parseString (firstn k (stringBytes s)) = None.
Proof.
  intros Hs Hk. rewrite length_stringBytes in Hk.
  unfold parseString, parseUint32.
  destruct (Nat.ltb_spec (length (firstn k (stringBytes s))) 4)
    as [|Hge]; [reflexivity|].
  rewrite length_take, length_stringBytes in Hge.
  unfold stringBytes.
  rewrite take_app, length_be32.
  assert (firstn k (be32 (len s)) = be32 (len s)) as ->
    by (apply firstn_all2; rewrite length_be32; lia).
  replace (firstn 4 (be32 (len s) ++ firstn (k - 4) s))
    with (be32 (len s)) by reflexivity.
  replace (skipn 4 (be32 (len s) ++ firstn (k - 4) s))
    with (firstn (k - 4) s) by reflexivity.
  rewrite beZ_be32 by (split; [apply len_nonneg|exact Hs]).
  rewrite length_take. unfold len.
  destruct (Z.ltb_spec (Z.of_nat (Nat.min (k - 4) (length s)))
                       (Z.of_nat (length s))); [reflexivity|lia].
Qed.

(** X11. A name list cut short is refused: on every strict prefix of the
    wire form of a name list [parseLengthPrefixedNameList] fails. *)
Theorem parseLengthPrefixedNameList_truncated (namelist : list string)
  (k : nat) :
  shortNames namelist ->
  (k < length (prefixed (nameListPayload namelist)))%nat ->
  parseLengthPrefixedNameList (firstn k (prefixed (nameListPayload namelist)))
  = None.
Proof.
  intros [_ Hlen] Hk. unfold parseLengthPrefixedNameList.
  unfold prefixed in *.
  rewrite u32_below in * by (split; [apply len_nonneg|exact Hlen]).
  fold (stringBytes (nameListPayload namelist)) in *.
  rewrite parseString_truncated by assumption. reflexivity.
Qed.

Lemma parseLengthPrefixedNameList_truncated_witness :
  shortNames ["a"; "bc"]%string /\
  (14 < length (prefixed (nameListPayload ["a"; "bc"]%string)))%nat /\
  parseLengthPrefixedNameList
    (firstn 14 (prefixed (nameListPayload ["a"; "bc"]%string)))
  = None.
Proof.
  assert (shortNames ["a"; "bc"]%string) as H
    by (split; [repeat constructor|reflexivity]).
  assert (14 < length (prefixed (nameListPayload ["a"; "bc"]%string)))%nat
    as Hk by (vm_compute; lia).
  split; [exact H|]. split; [exact Hk|].
  exact (parseLengthPrefixedNameList_truncated ["a"; "bc"]%string 14 H Hk).
Defined.

(** *** Tuple lists *)

Lemma tupleListPayload_cons (t : tuple) (rest : list tuple) :
  tupleListPayload (t :: rest)
  = (stringBytes (bytes (Name t)) ++ stringBytes (bytes (Data t)))
    ++ tupleListPayload rest.
Proof. reflexivity. Qed.

Lemma writes_marshalTuples (tuplelist : list tuple) :
  writes (fun to => marshalTuples to tuplelist) (tupleListPayload tuplelist).
Proof.
  induction tuplelist as [|t rest IH]; intros w r.
  - simpl. rewrite app_nil_r. reflexivity.
  - rewrite tupleListPayload_cons. cbn [marshalTuples].
    pose proof (writes_then _ _ _ _
                  (writes_then _ _ _ _
                     (writes_marshalString (bytes (Name t)))
                     (writes_marshalString (bytes (Data t))))
                  IH w r) as H.
    cbv beta in H.
    destruct (marshalString _ (bytes (Name t))) as [to|]; simpl in H;
      [|discriminate].
    destruct (marshalString to (bytes (Data t))) as [to'|]; simpl in H;
      [exact H|discriminate].
Qed.

Lemma tupleListLength_payload (tuplelist : list tuple) :
  tupleListLength tuplelist = 4 + len (tupleListPayload tuplelist).
Proof.
  unfold tupleListLength.
  assert (forall acc,
            fold_left (fun length t =>
                         length + 4 + slen (Name t) + 4 + slen (Data t))
                      tuplelist acc
            = acc + len (tupleListPayload tuplelist)) as Hacc.
  { induction tuplelist as [|t rest IH]; intros acc; cbn [fold_left].
    - unfold len. simpl. lia.
    - rewrite IH, tupleListPayload_cons. unfold len.
      rewrite !length_app, !length_stringBytes, !length_bytes.
      unfold slen. lia. }
  apply Hacc.
Qed.

Lemma writes_tupleList (tuplelist : list tuple) :
  writes (fun to => marshalTupleList to tuplelist)
         (prefixed (tupleListPayload tuplelist)).
Proof.
  intros w r. unfold marshalTupleList.
  rewrite tupleListLength_payload.
  replace (4 + len (tupleListPayload tuplelist) - 4)
    with (len (tupleListPayload tuplelist)) by lia.
  pose proof (writes_then _ _ _ _
                (writes_marshalUint32 (u32 (len (tupleListPayload tuplelist))))
                (writes_marshalTuples tuplelist) w r) as H.
  cbv beta in H. unfold prefixed.
  destruct (marshalUint32 _ _) as [to|]; simpl in H; [exact H|discriminate].
Qed.

Lemma parseTuples_step (fuel : nat) (body : list byte) (out : list tuple) :
  body <> [] ->
  parseTuples (S fuel) body out
  = match parseString body with
    | None => None
    | Some (name, body) =>
        match parseString body with
        | None => None
        | Some (data, body) =>
            parseTuples fuel body (out ++ [Tuple (str name) (str data)])
        end
    end.
Proof. destruct body; [congruence|reflexivity]. Qed.

Lemma parseTuples_payload (tuplelist out : list tuple) (fuel : nat) :
  Forall (fun t => slen (Name t) < 2 ^ 32 /\ slen (Data t) < 2 ^ 32)
         tuplelist ->
  (length (tupleListPayload tuplelist) <= fuel)%nat ->
  parseTuples fuel (tupleListPayload tuplelist) out = Some (out ++ tuplelist).
Proof.
  intros Hshort. revert out fuel.
  induction Hshort as [|t rest [Hname Hdata] _ IH]; intros out fuel Hfuel.
  - destruct fuel; simpl; rewrite app_nil_r; reflexivity.
  - rewrite tupleListPayload_cons in *.
    rewrite !length_app, !length_stringBytes in Hfuel.
    destruct fuel as [|fuel]; [lia|].
    rewrite parseTuples_step.
    2:{ intros Habs. apply (f_equal (@length byte)) in Habs.
        rewrite !length_app, !length_stringBytes in Habs.
        simpl in Habs. lia. }
    rewrite <- !app_assoc.
    rewrite parseString_stringBytes
      by (unfold len; rewrite length_bytes; exact Hname).
    rewrite parseString_stringBytes
      by (unfold len; rewrite length_bytes; exact Hdata).
    rewrite !str_bytes, IH by lia. rewrite <- app_assoc.
    destruct t. reflexivity.
Qed.

Lemma parseTupleList_prefixed (tuplelist : list tuple) (rest : list byte) :
  shortTuples tuplelist ->
  parseTupleList (prefixed (tupleListPayload tuplelist) ++ rest)
  = Some (tuplelist, rest).
Proof.
  intros [Hshort Hlen]. unfold parseTupleList, prefixed.
  rewrite u32_below by (split; [apply len_nonneg|exact Hlen]).
  fold (stringBytes (tupleListPayload tuplelist)).
  rewrite parseString_stringBytes by exact Hlen.
  rewrite parseTuples_payload by (assumption || lia). reflexivity.
Qed.

(** X12. A list of (name, data) tuples comes back from its wire form:
    [marshalTupleList] fills a buffer of [tupleListLength] bytes exactly, and
    [parseTupleList] reads the same tuples in the same order from it, followed
    by whatever comes after (every string and the whole list shorter than
    2^32 bytes). *)
Theorem parseTupleList_marshal (tuplelist : list tuple) (rest : list byte) :
  shortTuples tuplelist ->
  exists b,
    marshalTupleList (make (tupleListLength tuplelist)) tuplelist
    = Some (Slice b []) /\
    parseTupleList (b ++ rest) = Some (tuplelist, rest).
Proof.
  intros Hshort. exists (prefixed (tupleListPayload tuplelist)).
  split; [|apply parseTupleList_prefixed; exact Hshort].
  apply (make_writes _ _ _ (writes_tupleList tuplelist)).
  rewrite tupleListLength_payload.
  unfold prefixed, len. rewrite length_app, length_be32. lia.
Qed.

Lemma parseTupleList_marshal_witness :
  shortTuples [Tuple "force-command" "ls"; Tuple "permit-pty" ""] /\
  exists b,
    marshalTupleList
      (make (tupleListLength
               [Tuple "force-command" "ls"; Tuple "permit-pty" ""]))
      [Tuple "force-command" "ls"; Tuple "permit-pty" ""]
    = Some (Slice b []) /\
    parseTupleList (b ++ [x07])
    = Some ([Tuple "force-command" "ls"; Tuple "permit-pty" ""], [x07]).
Proof.
  assert (shortTuples [Tuple "force-command" "ls"; Tuple "permit-pty" ""])
    as H by (split; [repeat constructor|reflexivity]).
  split; [exact H|].
  exact (parseTupleList_marshal
           [Tuple "force-command" "ls"; Tuple "permit-pty" ""] [x07] H).
Defined.

(** *** Signatures *)

Lemma signatureLength_payload (sig : signature) :
  signatureLength sig - 4
  = len (stringBytes (bytes (Format sig)) ++ stringBytes (Blob sig)).
Proof.
  unfold signatureLength, stringLength, len, slen.
  rewrite length_app, !length_stringBytes, length_bytes. lia.
Qed.

Lemma writes_marshalSignature (sig : signature) :
  writes (fun to => marshalSignature to sig) (signatureBytes sig).
Proof.
  intros w r. unfold marshalSignature, signatureBytes, prefixed.
  rewrite signatureLength_payload.
  pose proof (writes_then _ _ _ _
                (writes_marshalUint32
                   (u32 (len (stringBytes (bytes (Format sig))
                              ++ stringBytes (Blob sig)))))
                (writes_then _ _ _ _
                   (writes_marshalString (bytes (Format sig)))
                   (writes_marshalString (Blob sig))) w r) as H.
  cbv beta in H.
  destruct (marshalUint32 _ _) as [to|]; simpl in H; [|discriminate].
  destruct (marshalString to _) as [to'|]; simpl in H;
    [exact H|discriminate].
Qed.

Lemma parseSignature_signatureBytes (sig : signature) (rest : list byte) :
  shortSignature sig ->
  parseSignature (signatureBytes sig ++ rest) = Triple (Some sig) [] true.
Proof.
  intros (Hf & Hb & Hall). unfold parseSignature, signatureBytes, prefixed.
  assert (len (stringBytes (bytes (Format sig)) ++ stringBytes (Blob sig))
          < 2 ^ 32) as Hlen.
  { unfold len in *. rewrite length_app, !length_stringBytes, length_bytes.
    unfold slen in *. lia. }
  rewrite u32_below by (split; [apply len_nonneg|exact Hlen]).
  fold (stringBytes (stringBytes (bytes (Format sig))
                     ++ stringBytes (Blob sig))).
  rewrite parseString_stringBytes by exact Hlen.
  unfold parseSignatureBody.
  rewrite parseString_stringBytes
    by (unfold len; rewrite length_bytes; exact Hf).
  rewrite <- (app_nil_r (stringBytes (Blob sig))).
  rewrite parseString_stringBytes by exact Hb.
  rewrite str_bytes. destruct sig. reflexivity.
Qed.

(** X13. A signature comes back from its wire form, and what follows it
    is lost: [marshalSignature] fills a buffer of [signatureLength] bytes
    exactly, and [parseSignature] reads the same signature from it with
    ok = true, but returns an empty rest whatever bytes come after the
    signature. *)
Theorem parseSignature_marshal_drops_rest (sig : signature)
  (rest : list byte) :
  shortSignature sig ->
  exists b,
    marshalSignature (make (signatureLength sig)) sig = Some (Slice b []) /\
    parseSignature (b ++ rest) = Triple (Some sig) [] true.
Proof.
  intros Hshort. exists (signatureBytes sig).
  split; [|apply parseSignature_signatureBytes; exact Hshort].
  apply (make_writes _ _ _ (writes_marshalSignature sig)).
  unfold signatureBytes, prefixed.
  rewrite length_app, length_be32.
  pose proof (signatureLength_payload sig) as H. unfold len in H. lia.
Qed.

Lemma parseSignature_marshal_drops_rest_witness :
  shortSignature (Sig "ssh-rsa" [x05; x06]) /\
  exists b,
    marshalSignature (make (signatureLength (Sig "ssh-rsa" [x05; x06])))
                     (Sig "ssh-rsa" [x05; x06])
    = Some (Slice b []) /\
    parseSignature (b ++ [x07; x08])
    = Triple (Some (Sig "ssh-rsa" [x05; x06])) [] true.
Proof.
  assert (shortSignature (Sig "ssh-rsa" [x05; x06])) as H
    by (repeat split).
  split; [exact H|].
  exact (parseSignature_marshal_drops_rest
           (Sig "ssh-rsa" [x05; x06]) [x07; x08] H).
Defined.

(** *** Certificates *)

Lemma int64_u64 (z : Z) : - 2 ^ 63 <= z < 2 ^ 63 -> int64 (u64 z) = z.
Proof.
  intros Hz. unfold int64, u64.
  rewrite Z.add_mod_idemp_l by lia.
  rewrite Z.mod_small by lia. lia.
Qed.

Lemma u64_range (z : Z) : 0 <= u64 z < 2 ^ 64.
Proof. unfold u64. apply Z.mod_pos_bound. lia. Qed.

Section AnyKeys.

Context {KF : KeyFamily}.

Variable M : PublicKey -> option (list byte).
Variable P : list byte -> parsed PublicKey.

(** What [Marshal] writes into the buffer that it sizes beforehand. *)
Lemma certMarshalWith_certBytes (c : OpenSSHCertV01)
  (key sk : PublicKey) (sig : signature) (pubKey sigKey : list byte) :
  Key c = Some key -> SignatureKey c = Some sk -> Signature c = Some sig ->
  M key = Some pubKey -> M sk = Some sigKey ->
  certMarshalWith M c = Some (certBytes c pubKey sigKey sig).
Proof.
  intros Hkey Hsk Hsig Hpub Hsigkey. unfold certMarshalWith.
  rewrite Hkey, Hsk, Hsig. simpl. rewrite Hpub, Hsigkey. simpl.
  set (length := stringLength (len (Nonce c)) + len pubKey + 8 + 4
                 + stringLength (slen (KeyId c))
                 + lengthPrefixedNameListLength (ValidPrincipals c) + 8 + 8
                 + tupleListLength (CriticalOptions c)
                 + tupleListLength (Extensions c)
                 + stringLength (len (Reserved c))
                 + stringLength (len sigKey) + signatureLength sig).
  pose proof
    (make_writes _ _ length
       (writes_then _ _ _ _ (writes_marshalString (Nonce c))
       (writes_then _ _ _ _ (writes_put pubKey)
       (writes_then _ _ _ _ (writes_marshalUint64 (Serial c))
       (writes_then _ _ _ _ (writes_marshalUint32 (CertType c))
       (writes_then _ _ _ _ (writes_marshalString (bytes (KeyId c)))
       (writes_then _ _ _ _ (writes_nameList (ValidPrincipals c))
       (writes_then _ _ _ _ (writes_marshalUint64 (u64 (ValidAfter c)))
       (writes_then _ _ _ _ (writes_marshalUint64 (u64 (ValidBefore c)))
       (writes_then _ _ _ _ (writes_tupleList (CriticalOptions c))
       (writes_then _ _ _ _ (writes_tupleList (Extensions c))
       (writes_then _ _ _ _ (writes_marshalString (Reserved c))
       (writes_then _ _ _ _ (writes_marshalString sigKey)
                            (writes_marshalSignature sig)))))))))))))) as H.
  assert (Z.to_nat length
          = List.length (certBytes c pubKey sigKey sig)) as Hlen.
  { unfold certBytes, signatureBytes, prefixed.
    rewrite !length_app, !length_stringBytes, !length_be32, !length_be64,
      !length_bytes.
    unfold length, stringLength.
    rewrite lengthPrefixedNameListLength_payload, !tupleListLength_payload.
    pose proof (signatureLength_payload sig) as Hs.
    unfold len, slen in *.
    rewrite length_app, !length_stringBytes, length_bytes in Hs. lia. }
  specialize (H Hlen). cbv beta in H. fold (certBytes c pubKey sigKey sig) in H.
  destruct (marshalString (make length) (Nonce c)) as [r1|];
    [|simpl in H; discriminate H]. simpl in H |- *.
  destruct (put r1 pubKey) as [r2|]; [|simpl in H; discriminate H]. simpl in H |- *.
  destruct (marshalUint64 r2 (Serial c)) as [r3|]; [|simpl in H; discriminate H].
  simpl in H |- *.
  destruct (marshalUint32 r3 (CertType c)) as [r4|]; [|simpl in H; discriminate H].
  simpl in H |- *.
  destruct (marshalString r4 (bytes (KeyId c))) as [r5|]; [|simpl in H; discriminate H].
  simpl in H |- *.
  destruct (marshalLengthPrefixedNameList r5 (ValidPrincipals c)) as [r6|];
    [|simpl in H; discriminate H]. simpl in H |- *.
  destruct (marshalUint64 r6 (u64 (ValidAfter c))) as [r7|]; [|simpl in H; discriminate H].
  simpl in H |- *.
  destruct (marshalUint64 r7 (u64 (ValidBefore c))) as [r8|];
    [|simpl in H; discriminate H]. simpl in H |- *.
  destruct (marshalTupleList r8 (CriticalOptions c)) as [r9|];
    [|simpl in H; discriminate H]. simpl in H |- *.
  destruct (marshalTupleList r9 (Extensions c)) as [r10|]; [|simpl in H; discriminate H].
  simpl in H |- *.
  destruct (marshalString r10 (Reserved c)) as [r11|]; [|simpl in H; discriminate H].
  simpl in H |- *.
  destruct (marshalString r11 sigKey) as [r12|]; [|simpl in H; discriminate H].
  simpl in H |- *.
  rewrite H. simpl. unfold whole. simpl. rewrite app_nil_r. reflexivity.
Qed.

(** X14. [Marshal] of a certificate never runs over or short of the
    buffer that it sizes beforehand (its "internal error" panic is out of
    reach): for every certificate whose two keys marshal and whose signature
    is not nil it returns the fields in the order nonce, key, serial, type,
    key id, principals, valid after, valid before, critical options,
    extensions, reserved, signature key, signature. *)
Theorem certMarshal_fills_buffer (c : OpenSSHCertV01)
  (key sk : PublicKey) (sig : signature) (pubKey sigKey : list byte) :
  Key c = Some key -> SignatureKey c = Some sk -> Signature c = Some sig ->
  M key = Some pubKey -> M sk = Some sigKey ->
  certMarshalWith M c = Some (certBytes c pubKey sigKey sig).
Proof. apply certMarshalWith_certBytes. Qed.

(** The certificate parser on the fields in the order of [Marshal]. *)
Lemma parseOpenSSHCertV01With_certBytes (c : OpenSSHCertV01)
  (key sk : PublicKey) (sig : signature) (pubKey sigKey : list byte)
  (algo : string) :
  Key c = Some key -> SignatureKey c = Some sk -> Signature c = Some sig ->
  PrivateKeyAlgo key = Some algo ->
  (forall rest, P (pubKey ++ rest) = Ret (Triple (Some key) rest true)) ->
  P sigKey = Ret (Triple (Some sk) [] true) ->
  wireCert c -> len sigKey < 2 ^ 32 -> shortSignature sig ->
  parseOpenSSHCertV01With P (certBytes c pubKey sigKey sig) algo
  = Ret (Triple (Some c) [] true).
Proof.
  intros Hkey Hsk Hsig Halgo HP HPsig
         (Hnonce & Hserial & Htype & Hid & Hnames & Hva & Hvb & Hcrit
          & Hext & Hres) Hsigkey Hshort.
  unfold parseOpenSSHCertV01With, certBytes.
  rewrite parseString_stringBytes by exact Hnonce. cbv beta iota.
  rewrite HP. cbv beta iota. simpl negb. cbv iota.
  simpl (Some key ≫= PrivateKeyAlgo). rewrite Halgo. cbv beta iota.
  rewrite String.eqb_refl. simpl negb. cbv iota.
  rewrite parseUint64_be64 by exact Hserial. cbv beta iota.
  rewrite parseUint32_be32
    by (destruct Htype as [-> | ->]; unfold UserCert, HostCert; lia).
  cbv beta iota.
  assert (negb (CertType c =? UserCert) && negb (CertType c =? HostCert)
          = false) as ->
    by (destruct Htype as [-> | ->]; reflexivity).
  cbv iota.
  rewrite parseString_stringBytes
    by (unfold len; rewrite length_bytes; exact Hid).
  cbv beta iota.
  rewrite parseNameList_prefixed by exact Hnames. cbv beta iota.
  rewrite parseUint64_be64 by apply u64_range. cbv beta iota.
  rewrite parseUint64_be64 by apply u64_range. cbv beta iota.
  rewrite parseTupleList_prefixed by exact Hcrit. cbv beta iota.
  rewrite parseTupleList_prefixed by exact Hext. cbv beta iota.
  rewrite parseString_stringBytes by exact Hres. cbv beta iota.
  rewrite parseString_stringBytes by exact Hsigkey. cbv beta iota.
  rewrite HPsig. cbv beta iota. simpl negb. cbv iota.
  rewrite <- (app_nil_r (signatureBytes sig)).
  rewrite parseSignature_signatureBytes by exact Hshort.
  cbv beta iota. simpl negb. cbv iota.
  rewrite str_bytes, !int64_u64 by assumption.
  destruct c. simpl in *. subst. reflexivity.
Qed.

(** X15. A certificate comes back from its wire form: when the marshaller
    and the parser of public keys are inverse on the two keys of the
    certificate, [parseOpenSSHCertV01], called with the private algorithm of
    the certified key, reads from what [Marshal] wrote the same certificate,
    with nothing left and ok = true (for field values that the wire form can
    hold and a type of 1 or 2). *)
Theorem parseOpenSSHCertV01_certMarshal (c : OpenSSHCertV01)
  (key sk : PublicKey) (sig : signature) (pubKey sigKey : list byte)
  (algo : string) :
  Key c = Some key -> SignatureKey c = Some sk -> Signature c = Some sig ->
  M key = Some pubKey -> M sk = Some sigKey ->
  PrivateKeyAlgo key = Some algo ->
  (forall rest, P (pubKey ++ rest) = Ret (Triple (Some key) rest true)) ->
  P sigKey = Ret (Triple (Some sk) [] true) ->
  wireCert c -> len sigKey < 2 ^ 32 -> shortSignature sig ->
  exists b,
    certMarshalWith M c = Some b /\
    parseOpenSSHCertV01With P b algo = Ret (Triple (Some c) [] true).
Proof.
  intros Hkey Hsk Hsig Hpub Hsigkey Halgo HP HPsig Hwire Hlen Hshort.
  exists (certBytes c pubKey sigKey sig). split.
  - apply (certMarshalWith_certBytes c key sk sig); assumption.
  - apply (parseOpenSSHCertV01With_certBytes c key sk sig); assumption.
Qed.

End AnyKeys.

(** *** The example certificate *)

Lemma parseInt_mpint_bytes (body rest : list byte) :
  len body < 2 ^ 32 ->
  parseInt (stringBytes body ++ rest)
  = Some (match body with
          | b :: _ =>
              if 128 <=? Z_of_byte b
              then beZ body - 2 ^ (8 * Z.of_nat (length body))
              else beZ body
          | [] => 0
          end, rest).
Proof.
  intros Hlen. unfold parseInt.
  rewrite parseString_stringBytes by exact Hlen.
  destruct body as [|b body]; [reflexivity|].
  destruct (128 <=? Z_of_byte b); reflexivity.
Qed.

Lemma ParsePublicKey_rsa_rest (e n : Z) (rest : list byte) :
  len (mpintBody e) < 2 ^ 32 -> len (mpintBody n) < 2 ^ 32 ->
  parseInt (stringBytes (mpintBody e)) = Some (e, []) ->
  parseInt (stringBytes (mpintBody n)) = Some (n, []) ->
  ParsePublicKey
    ((stringBytes (bytes KeyAlgoRSA)
      ++ stringBytes (mpintBody e) ++ stringBytes (mpintBody n)) ++ rest)
  = Ret (Triple (Some (PlainKey (RSA e n))) rest true).
Proof.
  intros He Hn Hpe Hpn.
  assert (forall v r, len (mpintBody v) < 2 ^ 32 ->
            parseInt (stringBytes (mpintBody v)) = Some (v, []) ->
            parseInt (stringBytes (mpintBody v) ++ r) = Some (v, r)) as Hint.
  { intros v r Hv Hpv.
    rewrite <- (app_nil_r (stringBytes (mpintBody v))) in Hpv.
    rewrite parseInt_mpint_bytes in Hpv by exact Hv.
    rewrite parseInt_mpint_bytes by exact Hv.
    injection Hpv as ->. reflexivity. }
  unfold ParsePublicKey. rewrite ParsePublicKeyFuel_S.
  rewrite <- !app_assoc.
  rewrite parseString_stringBytes by reflexivity.
  rewrite str_bytes.
  change (isCertAlgo KeyAlgoRSA) with false. cbv iota.
  change (plainParse KeyAlgoRSA) with parseRSA.
  unfold parseRSA.
  rewrite (Hint e _ He Hpe). cbn [mbind option_bind].
  rewrite (Hint n _ Hn Hpn). reflexivity.
Qed.

Lemma wireCert_exampleCert : wireCert (exampleCert UserCert).
Proof.
  unfold wireCert. cbn [exampleCert Nonce Serial CertType KeyId
    ValidPrincipals ValidAfter ValidBefore CriticalOptions Extensions
    Reserved].
  split; [reflexivity|]. split; [lia|]. split; [left; reflexivity|].
  split; [reflexivity|].
  split; [split; [repeat constructor|reflexivity]|].
  split; [lia|]. split; [lia|].
  split; [split; [constructor|reflexivity]|].
  split; [split; [repeat constructor|reflexivity]|].
  reflexivity.
Qed.

Lemma certMarshal_fills_buffer_witness :
  exists pubKey sigKey,
    MarshalPublicKey userKey = Some pubKey /\
    MarshalPublicKey authorityKey = Some sigKey /\
    certMarshalWith MarshalPublicKey (exampleCert UserCert)
    = Some (certBytes (exampleCert UserCert) pubKey sigKey
                      (Sig "ssh-rsa" [x05])).
Proof.
  destruct (MarshalPublicKey userKey) as [pubKey|] eqn:H1;
    [|discriminate H1].
  destruct (MarshalPublicKey authorityKey) as [sigKey|] eqn:H2;
    [|discriminate H2].
  exists pubKey, sigKey. split; [reflexivity|]. split; [reflexivity|].
  exact (certMarshal_fills_buffer MarshalPublicKey (exampleCert UserCert)
           userKey authorityKey (Sig "ssh-rsa" [x05]) pubKey sigKey
           eq_refl eq_refl eq_refl H1 H2).
Defined.

Lemma parseOpenSSHCertV01_certMarshal_witness :
  exists b,
    certMarshalWith MarshalPublicKey (exampleCert UserCert) = Some b /\
    parseOpenSSHCertV01With ParsePublicKey b KeyAlgoRSA
    = Ret (Triple (Some (exampleCert UserCert)) [] true).
Proof.
  apply (parseOpenSSHCertV01_certMarshal MarshalPublicKey ParsePublicKey
           (exampleCert UserCert) userKey authorityKey
           (Sig "ssh-rsa" [x05])
           (stringBytes (bytes KeyAlgoRSA)
            ++ stringBytes (mpintBody 65537) ++ stringBytes (mpintBody 3233))
           (stringBytes (bytes KeyAlgoRSA)
            ++ stringBytes (mpintBody 65537)
            ++ stringBytes (mpintBody 2773))
           KeyAlgoRSA).
  - reflexivity.
  - reflexivity.
  - reflexivity.
  - reflexivity.
  - reflexivity.
  - reflexivity.
  - intros rest. apply ParsePublicKey_rsa_rest; reflexivity.
  - reflexivity.
  - exact wireCert_exampleCert.
  - reflexivity.
  - repeat split.
Defined.

End CertCodecFacts.

(** ** The channel table and the loop in general *)

Module TableFacts.

Import Wire.
Import Window.
Import Client.
Import Loop.
Import WireFacts.
Import ClientFacts.

Lemma firstNil_Some (chans : chanList) (k i : nat) :
  firstNil chans k = Some i ->
  (k <= i)%nat /\ chans !! (i - k)%nat = Some None /\
  forall j, (j < i - k)%nat -> exists ch, chans !! j = Some (Some ch).
Proof.
  revert k. induction chans as [|[ch|] chans IH]; intros k H; simpl in H.
  - discriminate.
  - apply IH in H. destruct H as (Hle & Hnil & Hbelow).
    replace (i - k)%nat with (S (i - S k)) by lia.
    split; [lia|]. split; [exact Hnil|].
    intros [|j] Hj; [exists ch; reflexivity|].
    apply Hbelow. lia.
  - injection H as <-. rewrite Nat.sub_diag.
    split; [lia|]. split; [reflexivity|]. intros j Hj. lia.
Qed.

Lemma firstNil_None (chans : chanList) (k : nat) :
  firstNil chans k = None ->
  forall j, (j < length chans)%nat -> exists ch, chans !! j = Some (Some ch).
Proof.
  revert k. induction chans as [|[ch|] chans IH]; intros k H j Hj;
    simpl in *.
  - lia.
  - destruct j as [|j]; [exists ch; reflexivity|].
    apply (IH _ H). lia.
  - discriminate.
Qed.

(** The slots of the table before and after [newChan]. *)
Lemma newChan_slots (chans : chanList) :
  let chans' := (newChan chans).1 in
  let i := (newChan chans).2 in
  (forall j, (j < i)%nat -> exists ch, chans !! j = Some (Some ch)) /\
  (chans !! i = Some None /\ length chans' = length chans
   \/ i = length chans /\ length chans' = S (length chans)) /\
  chans' !! i = Some (Some (newClientChan (u32 (Z.of_nat i)))) /\
  (forall j, j <> i -> chans' !! j = chans !! j).
Proof.
  cbv zeta. pose proof (newChan_lookup chans) as Hnew.
  unfold newChan in *. destruct (firstNil chans 0) as [i|] eqn:E; simpl in *.
  - apply firstNil_Some in E. destruct E as (_ & Hnil & Hbelow).
    rewrite Nat.sub_0_r in *.
    split; [exact Hbelow|].
    split; [left; split; [exact Hnil|apply length_insert]|].
    split; [exact Hnew|].
    intros j Hj. apply list_lookup_insert_ne. congruence.
  - split; [apply (firstNil_None _ _ E)|].
    split; [right; split; [reflexivity|]|].
    { rewrite length_app. simpl. lia. }
    split; [exact Hnew|].
    intros j Hj. destruct (Nat.lt_ge_cases j (length chans)) as [Hlt|Hge].
    + apply lookup_app_l. exact Hlt.
    + unfold chanList in *.
      rewrite (lookup_ge_None_2 (chans ++ _))
        by (rewrite length_app; simpl; lia).
      symmetry. apply lookup_ge_None_2. lia.
Qed.

(** X16. [newChan] takes the first free slot and nothing else: every slot
    below the index that it returns holds a channel, the slot itself was nil
    or is the new last slot of the table, it now holds a fresh channel whose
    local id is the index, and every other slot is as before. *)
Theorem newChan_takes_first_free (chans : chanList) :
  let chans' := (newChan chans).1 in
  let i := (newChan chans).2 in
  (forall j, (j < i)%nat -> exists ch, chans !! j = Some (Some ch)) /\
  (chans !! i = Some None /\ length chans' = length chans
   \/ i = length chans /\ length chans' = S (length chans)) /\
  chans' !! i = Some (Some (newClientChan (u32 (Z.of_nat i)))) /\
  (forall j, j <> i -> chans' !! j = chans !! j).
Proof. exact (newChan_slots chans). Qed.

(** X17. Local ids are reused: after [remove] has freed the slot of a
    channel, the next [newChan] does not extend the table, returns an index
    that is not above the freed one, and returns the freed index itself when
    every slot below it holds a channel. *)
Theorem newChan_reuses_removed (chans chans' : chanList) (id : Z) :
  0 <= id -> remove chans id = Some chans' ->
  (Z.of_nat (newChan chans').2 <= id) /\
  length (newChan chans').1 = length chans /\
  ((forall j, (j < Z.to_nat id)%nat ->
      exists ch, chans !! j = Some (Some ch)) ->
   (newChan chans').2 = Z.to_nat id).
Proof.
  intros Hid Hrem. unfold remove, Client.len in Hrem.
  destruct (Z.ltb_spec id (Z.of_nat (length chans))) as [Hlt|];
    [|discriminate].
  injection Hrem as <-.
  assert (<[Z.to_nat id := None]> chans !! Z.to_nat id = Some None) as Hfree
    by (apply list_lookup_insert_eq; lia).
  pose proof (newChan_slots (<[Z.to_nat id := None]> chans))
    as (Hbelow & Hslot & _ & _). cbv zeta in *.
  set (i := (newChan (<[Z.to_nat id := None]> chans)).2) in *.
  unfold chanList in *.
  assert (i <= Z.to_nat id)%nat as Hle.
  { destruct (Nat.le_gt_cases i (Z.to_nat id)) as [H|H]; [exact H|].
    destruct (Hbelow _ H) as [ch Hch]. congruence. }
  split; [lia|]. split.
  - destruct Hslot as [[_ Hlen]|[Hi _]].
    + rewrite Hlen. apply length_insert.
    + rewrite length_insert in Hi. lia.
  - intros Hfull.
    destruct (Nat.eq_dec i (Z.to_nat id)) as [Heq|Hne]; [exact Heq|].
    exfalso. assert (i < Z.to_nat id)%nat as Hi by lia.
    destruct (Hfull _ Hi) as [ch Hch].
    destruct Hslot as [[Hnil _]|[Hlen _]].
    + rewrite list_lookup_insert_ne in Hnil by lia. congruence.
    + rewrite length_insert in Hlen. lia.
Qed.

Lemma newChan_reuses_removed_witness :
  0 <= 1 /\
  remove [Some (newClientChan 0); Some (newClientChan 1);
          Some (newClientChan 2)] 1
  = Some [Some (newClientChan 0); None; Some (newClientChan 2)] /\
  (Z.of_nat (newChan [Some (newClientChan 0); None;
                      Some (newClientChan 2)]).2 <= 1) /\
  length (newChan [Some (newClientChan 0); None;
                   Some (newClientChan 2)]).1
  = length [Some (newClientChan 0); Some (newClientChan 1);
            Some (newClientChan 2)] /\
  ((forall j, (j < Z.to_nat 1)%nat ->
      exists ch, [Some (newClientChan 0); Some (newClientChan 1);
                  Some (newClientChan 2)] !! j = Some (Some ch)) ->
   (newChan [Some (newClientChan 0); None; Some (newClientChan 2)]).2
   = Z.to_nat 1).
Proof.
  assert (0 <= 1) as H0 by lia.
  split; [exact H0|]. split; [reflexivity|].
  exact (newChan_reuses_removed
           [Some (newClientChan 0); Some (newClientChan 1);
            Some (newClientChan 2)]
           [Some (newClientChan 0); None; Some (newClientChan 2)]
           1 H0 eq_refl).
Defined.

(** X18. The table keeps every channel at the index that is its local id:
    this holds of the empty table, and [newChan] and [remove] keep it. *)
Theorem table_stays_indexed (chans : chanList) :
  indexed [] /\
  (indexed chans ->
   indexed (newChan chans).1 /\
   forall id chans', remove chans id = Some chans' -> indexed chans').
Proof.
  split; [intros i ch H; destruct i; discriminate H|].
  intros Hidx. split.
  - pose proof (newChan_slots chans) as (_ & _ & Hnew & Hother).
    cbv zeta in *. intros j ch Hj.
    destruct (Nat.eq_dec j (newChan chans).2) as [->|Hne].
    + rewrite Hnew in Hj. injection Hj as <-. reflexivity.
    + rewrite Hother in Hj by exact Hne. apply Hidx. exact Hj.
  - intros id chans' Hrem. unfold remove in Hrem.
    destruct (id <? Client.len chans); [|discriminate].
    injection Hrem as <-. intros j ch Hj. unfold chanList in *.
    destruct (Nat.eq_dec j (Z.to_nat id)) as [->|Hne].
    + destruct (Nat.lt_ge_cases (Z.to_nat id) (length chans)) as [Hlt|Hge].
      * rewrite list_lookup_insert_eq in Hj by exact Hlt. discriminate.
      * rewrite list_insert_ge in Hj by exact Hge. apply Hidx. exact Hj.
    + rewrite list_lookup_insert_ne in Hj by congruence.
      apply Hidx. exact Hj.
Qed.

Lemma table_stays_indexed_witness :
  indexed [] /\
  (indexed [Some (newClientChan 0); None] ->
   indexed (newChan [Some (newClientChan 0); None]).1 /\
   forall id chans',
     remove [Some (newClientChan 0); None] id = Some chans' ->
     indexed chans').
Proof. exact (table_stays_indexed [Some (newClientChan 0); None]). Defined.

(** *** Inbound opens of an allowed size *)

Lemma lookup_Some (l : forwardList) (addr : TCPAddr) (k i : nat) :
  lookup l addr k = Some i ->
  (k <= i)%nat /\
  exists e, l !! (i - k)%nat = Some e /\ sameAddr addr (laddr e) = true.
Proof.
  revert k. induction l as [|f l IH]; intros k H; simpl in H.
  - discriminate.
  - destruct (sameAddr addr (laddr f)) eqn:Hsame.
    + injection H as <-. rewrite Nat.sub_diag.
      split; [lia|]. exists f. split; [reflexivity|exact Hsame].
    + apply IH in H. destruct H as (Hle & e & He & Hm).
      split; [lia|]. exists e.
      replace (i - k)%nat with (S (i - S k)) by lia.
      split; [exact He|exact Hm].
Qed.

Lemma add_from_zero (n : Z) :
  0 <= n < 2 ^ 32 -> add (Win 0) n = (true, Win n).
Proof.
  intros Hn. unfold add. simpl.
  destruct (Z.eqb_spec n 0) as [->|Hnz]; [reflexivity|].
  unfold u32. rewrite Z.mod_small by lia.
  rewrite Z.ltb_irrefl. reflexivity.
Qed.

Section Inbound.

Variable minPacketLength : Z.
Variable ParseIP : string -> option (list byte).

Lemma size_passes (msg : channelOpenMsg) :
  sizeAllowed minPacketLength msg ->
  (MaxPacketSize msg <? minPacketLength) || (2 ^ 31 <? MaxPacketSize msg)
  = false.
Proof.
  intros [Hmin Hmax]. apply orb_false_iff.
  split; apply Z.ltb_ge; assumption.
Qed.

(** X19. An inbound open of an allowed size for any other channel type than
    forwarded-tcpip is answered with exactly one channel-open-failure, of
    reason UnknownChannelType and with the type in its message, and changes
    neither the channel table nor the forward list. *)
Theorem handleChanOpen_unknown_type (c : ClientConn) (msg : channelOpenMsg) :
  sizeAllowed minPacketLength msg ->
  ChanType msg <> "forwarded-tcpip"%string ->
  handleChanOpen minPacketLength ParseIP c msg
  = Conn (chans c) (forwards c)
         (sent c ++
          [channelOpenFailureMsg (PeersId msg) UnknownChannelType
             ("unknown channel type: " ++ ChanType msg) "en_US.UTF-8"]).
Proof.
  intros Hsize Htype. unfold handleChanOpen.
  rewrite size_passes by exact Hsize.
  destruct (String.eqb_spec (ChanType msg) "forwarded-tcpip");
    [contradiction|reflexivity].
Qed.

(** X20. An inbound forwarded-tcpip open of an allowed size is refused with
    exactly one channel-open-failure of reason ConnectionFailed, and without
    a change of the channel table or the forward list, when the listening
    address does not parse, or is not in the forward list, or the address of
    the originator does not parse. *)
Theorem handleChanOpen_refuses_forward (c : ClientConn)
  (msg : channelOpenMsg) :
  sizeAllowed minPacketLength msg ->
  ChanType msg = "forwarded-tcpip"%string ->
  (parseTCPAddr ParseIP (TypeSpecificData msg) = None
   \/ exists la rest,
        parseTCPAddr ParseIP (TypeSpecificData msg) = Some (la, rest) /\
        (lookup (forwards c) la 0 = None
         \/ parseTCPAddr ParseIP rest = None)) ->
  handleChanOpen minPacketLength ParseIP c msg
  = Conn (chans c) (forwards c)
         (sent c ++
          [channelOpenFailureMsg (PeersId msg) ConnectionFailed
             "invalid request" "en_US.UTF-8"]).
Proof.
  intros Hsize Htype Hwhy. unfold handleChanOpen.
  rewrite size_passes by exact Hsize.
  rewrite Htype, String.eqb_refl.
  destruct Hwhy as [->|(la & rest & -> & Hwhy)]; [reflexivity|].
  destruct Hwhy as [->| Hra]; [reflexivity|].
  destruct (lookup (forwards c) la 0); [rewrite Hra|]; reflexivity.
Qed.

(** X21. An inbound forwarded-tcpip open of an allowed size whose two
    addresses parse and whose listening address is in the forward list is
    accepted: the only packet sent is the confirmation (our window 2^14, our
    maximum packet 2^15, our id the index of the new channel), the new channel
    has the peer's id, the peer's window as its send window and the peer's
    maximum packet size, and the channel is put at the end of the queue of the
    first forward with that address. *)
Theorem handleChanOpen_accepts (c : ClientConn) (msg : channelOpenMsg)
  (la ra : TCPAddr) (rest rest' : list byte) (l : nat) :
  sizeAllowed minPacketLength msg ->
  ChanType msg = "forwarded-tcpip"%string ->
  parseTCPAddr ParseIP (TypeSpecificData msg) = Some (la, rest) ->
  lookup (forwards c) la 0 = Some l ->
  parseTCPAddr ParseIP rest = Some (ra, rest') ->
  0 <= PeersWindow msg < 2 ^ 32 ->
  let c' := handleChanOpen minPacketLength ParseIP c msg in
  let i := (newChan (chans c)).2 in
  sent c'
  = sent c ++ [channelOpenConfirmMsg (PeersId msg) (u32 (Z.of_nat i))
                                     (2 ^ 14) (2 ^ 15)] /\
  chans c' !! i
  = Some (Some (ClientChan (u32 (Z.of_nat i)) (PeersId msg)
                           (Win (PeersWindow msg)) (MaxPacketSize msg)
                           [] [])) /\
  exists e,
    forwards c !! l = Some e /\ sameAddr la (laddr e) = true /\
    forwards c'
    = <[l := Entry (laddr e) (queue e ++ [Forward i ra])]> (forwards c).
Proof.
  intros Hsize Htype Hla Hl Hra Hwin. cbv zeta. unfold handleChanOpen.
  rewrite size_passes by exact Hsize.
  rewrite Htype, String.eqb_refl, Hla, Hl, Hra.
  pose proof (newChan_lookup (chans c)) as Hnew.
  destruct (newChan (chans c)) as [chs i]. simpl in *.
  split; [reflexivity|]. split.
  - unfold chanList in *. rewrite list_lookup_alter_eq, Hnew. simpl.
    unfold openedChan, newClientChan. cbn [remoteWin localId stdout stderr].
    rewrite add_from_zero by exact Hwin. reflexivity.
  - apply lookup_Some in Hl. destruct Hl as (_ & e & He & Hsame).
    rewrite Nat.sub_0_r in He. exists e.
    split; [exact He|]. split; [exact Hsame|].
    unfold enqueue. unfold forwardList in *. rewrite He. reflexivity.
Qed.

(** X22. Whatever the inbound open, [handleChanOpen] sends one or two
    packets after those sent before, leaves every channel of the table where
    and as it is, keeps the table indexed by local id, and only ever adds to
    the end of the queues of the forward list. *)
Theorem handleChanOpen_keeps_state (c : ClientConn) (msg : channelOpenMsg) :
  let c' := handleChanOpen minPacketLength ParseIP c msg in
  (exists new,
     sent c' = sent c ++ new /\ (1 <= length new <= 2)%nat) /\
  (forall j ch,
     chans c !! j = Some (Some ch) -> chans c' !! j = Some (Some ch)) /\
  (indexed (chans c) -> indexed (chans c')) /\
  (forall j e,
     forwards c !! j = Some e ->
     exists more,
       forwards c' !! j = Some (Entry (laddr e) (queue e ++ more))).
Proof.
  cbv zeta.
  assert (forall (c0 : ClientConn) (pre : list packet),
            sent c0 = sent c ++ pre -> chans c0 = chans c ->
            forwards c0 = forwards c -> (length pre <= 1)%nat ->
            forall m,
            let c' := writePacket c0 m in
            (exists new,
               sent c' = sent c ++ new /\ (1 <= length new <= 2)%nat) /\
            (forall j ch,
               chans c !! j = Some (Some ch) ->
               chans c' !! j = Some (Some ch)) /\
            (indexed (chans c) -> indexed (chans c')) /\
            (forall j e,
               forwards c !! j = Some e ->
               exists more,
                 forwards c' !! j
                 = Some (Entry (laddr e) (queue e ++ more)))) as Hwrite.
  { intros c0 pre Hsent Hchans Hfw Hpre m. cbv zeta. simpl.
    rewrite Hsent, Hchans, Hfw. split.
    - exists (pre ++ [m]). rewrite app_assoc. split; [reflexivity|].
      rewrite length_app. simpl. lia.
    - split; [auto|]. split; [auto|].
      intros j e He. exists []. rewrite app_nil_r, He. destruct e.
      reflexivity. }
  unfold handleChanOpen.
  set (c0 := if (MaxPacketSize msg <? minPacketLength)
                || (2 ^ 31 <? MaxPacketSize msg)
             then sendConnectionFailed c (PeersId msg) else c).
  assert (exists pre, sent c0 = sent c ++ pre /\ chans c0 = chans c
                      /\ forwards c0 = forwards c
                      /\ (length pre <= 1)%nat) as (pre & Hs & Hc & Hf & Hp).
  { subst c0. destruct (_ || _).
    - eexists. simpl. repeat split. simpl. lia.
    - exists []. rewrite app_nil_r. repeat split. simpl. lia. }
  destruct (String.eqb (ChanType msg) "forwarded-tcpip");
    [|apply (Hwrite c0 pre); assumption].
  destruct (parseTCPAddr ParseIP (TypeSpecificData msg)) as [[la rest]|];
    [|apply (Hwrite c0 pre); assumption].
  destruct (lookup (forwards c0) la 0) as [l|] eqn:Hl;
    [|apply (Hwrite c0 pre); assumption].
  destruct (parseTCPAddr ParseIP rest) as [[ra rest']|];
    [|apply (Hwrite c0 pre); assumption].
  pose proof (newChan_slots (chans c0)) as
    (Hbelow & Hslot & Hnew & Hother).
  cbv zeta in *. destruct (newChan (chans c0)) as [chs i]. simpl in *.
  rewrite Hc in *. unfold chanList in *.
  assert (forall j ch, chans c !! j = Some (Some ch) -> j <> i) as Hfresh.
  { intros j ch Hj ->. destruct Hslot as [[Hnil _]|[Hlen _]].
    - pose proof (eq_trans (eq_sym Hnil) Hj) as Habs. discriminate Habs.
    - apply lookup_lt_Some in Hj. lia. }
  split.
  { exists (pre ++ [channelOpenConfirmMsg (PeersId msg) (u32 (Z.of_nat i))
                                         (2 ^ 14) (2 ^ 15)]).
    rewrite Hs, app_assoc. split; [reflexivity|].
    rewrite length_app. simpl. lia. }
  split.
  { intros j ch Hj. rewrite list_lookup_alter_ne
      by (intros Heq; apply (Hfresh j ch Hj); congruence).
    rewrite Hother by (apply (Hfresh j ch Hj)). exact Hj. }
  split.
  { intros Hidx j ch Hj. unfold chanList in *.
    destruct (Nat.eq_dec j i) as [->|Hne].
    - rewrite list_lookup_alter_eq, Hnew in Hj. simpl in Hj.
      injection Hj as <-. reflexivity.
    - rewrite list_lookup_alter_ne in Hj by congruence.
      rewrite Hother in Hj by exact Hne. apply Hidx. exact Hj. }
  intros j e He. unfold enqueue, forwardList in *. rewrite Hf in *.
  destruct (Nat.eq_dec j l) as [->|Hne].
  - rewrite He. exists [Forward i ra].
    rewrite list_lookup_insert_eq by (apply lookup_lt_Some in He; exact He).
    reflexivity.
  - exists []. rewrite app_nil_r.
    match goal with
    | |- context [match ?o with _ => _ end] => destruct o
    end.
    + rewrite list_lookup_insert_ne by congruence.
      rewrite He. destruct e. reflexivity.
    + rewrite He. destruct e. reflexivity.
Qed.

End Inbound.

Lemma handleChanOpen_unknown_type_witness :
  sizeAllowed 9 (openOf "session" 32768) /\
  ChanType (openOf "session" 32768) <> "forwarded-tcpip"%string /\
  handleChanOpen 9 tableParseIP listening (openOf "session" 32768)
  = Conn (chans listening) (forwards listening)
         (sent listening ++
          [channelOpenFailureMsg 7 UnknownChannelType
             "unknown channel type: session" "en_US.UTF-8"]).
Proof.
  assert (sizeAllowed 9 (openOf "session" 32768)) as H1
    by (unfold sizeAllowed; simpl; lia).
  assert (ChanType (openOf "session" 32768) <> "forwarded-tcpip"%string)
    as H2 by discriminate.
  split; [exact H1|]. split; [exact H2|].
  exact (handleChanOpen_unknown_type 9 tableParseIP listening
           (openOf "session" 32768) H1 H2).
Defined.

Lemma handleChanOpen_refuses_forward_witness :
  sizeAllowed 9 (openOf "forwarded-tcpip" 32768) /\
  handleChanOpen 9 tableParseIP (Conn [] [] [])
                 (openOf "forwarded-tcpip" 32768)
  = Conn [] []
         [channelOpenFailureMsg 7 ConnectionFailed "invalid request"
                                "en_US.UTF-8"].
Proof.
  assert (sizeAllowed 9 (openOf "forwarded-tcpip" 32768)) as H1
    by (unfold sizeAllowed; simpl; lia).
  split; [exact H1|].
  refine (handleChanOpen_refuses_forward 9 tableParseIP (Conn [] [] [])
            (openOf "forwarded-tcpip" 32768) H1 eq_refl _).
  right. exists (Addr (ipv4 x0a x00 x00 x01) 8080).
  exists (be32 8 ++ bytes "10.0.0.2" ++ be32 4242).
  split; [reflexivity|]. left. reflexivity.
Defined.

Lemma handleChanOpen_accepts_witness :
  let c' := handleChanOpen 9 tableParseIP listening
                           (openOf "forwarded-tcpip" 32768) in
  sizeAllowed 9 (openOf "forwarded-tcpip" 32768) /\
  sent c' = [channelOpenConfirmMsg 7 0 (2 ^ 14) (2 ^ 15)] /\
  chans c' !! 0%nat
  = Some (Some (ClientChan 0 7 (Win 1000) 32768 [] [])) /\
  exists e,
    forwards listening !! 0%nat = Some e /\
    sameAddr (Addr (ipv4 x0a x00 x00 x01) 8080) (laddr e) = true /\
    forwards c'
    = <[0%nat := Entry (laddr e)
                   (queue e ++
                    [Forward 0 (Addr (ipv4 x0a x00 x00 x02) 4242)])]>
        (forwards listening).
Proof.
  assert (sizeAllowed 9 (openOf "forwarded-tcpip" 32768)) as H1
    by (unfold sizeAllowed; simpl; lia).
  assert (0 <= PeersWindow (openOf "forwarded-tcpip" 32768) < 2 ^ 32)
    as H2 by (simpl; lia).
  split; [exact H1|].
  exact (handleChanOpen_accepts 9 tableParseIP listening
           (openOf "forwarded-tcpip" 32768)
           (Addr (ipv4 x0a x00 x00 x01) 8080)
           (Addr (ipv4 x0a x00 x00 x02) 4242)
           (be32 8 ++ bytes "10.0.0.2" ++ be32 4242) [] 0%nat
           H1 eq_refl eq_refl eq_refl eq_refl H2).
Defined.

End TableFacts.

(** ** The data and window turns of the demultiplexer loop *)

Module LoopFacts.

Import Wire.
Import Window.
Import Client.
Import Loop.
Import WireFacts.

Lemma getChan_Some (chans : chanList) (id : Z) (ch : clientChan) :
  len chans < 2 ^ 32 -> 0 <= id ->
  chans !! Z.to_nat id = Some (Some ch) ->
  getChan chans id = (Some ch, true).
Proof.
  intros Hlen Hid Hch. unfold getChan.
  pose proof (lookup_lt_Some _ _ _ Hch) as Hlt.
  rewrite WindowFacts.u32_small by (unfold len in *; lia).
  destruct (Z.leb_spec (len chans) id) as [Hle|_];
    [unfold len in Hle; lia|].
  unfold chanList in *. rewrite Hch. reflexivity.
Qed.

Lemma getChan_free (chans : chanList) (id : Z) :
  len chans < 2 ^ 32 -> 0 <= id ->
  chans !! Z.to_nat id = Some None ->
  getChan chans id = (None, true).
Proof.
  intros Hlen Hid Hch. unfold getChan.
  pose proof (lookup_lt_Some _ _ _ Hch) as Hlt.
  rewrite WindowFacts.u32_small by (unfold len in *; lia).
  destruct (Z.leb_spec (len chans) id) as [Hle|_];
    [unfold len in Hle; lia|].
  unfold chanList in *. rewrite Hch. reflexivity.
Qed.

Lemma getChan_outside (chans : chanList) (id : Z) :
  len chans < 2 ^ 32 -> 0 <= id ->
  chans !! Z.to_nat id = None ->
  getChan chans id = (None, false).
Proof.
  intros Hlen Hid Hch. unfold getChan.
  apply lookup_ge_None_1 in Hch.
  rewrite WindowFacts.u32_small by (unfold len in *; lia).
  destruct (Z.leb_spec (len chans) id) as [_|Hlt];
    [reflexivity|unfold len in Hlt; lia].
Qed.

Lemma getChan_found (chans : chanList) (id : Z) (ch : clientChan) :
  getChan chans id = (Some ch, true) ->
  chans !! Z.to_nat id = Some (Some ch).
Proof.
  unfold getChan. destruct (_ <=? _); [discriminate|].
  intros H. injection H as H. unfold chanList in *.
  destruct (chans !! Z.to_nat id) as [[c|]|]; simpl in H;
    [congruence|discriminate|discriminate].
Qed.

(** The table with one channel replaced by a channel of the same ids. *)
Lemma sameChannels_insert (chans : chanList) (i : nat) (ch ch' : clientChan) :
  chans !! i = Some (Some ch) -> sameIds ch ch' ->
  sameChannels chans (<[i := Some ch']> chans).
Proof.
  intros Hch Hids. unfold sameChannels, chanList in *.
  split; [apply length_insert|].
  intros j. destruct (Nat.eq_dec j i) as [->|Hne].
  - rewrite list_lookup_insert_eq by (apply lookup_lt_Some in Hch; exact Hch).
    rewrite Hch. exact Hids.
  - rewrite list_lookup_insert_ne by congruence.
    destruct (chans !! j) as [[c|]|]; [|exact I|exact I].
    repeat split.
Qed.

Lemma sameChannels_refl (chans : chanList) : sameChannels chans chans.
Proof.
  unfold sameChannels, chanList in *.
  split; [reflexivity|]. intros j.
  destruct (chans !! j) as [[c|]|]; [|exact I|exact I]. repeat split.
Qed.

Lemma sameChannels_indexed (chans chans' : chanList) :
  sameChannels chans chans' -> indexed chans -> indexed chans'.
Proof.
  unfold sameChannels, indexed, chanList in *.
  intros [_ Hsame] Hidx j ch' Hj. specialize (Hsame j).
  rewrite Hj in Hsame.
  destruct (chans !! j) as [[ch|]|] eqn:E; try contradiction.
  destruct Hsame as (-> & _). apply Hidx. exact E.
Qed.

Lemma len_channelDataPacket (id : Z) (data : list byte) :
  len (channelDataPacket id data) = 9 + len data.
Proof.
  unfold channelDataPacket, len. cbn [length].
  rewrite !length_app, !length_be32. lia.
Qed.

Lemma len_channelExtendedDataPacket (id datatype : Z) (data : list byte) :
  len (channelExtendedDataPacket id datatype data) = 13 + len data.
Proof.
  unfold channelExtendedDataPacket, len. cbn [length].
  rewrite !length_app, !length_be32. lia.
Qed.

(** X23. A channel data packet that carries its data with their right
    length is delivered by the id that it names: the data go to the end of
    the stdout buffer of that channel and nothing else of the table changes;
    an id whose slot was freed makes the loop dereference nil, and an id
    beyond the table ends the loop. *)
Theorem channelDataTurn_delivers (chans : chanList) (id : Z)
  (data : list byte) :
  len chans < 2 ^ 32 -> 0 <= id < 2 ^ 32 -> len data < 2 ^ 32 ->
  channelDataTurn chans (channelDataPacket id data)
  = match chans !! Z.to_nat id with
    | Some (Some ch) =>
        GoesOn (<[Z.to_nat id :=
                   Some (ClientChan (localId ch) (remoteId ch)
                                    (remoteWin ch) (maxPacket ch)
                                    (stdout ch ++ data) (stderr ch))]> chans)
    | Some None => NilDereference
    | None => Returns
    end.
Proof.
  intros Hlen Hid Hdata. unfold channelDataTurn.
  rewrite len_channelDataPacket.
  assert (0 <= len data) as Hpos by (unfold len; lia).
  destruct (Z.ltb_spec (9 + len data) 9) as [Habs|_]; [lia|].
  replace (firstn 4 (skipn 1 (channelDataPacket id data)))
    with (be32 id) by reflexivity.
  replace (firstn 4 (skipn 5 (channelDataPacket id data)))
    with (be32 (len data)) by reflexivity.
  replace (skipn 9 (channelDataPacket id data)) with data by reflexivity.
  rewrite !beZ_be32 by lia.
  rewrite WindowFacts.u32_small by lia. rewrite Z.eqb_refl. cbn [negb].
  unfold chanList in *.
  destruct (chans !! Z.to_nat id) as [[ch|]|] eqn:E.
  - rewrite (getChan_Some chans id ch) by (try exact E; lia). reflexivity.
  - rewrite (getChan_free chans id) by (try exact E; lia). reflexivity.
  - rewrite (getChan_outside chans id) by (try exact E; lia). reflexivity.
Qed.

Lemma channelDataTurn_delivers_witness :
  len [Some (newClientChan 0); None] < 2 ^ 32 /\
  0 <= 0 < 2 ^ 32 /\ len [x68; x69] < 2 ^ 32 /\
  channelDataTurn [Some (newClientChan 0); None]
                  (channelDataPacket 0 [x68; x69])
  = GoesOn [Some (ClientChan 0 0 (Win 0) 0 [x68; x69] []); None].
Proof.
  assert (len [Some (newClientChan 0); None] < 2 ^ 32) as H1
    by reflexivity.
  assert (0 <= 0 < 2 ^ 32) as H2 by lia.
  assert (len [x68; x69] < 2 ^ 32) as H3 by reflexivity.
  split; [exact H1|]. split; [exact H2|]. split; [exact H3|].
  exact (channelDataTurn_delivers [Some (newClientChan 0); None] 0
           [x68; x69] H1 H2 H3).
Defined.

(** X24. Extended data of type 1 are delivered as data are, to the stderr
    buffer of the channel; extended data of any other type are dropped
    before the channel is looked up, so that the loop goes on with the table
    as it is even when the id names no channel. *)
Theorem channelExtendedDataTurn_routes (chans : chanList)
  (id datatype : Z) (data : list byte) :
  len chans < 2 ^ 32 -> 0 <= id < 2 ^ 32 -> 0 <= datatype < 2 ^ 32 ->
  len data < 2 ^ 32 ->
  channelExtendedDataTurn chans (channelExtendedDataPacket id datatype data)
  = if datatype =? 1 then
      match chans !! Z.to_nat id with
      | Some (Some ch) =>
          GoesOn (<[Z.to_nat id :=
                     Some (ClientChan (localId ch) (remoteId ch)
                                      (remoteWin ch) (maxPacket ch)
                                      (stdout ch) (stderr ch ++ data))]> chans)
      | Some None => NilDereference
      | None => Returns
      end
    else GoesOn chans.
Proof.
  intros Hlen Hid Htype Hdata. unfold channelExtendedDataTurn.
  rewrite len_channelExtendedDataPacket.
  assert (0 <= len data) as Hpos by (unfold len; lia).
  destruct (Z.ltb_spec (13 + len data) 13) as [Habs|_]; [lia|].
  replace (firstn 4 (skipn 1 (channelExtendedDataPacket id datatype data)))
    with (be32 id) by reflexivity.
  replace (firstn 4 (skipn 5 (channelExtendedDataPacket id datatype data)))
    with (be32 datatype) by reflexivity.
  replace (firstn 4 (skipn 9 (channelExtendedDataPacket id datatype data)))
    with (be32 (len data)) by reflexivity.
  replace (skipn 13 (channelExtendedDataPacket id datatype data))
    with data by reflexivity.
  rewrite !beZ_be32 by lia.
  rewrite WindowFacts.u32_small by lia. rewrite Z.eqb_refl. cbn [negb].
  destruct (datatype =? 1); [|reflexivity].
  unfold chanList in *.
  destruct (chans !! Z.to_nat id) as [[ch|]|] eqn:E.
  - rewrite (getChan_Some chans id ch) by (try exact E; lia). reflexivity.
  - rewrite (getChan_free chans id) by (try exact E; lia). reflexivity.
  - rewrite (getChan_outside chans id) by (try exact E; lia). reflexivity.
Qed.

Lemma channelExtendedDataTurn_routes_witness :
  len [Some (newClientChan 0)] < 2 ^ 32 /\
  0 <= 5 < 2 ^ 32 /\ 0 <= 2 < 2 ^ 32 /\ len [x68; x69] < 2 ^ 32 /\
  channelExtendedDataTurn [Some (newClientChan 0)]
                          (channelExtendedDataPacket 5 2 [x68; x69])
  = GoesOn [Some (newClientChan 0)].
Proof.
  assert (len [Some (newClientChan 0)] < 2 ^ 32) as H1 by reflexivity.
  assert (0 <= 5 < 2 ^ 32) as H2 by lia.
  assert (0 <= 2 < 2 ^ 32) as H3 by lia.
  assert (len [x68; x69] < 2 ^ 32) as H4 by reflexivity.
  split; [exact H1|]. split; [exact H2|]. split; [exact H3|].
  split; [exact H4|].
  exact (channelExtendedDataTurn_routes [Some (newClientChan 0)] 5 2
           [x68; x69] H1 H2 H3 H4).
Defined.

(** X25. A data packet or an extended data packet whose length field is
    not the number of bytes that follow it ends the loop, whatever the
    channel. *)
Theorem data_turns_check_length (chans : chanList) (id datatype n : Z)
  (data : list byte) :
  0 <= n < 2 ^ 32 -> len data < 2 ^ 32 -> n <> len data ->
  channelDataTurn chans (msgChannelData :: be32 id ++ be32 n ++ data)
  = Returns /\
  channelExtendedDataTurn chans
    (msgChannelExtendedData :: be32 id ++ be32 datatype ++ be32 n ++ data)
  = Returns.
Proof.
  intros Hn Hdata Hne.
  assert (0 <= len data) as Hpos by (unfold len; lia).
  assert (negb (n =? u32 (len data)) = true) as Hcheck.
  { rewrite WindowFacts.u32_small by lia.
    destruct (Z.eqb_spec n (len data)); [contradiction|reflexivity]. }
  split.
  - unfold channelDataTurn.
    destruct (_ <? 9); [reflexivity|].
    replace (firstn 4 (skipn 5 (msgChannelData :: be32 id ++ be32 n ++ data)))
      with (be32 n) by reflexivity.
    replace (skipn 9 (msgChannelData :: be32 id ++ be32 n ++ data))
      with data by reflexivity.
    rewrite beZ_be32 by lia. rewrite Hcheck. reflexivity.
  - unfold channelExtendedDataTurn.
    destruct (_ <? 13); [reflexivity|].
    replace (firstn 4 (skipn 9 (msgChannelExtendedData :: be32 id
                                  ++ be32 datatype ++ be32 n ++ data)))
      with (be32 n) by reflexivity.
    replace (skipn 13 (msgChannelExtendedData :: be32 id
                         ++ be32 datatype ++ be32 n ++ data))
      with data by reflexivity.
    rewrite beZ_be32 by lia. rewrite Hcheck. reflexivity.
Qed.

Lemma data_turns_check_length_witness :
  0 <= 3 < 2 ^ 32 /\ len [x68; x69] < 2 ^ 32 /\ 3 <> len [x68; x69] /\
  channelDataTurn [Some (newClientChan 0)]
    (msgChannelData :: be32 0 ++ be32 3 ++ [x68; x69]) = Returns /\
  channelExtendedDataTurn [Some (newClientChan 0)]
    (msgChannelExtendedData :: be32 0 ++ be32 1 ++ be32 3 ++ [x68; x69])
  = Returns.
Proof.
  assert (0 <= 3 < 2 ^ 32) as H1 by lia.
  assert (len [x68; x69] < 2 ^ 32) as H2 by reflexivity.
  assert (3 <> len [x68; x69]) as H3 by discriminate.
  split; [exact H1|]. split; [exact H2|]. split; [exact H3|].
  exact (data_turns_check_length [Some (newClientChan 0)] 0 1 3
           [x68; x69] H1 H2 H3).
Defined.

(** X26. A window adjustment for a channel of the table adds the bytes to
    the send window of that channel when the sum is below 2^32, and ends the
    loop, the table being dropped, when the sum is 2^32 or more. *)
Theorem windowAdjustTurn_adds (chans : chanList) (msg : windowAdjustMsg)
  (ch : clientChan) :
  len chans < 2 ^ 32 -> 0 <= AdjustPeersId msg ->
  chans !! Z.to_nat (AdjustPeersId msg) = Some (Some ch) ->
  wf (remoteWin ch) -> 0 <= AdditionalBytes msg < 2 ^ 32 ->
  windowAdjustTurn chans msg
  = if win (remoteWin ch) + AdditionalBytes msg <? 2 ^ 32 then
      GoesOn (<[Z.to_nat (AdjustPeersId msg) :=
                 Some (ClientChan (localId ch) (remoteId ch)
                         (Win (win (remoteWin ch) + AdditionalBytes msg))
                         (maxPacket ch) (stdout ch) (stderr ch))]> chans)
    else Returns.
Proof.
  intros Hlen Hid Hch Hwf Hn. unfold windowAdjustTurn.
  rewrite (getChan_Some chans _ ch) by assumption.
  destruct (Z.ltb_spec (win (remoteWin ch) + AdditionalBytes msg) (2 ^ 32))
    as [Hfits|Hwraps].
  - destruct (Z.eq_dec (AdditionalBytes msg) 0) as [H0|Hnz].
    + rewrite H0, WindowFacts.add_zero, Z.add_0_r. cbn [negb].
      destruct (remoteWin ch). reflexivity.
    + rewrite WindowFacts.add_fits by (try assumption; lia). reflexivity.
  - unfold wf in Hwf.
    rewrite WindowFacts.add_wraps by (try assumption; lia). reflexivity.
Qed.

Lemma windowAdjustTurn_adds_witness :
  len [Some (ClientChan 0 7 (Win 1000) 32768 [] [])] < 2 ^ 32 /\
  0 <= AdjustPeersId (WindowAdjust 0 24) /\
  wf (Win 1000) /\ 0 <= AdditionalBytes (WindowAdjust 0 24) < 2 ^ 32 /\
  windowAdjustTurn [Some (ClientChan 0 7 (Win 1000) 32768 [] [])]
                   (WindowAdjust 0 24)
  = GoesOn [Some (ClientChan 0 7 (Win 1024) 32768 [] [])].
Proof.
  assert (len [Some (ClientChan 0 7 (Win 1000) 32768 [] [])] < 2 ^ 32)
    as H1 by reflexivity.
  assert (0 <= AdjustPeersId (WindowAdjust 0 24)) as H2 by (simpl; lia).
  assert (wf (Win 1000)) as H3 by (unfold wf; simpl; lia).
  assert (0 <= AdditionalBytes (WindowAdjust 0 24) < 2 ^ 32) as H4
    by (simpl; lia).
  split; [exact H1|]. split; [exact H2|]. split; [exact H3|].
  split; [exact H4|].
  exact (windowAdjustTurn_adds
           [Some (ClientChan 0 7 (Win 1000) 32768 [] [])]
           (WindowAdjust 0 24) (ClientChan 0 7 (Win 1000) 32768 [] [])
           H1 H2 eq_refl H3 H4).
Defined.

(** X27. A turn of the loop on data, on extended data or on a window
    adjustment that lets the loop go on neither allocates nor frees a slot of
    the table and leaves every channel its local id, its remote id and its
    maximum packet size; the table stays indexed by local id. *)
Theorem turns_keep_channels (chans chans' : chanList) :
  (exists pkt, channelDataTurn chans pkt = GoesOn chans'
               \/ channelExtendedDataTurn chans pkt = GoesOn chans')
  \/ (exists msg, windowAdjustTurn chans msg = GoesOn chans') ->
  sameChannels chans chans' /\ (indexed chans -> indexed chans').
Proof.
  intros Hturn.
  assert (sameChannels chans chans') as Hsame.
  { destruct Hturn as [[pkt [H|H]]|[msg H]].
    - unfold channelDataTurn in H.
      destruct (_ <? 9); [discriminate|].
      destruct (negb _); [discriminate|].
      destruct (getChan chans _) as [[ch|] [|]] eqn:E; try discriminate.
      injection H as <-. apply getChan_found in E.
      apply (sameChannels_insert _ _ ch); [exact E|repeat split].
    - unfold channelExtendedDataTurn in H.
      destruct (_ <? 13); [discriminate|].
      destruct (negb _); [discriminate|].
      destruct (_ =? 1).
      + destruct (getChan chans _) as [[ch|] [|]] eqn:E; try discriminate.
        injection H as <-. apply getChan_found in E.
        apply (sameChannels_insert _ _ ch); [exact E|repeat split].
      + injection H as <-. apply sameChannels_refl.
    - unfold windowAdjustTurn in H.
      destruct (getChan chans _) as [[ch|] [|]] eqn:E; try discriminate.
      destruct (add _ _) as [ok w]. destruct ok; [|discriminate].
      injection H as <-. apply getChan_found in E.
      apply (sameChannels_insert _ _ ch); [exact E|repeat split]. }
  split; [exact Hsame|apply sameChannels_indexed; exact Hsame].
Qed.

Lemma turns_keep_channels_witness :
  sameChannels [Some (ClientChan 0 7 (Win 1000) 32768 [] [])]
               [Some (ClientChan 0 7 (Win 1024) 32768 [] [])] /\
  (indexed [Some (ClientChan 0 7 (Win 1000) 32768 [] [])] ->
   indexed [Some (ClientChan 0 7 (Win 1024) 32768 [] [])]).
Proof.
  apply (turns_keep_channels
           [Some (ClientChan 0 7 (Win 1000) 32768 [] [])]
           [Some (ClientChan 0 7 (Win 1024) 32768 [] [])]).
  right. exists (WindowAdjust 0 24). reflexivity.
Defined.

End LoopFacts.

(** ** The check of the host key signature *)

Module HostKeyFacts.

Import Wire.
Import Certs.
Import Common.
Import Handshake.
Import Encoding.
Import WireFacts.
Import CertsFacts.
Import EncodingFacts.
Import CommonFacts.

Section AnyKeys.

Context {KF : KeyFamily}.

Variable plainVerify : plainKey -> list byte -> list byte -> bool.

Lemma parseSignatureBody_bytes (format : string) (blob junk : list byte) :
  slen format < 2 ^ 32 -> len blob < 2 ^ 32 ->
  parseSignatureBody ((stringBytes (bytes format) ++ stringBytes blob) ++ junk)
  = Triple (Some (Sig format blob)) junk true.
Proof.
  intros Hformat Hblob. unfold parseSignatureBody. rewrite <- app_assoc.
  rewrite parseString_stringBytes
    by (unfold len; rewrite length_bytes; exact Hformat).
  rewrite parseString_stringBytes by exact Hblob.
  rewrite str_bytes. reflexivity.
Qed.

(** X28. The host key check on what the marshallers write: for the wire
    form of a plain key (of a family whose codec is a round trip) and a
    serialized signature of some format and blob, [verifyHostKeySignature] is
    decided by the format and by [Verify] alone: a format other than the
    agreed host key algorithm is an unexpected signature type, otherwise the
    key is accepted exactly when it verifies the blob over the data; the
    algorithm of the key itself is never compared with the agreed one.  Any
    byte after the signature is a signature parse error. *)
Theorem verifyHostKeySignature_plain_key (k : plainKey)
  (hostKeyAlgo format : string) (data blob : list byte) :
  isCertAlgo (plainAlgo k) = false -> slen (plainAlgo k) < 2 ^ 32 ->
  plainParse (plainAlgo k) (plainMarshal k) = Some (k, []) ->
  slen format < 2 ^ 32 -> len blob < 2 ^ 32 ->
  exists hostKeyBytes signature,
    MarshalPublicKey (PlainKey k) = Some hostKeyBytes /\
    serializeSignature format blob = Some signature /\
    verifyHostKeySignature plainVerify hostKeyAlgo hostKeyBytes data signature
    = (if negb (String.eqb format hostKeyAlgo)
       then Rejected (UnexpectedSignatureType format)
       else if plainVerify k data blob then Accepted
            else Rejected HostKeySignatureError) /\
    forall junk, junk <> [] ->
      verifyHostKeySignature plainVerify hostKeyAlgo hostKeyBytes data
                             (signature ++ junk)
      = Rejected SignatureParseError.
Proof.
  intros Hplain Hname Hcodec Hformat Hblob.
  destruct (ParsePublicKey_MarshalPublicKey_plain k Hplain Hname Hcodec)
    as (b & Hb & Hparse).
  exists b, (stringBytes (bytes format) ++ stringBytes blob).
  split; [exact Hb|]. split; [apply serializeSignature_bytes|].
  unfold verifyHostKeySignature. rewrite Hparse. cbn [len length].
  change (0 <? Z.of_nat 0) with false. cbn [orb negb].
  split.
  - rewrite <- (app_nil_r (stringBytes (bytes format) ++ stringBytes blob)).
    rewrite parseSignatureBody_bytes by assumption.
    cbn [len length]. change (0 <? Z.of_nat 0) with false. cbn [orb negb].
    cbn [Format Blob].
    destruct (negb (String.eqb format hostKeyAlgo)); [reflexivity|].
    simpl. destruct (plainVerify k data blob); reflexivity.
  - intros junk Hjunk.
    rewrite parseSignatureBody_bytes by assumption.
    destruct junk as [|x junk]; [contradiction|].
    assert ((0 <? len (x :: junk)) = true) as ->
      by (apply Z.ltb_lt; unfold len; simpl length; lia).
    reflexivity.
Qed.

End AnyKeys.

Lemma verifyHostKeySignature_plain_key_witness :
  isCertAlgo (plainAlgo (RSA 65537 3233)) = false /\
  slen (plainAlgo (RSA 65537 3233)) < 2 ^ 32 /\
  plainParse (plainAlgo (RSA 65537 3233)) (plainMarshal (RSA 65537 3233))
  = Some (RSA 65537 3233, []) /\
  slen "ssh-dss" < 2 ^ 32 /\ len [x05; x06] < 2 ^ 32 /\
  exists hostKeyBytes signature,
    MarshalPublicKey (PlainKey (RSA 65537 3233)) = Some hostKeyBytes /\
    serializeSignature "ssh-dss" [x05; x06] = Some signature /\
    verifyHostKeySignature (fun _ _ _ => true) "ssh-dss" hostKeyBytes
                           [x01] signature
    = Accepted /\
    forall junk, junk <> [] ->
      verifyHostKeySignature (fun _ _ _ => true) "ssh-dss" hostKeyBytes
                             [x01] (signature ++ junk)
      = Rejected SignatureParseError.
Proof.
  assert (isCertAlgo (plainAlgo (RSA 65537 3233)) = false) as H1
    by reflexivity.
  assert (slen (plainAlgo (RSA 65537 3233)) < 2 ^ 32) as H2 by reflexivity.
  assert (plainParse (plainAlgo (RSA 65537 3233))
                     (plainMarshal (RSA 65537 3233))
          = Some (RSA 65537 3233, [])) as H3 by reflexivity.
  assert (slen "ssh-dss" < 2 ^ 32) as H4 by reflexivity.
  assert (len [x05; x06] < 2 ^ 32) as H5 by reflexivity.
  split; [exact H1|]. split; [exact H2|]. split; [exact H3|].
  split; [exact H4|]. split; [exact H5|].
  exact (verifyHostKeySignature_plain_key (fun _ _ _ => true)
           (RSA 65537 3233) "ssh-dss" "ssh-dss" [x01] [x05; x06]
           H1 H2 H3 H4 H5).
Defined.

End HostKeyFacts.

(** ** Algorithm names of keys and certificates *)

Module AlgoNameFacts.

Import Certs.
Import CertsFacts.

(** Case analysis on a string that a hypothesis [H] matches against string
    constants: character by character and bit by bit, dropping the cases in
    which [H] has become absurd. *)
Ltac bit H b := destruct b; cbn in H; try discriminate H.

Ltac char H s :=
  let b0 := fresh "b" in let b1 := fresh "b" in let b2 := fresh "b" in
  let b3 := fresh "b" in let b4 := fresh "b" in let b5 := fresh "b" in
  let b6 := fresh "b" in let b7 := fresh "b" in
  destruct s as [|[b0 b1 b2 b3 b4 b5 b6 b7] s];
  [cbn in H; try discriminate H
  |cbn in H; try discriminate H;
   bit H b0; bit H b1; bit H b2; bit H b3; bit H b4; bit H b5; bit H b6;
   bit H b7].

(** The map [certAlgoNames] takes names of plain keys to certificate names,
    and [pubAlgoToPrivAlgo] takes them back. *)
Lemma certAlgoNames_cases (algo cert : string) :
  certAlgoNames algo = Some cert ->
  isCertAlgo algo = false /\ isCertAlgo cert = true /\
  pubAlgoToPrivAlgo cert = algo.
Proof.
  intros H. unfold certAlgoNames in H.
  repeat (char H algo).
  all: injection H as <-; repeat split.
Qed.

(** The same analysis for a name that is no certificate name: [Hc] is the
    test of the name, [E] says that [pubAlgoToPrivAlgo] changes it. *)
Ltac closes Hc E :=
  cbn in Hc;
  lazymatch type of Hc with
  | false = false => exfalso; apply E; reflexivity
  | true = false => discriminate Hc
  | _ => idtac
  end.

Ltac plainBit Hc E b := destruct b; closes Hc E.

Ltac plainChar Hc E s :=
  let b0 := fresh "b" in let b1 := fresh "b" in let b2 := fresh "b" in
  let b3 := fresh "b" in let b4 := fresh "b" in let b5 := fresh "b" in
  let b6 := fresh "b" in let b7 := fresh "b" in
  destruct s as [|[b0 b1 b2 b3 b4 b5 b6 b7] s];
  [closes Hc E
  |closes Hc E;
   plainBit Hc E b0; plainBit Hc E b1; plainBit Hc E b2; plainBit Hc E b3;
   plainBit Hc E b4; plainBit Hc E b5; plainBit Hc E b6; plainBit Hc E b7].

Lemma pubAlgoToPrivAlgo_plain (algo : string) :
  isCertAlgo algo = false -> pubAlgoToPrivAlgo algo = algo.
Proof.
  intros Hc.
  destruct (String.eqb_spec (pubAlgoToPrivAlgo algo) algo) as [E|E];
    [exact E|exfalso].
  unfold isCertAlgo in Hc.
  repeat (plainChar Hc E algo).
Qed.

Section AnyKeys.

Context {KF : KeyFamily}.

(** X29. The two algorithm names of a key fit together: when no plain key
    goes by a certificate name and [PublicKeyAlgo] returns a name for a key,
    [PrivateKeyAlgo] returns what [pubAlgoToPrivAlgo] makes of that name, and
    the name is a certificate name exactly for a certificate; a certificate
    over a certificate has no public key algorithm ([PublicKeyAlgo]
    panics). *)
Theorem PrivateKeyAlgo_of_PublicKeyAlgo (key : PublicKey) (a : string) :
  (forall k : plainKey, isCertAlgo (plainAlgo k) = false) ->
  PublicKeyAlgo key = Some a ->
  PrivateKeyAlgo key = Some (pubAlgoToPrivAlgo a) /\
  (isCertAlgo a = true <-> exists c, key = CertKey c) /\
  forall c, key = CertKey c ->
    exists k, Key c = Some (PlainKey k).
Proof.
  intros Hplain Ha. destruct key as [k|c].
  - simpl in Ha. injection Ha as <-. simpl.
    rewrite pubAlgoToPrivAlgo_plain by apply Hplain.
    split; [reflexivity|]. split.
    + split; [rewrite Hplain; discriminate|intros [c Hc]; discriminate Hc].
    + intros c Hc. discriminate Hc.
  - simpl in Ha |- *. destruct (Key c) as [[k|c']|] eqn:Hkey;
      [| |discriminate Ha].
    + simpl in Ha |- *. apply certAlgoNames_cases in Ha.
      destruct Ha as (_ & Hcert & ->).
      split; [reflexivity|]. split.
      * split; [intros _; exists c; reflexivity|intros _; exact Hcert].
      * intros c0 Hc0. injection Hc0 as <-. exists k. exact Hkey.
    + exfalso. simpl in Ha.
      destruct (Key c') as [k'|]; [|discriminate Ha].
      destruct (PublicKeyAlgo k') as [inner|]; [|discriminate Ha].
      destruct (certAlgoNames inner) as [mid|] eqn:Hinner;
        [|discriminate Ha].
      apply certAlgoNames_cases in Hinner. destruct Hinner as (_ & Hmid & _).
      apply certAlgoNames_cases in Ha. destruct Ha as (Hmid' & _).
      congruence.
Qed.

End AnyKeys.

Lemma PrivateKeyAlgo_of_PublicKeyAlgo_witness :
  (forall k : rsaDsaKey, isCertAlgo (plainAlgo k) = false) /\
  PublicKeyAlgo (CertKey (exampleCert UserCert)) = Some CertAlgoRSAv01 /\
  PrivateKeyAlgo (CertKey (exampleCert UserCert))
  = Some (pubAlgoToPrivAlgo CertAlgoRSAv01) /\
  (isCertAlgo CertAlgoRSAv01 = true
   <-> exists c, CertKey (exampleCert UserCert) = CertKey c) /\
  forall c, CertKey (exampleCert UserCert) = CertKey c ->
    exists k, Key c = Some (PlainKey k).
Proof.
  assert (forall k : rsaDsaKey, isCertAlgo (plainAlgo k) = false) as H1
    by (intros k; apply rsaDsa_names_are_plain).
  assert (PublicKeyAlgo (CertKey (exampleCert UserCert))
          = Some CertAlgoRSAv01) as H2 by reflexivity.
  split; [exact H1|]. split; [exact H2|].
  exact (PrivateKeyAlgo_of_PublicKeyAlgo (CertKey (exampleCert UserCert))
           CertAlgoRSAv01 H1 H2).
Defined.

End AlgoNameFacts.
